(** * wg-quick-go (package wgctl): a shallow embedding of src/wg.go

    The file follows the layout of the Go package.  The packages the
    program imports (net, encoding/base64, text/template, netlink,
    wireguardctrl) are modelled first, each in a module of its name, as
    far as wg.go uses them; then the functions of wg.go itself
    ([serializeKey], [ParseKey], [cfgTemplate], [MarshalText], [String],
    [Up], [syncAddress], [syncRoutes]); then the statements about them. *)

From Stdlib Require Import ZArith List String Ascii Lia Permutation Bool.
From stdpp Require Import base gmap strings list fin_maps sorting.

Local Open Scope string_scope.
Local Open Scope list_scope.
Local Open Scope Z_scope.

(** ** Go values: errors, results, strings and byte slices *)

(** The error values the program can meet.  Up tells a
    [netlink.LinkNotFoundError] from every other error by a type
    assertion, so that one keeps a constructor of its own. *)
Inductive error : Type :=
| LinkNotFoundError (msg : string)
| Errno (code : Z)
| ParseError (type_ text : string)
| CorruptInputError (offset : Z)
| TemplateError (msg : string)
| ErrorString (msg : string).

(** A Go call returning [(T, error)], or only [error] with [T := unit]. *)
Inductive result (A : Type) : Type :=
| Ok (a : A)
| Err (e : error).
Arguments Ok {A} a.
Arguments Err {A} e.

Definition is_err {A} (r : result A) : bool :=
  match r with Ok _ => false | Err _ => true end.

Definition error_of {A} (r : result A) : option error :=
  match r with Ok _ => None | Err e => Some e end.

(** A byte is a [Z] in [0, 256). *)
Definition is_byte (b : Z) : bool := (0 <=? b) && (b <? 256).

Module gostr.

Definition code (c : ascii) : Z := Z.of_N (N_of_ascii c).
Definition chr (n : Z) : ascii := ascii_of_N (Z.to_N n).

Definition len (s : string) : Z := Z.of_nat (String.length s).

(** [s[n:]] and [s[:n]] for [0 <= n]. *)
Fixpoint drop (n : nat) (s : string) : string :=
  match n, s with
  | O, _ => s
  | S n', String _ s' => drop n' s'
  | S _, EmptyString => EmptyString
  end.

Fixpoint take (n : nat) (s : string) : string :=
  match n, s with
  | O, _ => EmptyString
  | S n', String c s' => String c (take n' s')
  | S _, EmptyString => EmptyString
  end.

(** [strings.IndexByte]: the index of the first [c] in [s], or -1. *)
Fixpoint IndexByte (s : string) (c : ascii) : Z :=
  match s with
  | EmptyString => -1
  | String a s' =>
      if Ascii.eqb a c then 0
      else let i := IndexByte s' c in if i <? 0 then -1 else i + 1
  end.

Definition bytes (s : string) : list Z := map code (list_ascii_of_string s).
Definition of_bytes (l : list Z) : string := string_of_list_ascii (map chr l).

(** The double quote, which a string literal of this file cannot hold. *)
Definition dquote : string := String (ascii_of_nat 34) EmptyString.

End gostr.

(** ** Package net (ip.go, parse.go), as far as wg.go and netlink reach it *)

Module net.

Definition IPv4len : Z := 4.
Definition IPv6len : Z := 16.

(** [net.IPNet]: both fields are byte slices; [nil] is the empty list. *)
Record IPNet : Type := { IP : list Z; Mask : list Z }.

#[global] Instance IPNet_eq_dec : EqDecision IPNet.
Proof. solve_decision. Defined.

Definition at_ (p : list Z) (i : Z) : Z := nth (Z.to_nat i) p 0.
Definition blen (p : list Z) : Z := Z.of_nat (length p).

Definition v4InV6Prefix : list Z := [0;0;0;0;0;0;0;0;0;0;255;255].

Definition isZeros (p : list Z) : bool := forallb (Z.eqb 0) p.
Definition allFF (p : list Z) : bool := forallb (Z.eqb 255) p.

(** [IPv4(a, b, c, d)]: the 16-byte form. *)
Definition IPv4 (a b c d : Z) : list Z := v4InV6Prefix ++ [a; b; c; d].

(** [ip.To4()]; [None] is Go's nil. *)
Definition To4 (ip : list Z) : option (list Z) :=
  if blen ip =? IPv4len then Some ip
  else if (blen ip =? IPv6len) && isZeros (firstn 10 ip)
          && (at_ ip 10 =? 255) && (at_ ip 11 =? 255)
       then Some (skipn 12 ip)
       else None.

(** [uitoa]: decimal digits of a non-negative number. *)
Definition digit (d : Z) : ascii := gostr.chr (48 + d).

Fixpoint uitoa_loop (fuel : nat) (val : Z) (acc : string) : string :=
  match fuel with
  | O => acc
  | S f =>
      if 10 <=? val
      then uitoa_loop f (val / 10) (String (digit (val mod 10)) acc)
      else String (digit val) acc
  end.

Definition uitoa (val : Z) : string :=
  if val =? 0 then "0" else uitoa_loop 20 val "".

Definition hexDigit (v : Z) : ascii :=
  if v <? 10 then gostr.chr (48 + v) else gostr.chr (87 + v).

(** [appendHex(dst, i)]: hexadecimal digits of a 32-bit [i], no leading zero. *)
Definition appendHex (dst : string) (i : Z) : string :=
  if i =? 0 then dst +:+ "0"
  else fold_left
         (fun d j =>
            let v := Z.shiftr i (j * 4) in
            if 0 <? v then d +:+ String (hexDigit (Z.land v 15)) "" else d)
         [7; 6; 5; 4; 3; 2; 1; 0] dst.

(** [hexString(b)]: two digits per byte. *)
Definition hexString (b : list Z) : string :=
  fold_right
    (fun tn s => String (hexDigit (Z.shiftr tn 4))
                   (String (hexDigit (Z.land tn 15)) s))
    "" b.

(** The longest run of zero 16-bit groups of a 16-byte address, [(e0, e1)]. *)
Fixpoint zeros_to (fuel : nat) (p : list Z) (j : Z) : Z :=
  match fuel with
  | O => j
  | S f =>
      if (j <? IPv6len) && (at_ p j =? 0) && (at_ p (j + 1) =? 0)
      then zeros_to f p (j + 2) else j
  end.

Fixpoint longest_zeros (fuel : nat) (p : list Z) (i e0 e1 : Z) : Z * Z :=
  match fuel with
  | O => (e0, e1)
  | S f =>
      if i <? IPv6len then
        let j := zeros_to 8 p i in
        if (i <? j) && (e1 - e0 <? j - i)
        then longest_zeros f p (j + 2) i j
        else longest_zeros f p (i + 2) e0 e1
      else (e0, e1)
  end.

Fixpoint print_groups (fuel : nat) (p : list Z) (i e0 e1 : Z) (b : string)
  : string :=
  match fuel with
  | O => b
  | S f =>
      if i <? IPv6len then
        if i =? e0 then
          let b := b +:+ "::" in
          if IPv6len <=? e1 then b
          else print_groups f p (e1 + 2) e0 e1
                 (appendHex b (Z.lor (Z.shiftl (at_ p e1) 8) (at_ p (e1 + 1))))
        else
          let b := if 0 <? i then b +:+ ":" else b in
          print_groups f p (i + 2) e0 e1
            (appendHex b (Z.lor (Z.shiftl (at_ p i) 8) (at_ p (i + 1))))
      else b
  end.

(** [ip.String()]. *)
Definition IP_String (ip : list Z) : string :=
  if blen ip =? 0 then "<nil>"
  else match To4 ip with
       | Some p4 =>
           uitoa (at_ p4 0) +:+ "." +:+ uitoa (at_ p4 1) +:+ "." +:+
           uitoa (at_ p4 2) +:+ "." +:+ uitoa (at_ p4 3)
       | None =>
           if negb (blen ip =? IPv6len) then "?" +:+ hexString ip
           else
             let '(e0, e1) := longest_zeros 8 ip 0 (-1) (-1) in
             let '(e0, e1) := if e1 - e0 <=? 2 then (-1, -1) else (e0, e1) in
             print_groups 9 ip 0 e0 e1 ""
       end.

(** [m.String()] of an [IPMask]. *)
Definition IPMask_String (m : list Z) : string :=
  if blen m =? 0 then "<nil>" else hexString m.

(** [simpleMaskLength]: the number of leading ones of a mask made of ones
    followed by zeros, -1 for any other mask. *)
Fixpoint leading_ones (fuel : nat) (v n : Z) : Z * Z :=
  match fuel with
  | O => (v, n)
  | S f =>
      if negb (Z.land v 128 =? 0)
      then leading_ones f (Z.land (Z.shiftl v 1) 255) (n + 1)
      else (v, n)
  end.

Fixpoint simpleMaskLength_from (mask : list Z) (n : Z) : Z :=
  match mask with
  | [] => n
  | v :: rest =>
      if v =? 255 then simpleMaskLength_from rest (n + 8)
      else
        let '(v', n') := leading_ones 8 v n in
        if negb (v' =? 0) then -1
        else if forallb (Z.eqb 0) rest then n' else -1
  end.

Definition simpleMaskLength (mask : list Z) : Z := simpleMaskLength_from mask 0.

(** [m.Size()]. *)
Definition IPMask_Size (m : list Z) : Z * Z :=
  let ones := simpleMaskLength m in
  if ones =? -1 then (0, 0) else (ones, blen m * 8).

(** [networkNumberAndMask(n)] for a non-nil [n]. *)
Definition networkNumberAndMask (n : IPNet) : option (list Z * list Z) :=
  let ip := match To4 (IP n) with
            | Some p4 => Some p4
            | None => if blen (IP n) =? IPv6len then Some (IP n) else None
            end in
  match ip with
  | None => None
  | Some ip =>
      if blen (Mask n) =? IPv4len then
        if blen ip =? IPv4len then Some (ip, Mask n) else None
      else if blen (Mask n) =? IPv6len then
        if blen ip =? IPv4len then Some (ip, skipn 12 (Mask n))
        else Some (ip, Mask n)
      else None
  end.

(** [n.String()] on a [*net.IPNet]; a nil receiver prints as <nil>. *)
Definition IPNet_String (n : option IPNet) : string :=
  match n with
  | None => "<nil>"
  | Some n =>
      match networkNumberAndMask n with
      | None => "<nil>"
      | Some (nn, m) =>
          let l := simpleMaskLength m in
          if l =? -1 then IP_String nn +:+ "/" +:+ IPMask_String m
          else IP_String nn +:+ "/" +:+ uitoa l
      end
  end.

(** [CIDRMask(ones, bits)]; the empty list is Go's nil. *)
Fixpoint CIDRMask_bytes (l : nat) (n : Z) : list Z :=
  match l with
  | O => []
  | S l' =>
      if 8 <=? n then 255 :: CIDRMask_bytes l' (n - 8)
      else Z.land (Z.lnot (Z.shiftr 255 n)) 255 :: CIDRMask_bytes l' 0
  end.

Definition CIDRMask (ones bits : Z) : list Z :=
  if negb (bits =? 8 * IPv4len) && negb (bits =? 8 * IPv6len) then []
  else if (ones <? 0) || (bits <? ones) then []
  else CIDRMask_bytes (Z.to_nat (bits / 8)) ones.

(** [ip.Mask(mask)]; the empty list is Go's nil. *)
Definition IP_Mask (ip mask : list Z) : list Z :=
  let mask := if (blen mask =? IPv6len) && (blen ip =? IPv4len)
                 && allFF (firstn 12 mask)
              then skipn 12 mask else mask in
  let ip := if (blen mask =? IPv4len) && (blen ip =? IPv6len)
               && bool_decide (firstn 12 ip = v4InV6Prefix)
            then skipn 12 ip else ip in
  if negb (blen ip =? blen mask) then []
  else map (fun '(a, b) => Z.land a b) (combine ip mask).

Definition big : Z := 16777215.

Definition is_digit (c : ascii) : bool :=
  (48 <=? gostr.code c) && (gostr.code c <=? 57).

(** [dtoi(s)]: number, characters consumed, success. *)
Fixpoint dtoi_loop (s : string) (n i : Z) : Z * Z * bool :=
  match s with
  | String c s' =>
      if is_digit c then
        let n := n * 10 + (gostr.code c - 48) in
        if big <=? n then (big, i, false) else dtoi_loop s' n (i + 1)
      else if i =? 0 then (0, 0, false) else (n, i, true)
  | EmptyString => if i =? 0 then (0, 0, false) else (n, i, true)
  end.

Definition dtoi (s : string) : Z * Z * bool := dtoi_loop s 0 0.

Definition hex_value (c : ascii) : option Z :=
  let k := gostr.code c in
  if (48 <=? k) && (k <=? 57) then Some (k - 48)
  else if (97 <=? k) && (k <=? 102) then Some (k - 97 + 10)
  else if (65 <=? k) && (k <=? 70) then Some (k - 65 + 10)
  else None.

(** [xtoi(s)]: number, characters consumed, success. *)
Fixpoint xtoi_loop (s : string) (n i : Z) : Z * Z * bool :=
  match s with
  | String c s' =>
      match hex_value c with
      | Some d =>
          let n := n * 16 + d in
          if big <=? n then (0, i, false) else xtoi_loop s' n (i + 1)
      | None => if i =? 0 then (0, i, false) else (n, i, true)
      end
  | EmptyString => if i =? 0 then (0, i, false) else (n, i, true)
  end.

Definition xtoi (s : string) : Z * Z * bool := xtoi_loop s 0 0.

(** [parseIPv4(s)]: the four octets ([IPv4] of them is what Go returns). *)
Fixpoint parseIPv4_loop (k : nat) (i : Z) (s : string) (p : list Z)
  : option (list Z) :=
  match k with
  | O => if gostr.len s =? 0 then Some p else None
  | S k' =>
      if gostr.len s =? 0 then None
      else
        let s1 := if 0 <? i
                  then match s with
                       | String "." r => Some r
                       | _ => None
                       end
                  else Some s in
        match s1 with
        | None => None
        | Some s1 =>
            let '(n, c, ok) := dtoi s1 in
            if negb ok || (255 <? n) then None
            else if (1 <? c) && (match s1 with String "0" _ => true | _ => false end)
            then None
            else parseIPv4_loop k' (i + 1) (gostr.drop (Z.to_nat c) s1) (p ++ [n])
        end
  end.

Definition parseIPv4 (s : string) : option (list Z) :=
  match parseIPv4_loop 4 0 s [] with
  | Some [a; b; c; d] => Some (IPv4 a b c d)
  | _ => None
  end.

(** [ip[i] = v]. *)
Definition set_at (ip : list Z) (i : Z) (v : Z) : list Z :=
  <[Z.to_nat i := v]> ip.

(** The loop of [parseIPv6]: hex numbers followed by colons.  It yields
    the bytes written, the index reached, the ellipsis position and what
    is left of the string. *)
Fixpoint parseIPv6_loop (fuel : nat) (s : string) (ip : list Z)
    (i ellipsis : Z) : option (list Z * Z * Z * string) :=
  match fuel with
  | O => Some (ip, i, ellipsis, s)
  | S f =>
      if negb (i <? IPv6len) then Some (ip, i, ellipsis, s)
      else
        let '(n, c, ok) := xtoi s in
        if negb ok || (65535 <? n) then None
        else if (c <? gostr.len s)
                && bool_decide (gostr.take 1 (gostr.drop (Z.to_nat c) s) = ".")
        then
          if (ellipsis <? 0) && negb (i =? IPv6len - IPv4len) then None
          else if IPv6len <? i + IPv4len then None
          else match parseIPv4 s with
               | None => None
               | Some ip4 =>
                   let ip := set_at ip i (at_ ip4 12) in
                   let ip := set_at ip (i + 1) (at_ ip4 13) in
                   let ip := set_at ip (i + 2) (at_ ip4 14) in
                   let ip := set_at ip (i + 3) (at_ ip4 15) in
                   Some (ip, i + IPv4len, ellipsis, "")
               end
        else
          let ip := set_at ip i (Z.land (Z.shiftr n 8) 255) in
          let ip := set_at ip (i + 1) (Z.land n 255) in
          let i := i + 2 in
          let s := gostr.drop (Z.to_nat c) s in
          match s with
          | EmptyString => Some (ip, i, ellipsis, s)
          | String ":" EmptyString => None
          | String ":" (String ":" s2) =>
              if 0 <=? ellipsis then None
              else match s2 with
                   | EmptyString => Some (ip, i, i, s2)
                   | _ => parseIPv6_loop f s2 ip i i
                   end
          | String ":" s1 => parseIPv6_loop f s1 ip i ellipsis
          | _ => None
          end
  end.

(** [parseIPv6(s)]. *)
Definition parseIPv6 (s : string) : option (list Z) :=
  let ip0 := repeat 0 16 in
  let start :=
    match s with
    | String ":" (String ":" s') => (0, s')
    | _ => (-1, s)
    end in
  let '(ellipsis, s) := start in
  if (0 <=? ellipsis) && (gostr.len s =? 0) then Some ip0
  else
    match parseIPv6_loop 9 s ip0 0 ellipsis with
    | None => None
    | Some (ip, i, ellipsis, s) =>
        if negb (gostr.len s =? 0) then None
        else if i <? IPv6len then
          if ellipsis <? 0 then None
          else
            let e := Z.to_nat ellipsis in
            let moved := firstn (Z.to_nat i - e) (skipn e ip) in
            Some (firstn e ip ++ repeat 0 (Z.to_nat (IPv6len - i)) ++ moved)
        else if 0 <=? ellipsis then None
        else Some ip
    end.

(** [net.ParseCIDR(s)]: the address and the network it lies in. *)
Definition ParseCIDR (s : string) : result (list Z * IPNet) :=
  let i := gostr.IndexByte s "/" in
  if i <? 0 then Err (ParseError "CIDR address" s)
  else
    let addr := gostr.take (Z.to_nat i) s in
    let mask := gostr.drop (Z.to_nat (i + 1)) s in
    let '(iplen, ip) :=
      match parseIPv4 addr with
      | Some ip => (IPv4len, Some ip)
      | None => (IPv6len, parseIPv6 addr)
      end in
    let '(n, j, ok) := dtoi mask in
    match ip with
    | Some ip =>
        if negb ok || negb (j =? gostr.len mask) || (n <? 0) || (8 * iplen <? n)
        then Err (ParseError "CIDR address" s)
        else
          let m := CIDRMask n (8 * iplen) in
          Ok (ip, {| IP := IP_Mask ip m; Mask := m |})
    | None => Err (ParseError "CIDR address" s)
    end.

End net.

(** ** Package encoding/base64: [StdEncoding], padded, not strict *)

Module base64.

Definition encodeStd : string :=
  "ABCDEFGHIJKLMNOPQRSTUVWXYZabcdefghijklmnopqrstuvwxyz0123456789+/".

Definition padChar : ascii := "="%char.

(** [enc.encode[i]] *)
Definition encode (i : Z) : ascii :=
  match String.get (Z.to_nat i) encodeStd with
  | Some c => c
  | None => "000"%char
  end.

(** [enc.decodeMap[c]]; [None] stands for the entry 0xff. *)
Definition decodeMap (c : ascii) : option Z :=
  let i := gostr.IndexByte encodeStd c in
  if i <? 0 then None else Some i.

Definition sextet (val : Z) (shift : Z) : ascii :=
  encode (Z.land (Z.shiftr val shift) 63).

(** [enc.EncodeToString(src)] *)
Fixpoint EncodeToString (src : list Z) : string :=
  match src with
  | [] => ""
  | [a] =>
      let val := Z.shiftl a 16 in
      String (sextet val 18) (String (sextet val 12)
        (String padChar (String padChar "")))
  | [a; b] =>
      let val := Z.lor (Z.shiftl a 16) (Z.shiftl b 8) in
      String (sextet val 18) (String (sextet val 12)
        (String (sextet val 6) (String padChar "")))
  | a :: b :: c :: rest =>
      let val := Z.lor (Z.lor (Z.shiftl a 16) (Z.shiftl b 8)) c in
      String (sextet val 18) (String (sextet val 12)
        (String (sextet val 6) (String (sextet val 0) (EncodeToString rest))))
  end.

Definition is_newline (c : ascii) : bool :=
  Ascii.eqb c "010"%char || Ascii.eqb c "013"%char.

(** The end of [decodeQuantum]: 4 sextets (missing ones are 0) give 3
    bytes, of which the first [dlen - 1] are written. *)
Definition assemble (dbuf : list Z) (dlen : nat) : list Z :=
  let d i := nth i dbuf 0 in
  let val := Z.lor (Z.lor (Z.lor (Z.shiftl (d 0%nat) 18) (Z.shiftl (d 1%nat) 12))
                      (Z.shiftl (d 2%nat) 6)) (d 3%nat) in
  firstn (dlen - 1)
    [Z.land (Z.shiftr val 16) 255; Z.land (Z.shiftr val 8) 255; Z.land val 255].

Fixpoint skip_newlines (s : string) (si : Z) : string * Z :=
  match s with
  | String c s' => if is_newline c then skip_newlines s' (si + 1) else (s, si)
  | EmptyString => (s, si)
  end.

(** [enc.decodeQuantum(dst, src, si)]: [s] is [src[si:]], [dbuf] the sextets
    read so far.  It yields what is left of the input, the new index, the
    bytes written and the error. *)
Fixpoint decodeQuantum (s : string) (si : Z) (dbuf : list Z)
  : string * Z * list Z * option error :=
  let j := length dbuf in
  if (4 <=? j)%nat then (s, si, assemble dbuf 4, None)
  else
    match s with
    | EmptyString =>
        if (j =? 0)%nat then (s, si, [], None)
        else (s, si, [], Some (CorruptInputError (si - Z.of_nat j)))
    | String c s' =>
        let si := si + 1 in
        match decodeMap c with
        | Some out => decodeQuantum s' si (dbuf ++ [out])
        | None =>
            if is_newline c then decodeQuantum s' si dbuf
            else if negb (Ascii.eqb c padChar)
            then (s', si, [], Some (CorruptInputError (si - 1)))
            else if (j <? 2)%nat
            then (s', si, [], Some (CorruptInputError (si - 1)))
            else
              let second :=
                if (j =? 2)%nat then
                  let '(s2, si2) := skip_newlines s' si in
                  match s2 with
                  | EmptyString => inr (s2, si2, CorruptInputError si2)
                  | String c2 s3 =>
                      if negb (Ascii.eqb c2 padChar)
                      then inr (s2, si2, CorruptInputError (si2 - 1))
                      else inl (s3, si2 + 1)
                  end
                else inl (s', si) in
              match second with
              | inr (s2, si2, e) => (s2, si2, [], Some e)
              | inl (s2, si2) =>
                  let '(s3, si3) := skip_newlines s2 si2 in
                  let err := match s3 with
                             | EmptyString => None
                             | String _ _ => Some (CorruptInputError si3)
                             end in
                  (s3, si3, assemble dbuf j, err)
              end
        end
    end.

(** The loop of [enc.Decode]. *)
Fixpoint Decode_loop (fuel : nat) (s : string) (si : Z) (dst : list Z)
  : list Z * option error :=
  match fuel with
  | O => (dst, None)
  | S f =>
      match s with
      | EmptyString => (dst, None)
      | String _ _ =>
          let '(s', si', out, err) := decodeQuantum s si [] in
          match err with
          | Some e => (dst ++ out, Some e)
          | None => Decode_loop f s' si' (dst ++ out)
          end
      end
  end.

(** [enc.DecodeString(s)]: the bytes decoded, and the error if any. *)
Definition DecodeString (s : string) : list Z * option error :=
  Decode_loop (S (String.length s)) s 0 [].

End base64.

(** ** Package wgtypes *)

Module wgtypes.

Definition KeyLen : nat := 32.

(** [wgtypes.Key] is [[32]byte]: a list of [KeyLen] bytes. *)
Definition is_Key (k : list Z) : Prop :=
  length k = KeyLen /\ Forall (fun b => 0 <= b < 256) k.

Definition zeroKey : list Z := repeat 0 KeyLen.

Record UDPAddr : Type := { UDP_IP : list Z; UDP_Port : Z }.

Record PeerConfig : Type := {
  PublicKey : list Z;
  Endpoint : option UDPAddr;
  AllowedIPs : list net.IPNet
}.

Record Config : Type := {
  PrivateKey : option (list Z);
  ListenPort : option Z;
  Peers : list PeerConfig
}.

End wgtypes.

(** Go's builtin [copy(dst, src)]: the first [min(len dst, len src)]
    elements of [dst] are overwritten. *)
Definition copy (dst src : list Z) : list Z :=
  firstn (length dst) src ++ skipn (length src) dst.

(** wg.go, lines 82-84. *)
Definition serializeKey (key : list Z) : string :=
  base64.EncodeToString key.

(** wg.go, lines 86-94: the key and the error returned. *)
Definition ParseKey (key : string) : list Z * option error :=
  let pkey := wgtypes.zeroKey in
  let '(pkeySlice, err) := base64.DecodeString key in
  match err with
  | Some e => (pkey, Some e)
  | None => (copy pkey pkeySlice, None)
  end.


(** ** Package netlink: the values wg.go exchanges with it *)

Module netlink.

(** A [netlink.Link], through its [Attrs()] and [Type()]. *)
Record Link : Type := { Name : string; Index : Z; LinkType : string }.

(** [netlink.Addr]; the embedded [*net.IPNet] is never nil in an address
    the library hands out or the program builds. *)
Record Addr : Type := { IPNet : net.IPNet; Label : string }.

(** [netlink.Route]; [Dst] is a [*net.IPNet], nil for [None]. *)
Record Route : Type := { LinkIndex : Z; Dst : option net.IPNet }.

#[global] Instance Link_eq_dec : EqDecision Link.
Proof. solve_decision. Defined.
#[global] Instance Addr_eq_dec : EqDecision Addr.
Proof. solve_decision. Defined.
#[global] Instance Route_eq_dec : EqDecision Route.
Proof. solve_decision. Defined.

(** [netlink.ParseIPNet(s)] *)
Definition ParseIPNet (s : string) : result net.IPNet :=
  match net.ParseCIDR s with
  | Err e => Err e
  | Ok (ip, ipNet) => Ok {| net.IP := ip; net.Mask := net.Mask ipNet |}
  end.

(** [strings.Split(s, " ")] *)
Fixpoint Split_space (s : string) (cur : string) : list string :=
  match s with
  | EmptyString => [cur]
  | String c s' =>
      if Ascii.eqb c " " then cur :: Split_space s' ""
      else Split_space s' (cur +:+ String c "")
  end.

(** [netlink.ParseAddr(s)] *)
Definition ParseAddr (s : string) : result Addr :=
  let parts := Split_space s "" in
  let '(s, label) :=
    match parts with
    | p0 :: p1 :: _ => (p0, p1)
    | _ => (s, "")
    end in
  match ParseIPNet s with
  | Err e => Err e
  | Ok m => Ok {| IPNet := m; Label := label |}
  end.

End netlink.

Import netlink.

(** ** The host: netlink, os/exec and wireguardctrl as wg.go calls them

    Every call takes the state of the host and gives it back with its
    answer.  [AddrDel] is part of netlink's interface although wg.go
    never calls it. *)
Class Host (W : Type) : Type := {
  LinkByName : string -> W -> result Link * W;
  LinkAdd : Link -> W -> result unit * W;
  LinkSetUp : Link -> W -> result unit * W;
  AddrList : Link -> Z -> W -> result (list Addr) * W;
  AddrAdd : Link -> Addr -> W -> result unit * W;
  AddrDel : Link -> Addr -> W -> result unit * W;
  RouteList : Link -> Z -> W -> result (list Route) * W;
  RouteAdd : Route -> W -> result unit * W;
  RouteDel : Route -> W -> result unit * W;
  exec_Run : list string -> W -> result unit * W;
  wireguardctrl_New : W -> result unit * W;
  ConfigureDevice : string -> wgtypes.Config -> W -> result unit * W
}.

(** Calls in sequence: the state is threaded, the first error returns. *)
Definition M (W A : Type) : Type := W -> result A * W.

Definition ret {W A} (a : A) : M W A := fun w => (Ok a, w).

Definition bind {W A B} (m : M W A) (f : A -> M W B) : M W B :=
  fun w =>
    match m w with
    | (Ok a, w') => f a w'
    | (Err e, w') => (Err e, w')
    end.

Notation "x <- m ;; k" := (bind m (fun x => k))
  (at level 100, m at next level, right associativity).
Notation "m ;;; k" := (bind m (fun _ => k))
  (at level 100, right associativity).

(** ** wg.go: the configuration *)

(** wg.go, lines 16-39.  [Address] is a [[]*net.IPNet] of non-nil
    pointers. *)
Record Config : Type := {
  wgConfig : wgtypes.Config;
  Address : list net.IPNet;
  DNS : list (list Z);
  MTU : Z;
  Table : Z;
  PreUp : string;
  PostUp : string;
  PreDown : string;
  PostDown : string;
  SaveConfig : bool
}.

Definition AF_INET : Z := 2.
Definition AF_INET6 : Z := 10.

(** ** wg.go: the reconcilers and Up *)

Section wgctl.

Context {W : Type} `{Host W}.

(** The order in which a [range] over a Go map visits its entries is not
    specified: it is a parameter, any rearrangement of the entries. *)
Variable range_order : list (string * Z) -> list (string * Z).

(** wg.go, lines 170-173. *)
Definition presentAddresses (addrs : list Addr) : gmap string Z :=
  foldl (fun m addr => <[net.IPNet_String (Some (IPNet addr)) := 1]> m) ∅ addrs.

(** wg.go, lines 175-190: the loop over [cfg.Address]. *)
Fixpoint syncAddress_desired (link : Link) (desired : list net.IPNet)
    (present : gmap string Z) : M W (gmap string Z) :=
  match desired with
  | [] => ret present
  | addr :: rest =>
      let key := net.IPNet_String (Some addr) in
      let was := present !! key in
      let present := <[key := 2]> present in
      match was with
      | Some _ => syncAddress_desired link rest present
      | None =>
          AddrAdd link {| IPNet := addr; Label := "" |} ;;;
          syncAddress_desired link rest present
      end
  end.

(** wg.go, lines 192-205: the loop over the map.  The call at line 199
    is [netlink.AddrAdd]. *)
Fixpoint syncAddress_extraneous (link : Link) (entries : list (string * Z))
  : M W unit :=
  match entries with
  | [] => ret tt
  | (addr, p) :: rest =>
      if p <? 2 then
        match ParseAddr addr with
        | Err err => fun w => (Err err, w)
        | Ok nlAddr =>
            AddrAdd link nlAddr ;;;
            syncAddress_extraneous link rest
        end
      else syncAddress_extraneous link rest
  end.

(** wg.go, lines 163-207. *)
Definition syncAddress (link : Link) (cfg : Config) : M W unit :=
  addrs <- AddrList link AF_INET ;;
  present <- syncAddress_desired link (Address cfg) (presentAddresses addrs) ;;
  syncAddress_extraneous link (range_order (map_to_list present)).

(** wg.go, lines 216-219. *)
Definition presentRoutes (routes : list Route) : gmap string Z :=
  foldl (fun m r => <[net.IPNet_String (Dst r) := 1]> m) ∅ routes.

(** wg.go, lines 222-237: the loop over one peer's [AllowedIPs]. *)
Fixpoint syncRoutes_allowed (link : Link) (allowed : list net.IPNet)
    (present : gmap string Z) : M W (gmap string Z) :=
  match allowed with
  | [] => ret present
  | rt :: rest =>
      let key := net.IPNet_String (Some rt) in
      let was := present !! key in
      let present := <[key := 2]> present in
      match was with
      | Some _ => syncRoutes_allowed link rest present
      | None =>
          RouteAdd {| LinkIndex := Index link; Dst := Some rt |} ;;;
          syncRoutes_allowed link rest present
      end
  end.

(** wg.go, lines 221-238: the loop over [cfg.Peers]. *)
Fixpoint syncRoutes_peers (link : Link) (peers : list wgtypes.PeerConfig)
    (present : gmap string Z) : M W (gmap string Z) :=
  match peers with
  | [] => ret present
  | peer :: rest =>
      present <- syncRoutes_allowed link (wgtypes.AllowedIPs peer) present ;;
      syncRoutes_peers link rest present
  end.

(** wg.go, lines 241-258: the loop over the map.  [net.ParseCIDR] comes
    before the test of the flag. *)
Fixpoint syncRoutes_extraneous (link : Link) (entries : list (string * Z))
  : M W unit :=
  match entries with
  | [] => ret tt
  | (rtStr, p) :: rest =>
      match net.ParseCIDR rtStr with
      | Err err => fun w => (Err err, w)
      | Ok (_, rt) =>
          if p <? 2 then
            RouteDel {| LinkIndex := Index link; Dst := Some rt |} ;;;
            syncRoutes_extraneous link rest
          else syncRoutes_extraneous link rest
      end
  end.

(** wg.go, lines 209-260. *)
Definition syncRoutes (link : Link) (cfg : Config) : M W unit :=
  routes <- RouteList link AF_INET ;;
  present <- syncRoutes_peers link (wgtypes.Peers (wgConfig cfg))
               (presentRoutes routes) ;;
  syncRoutes_extraneous link (range_order (map_to_list present)).

Definition is_LinkNotFoundError (e : error) : bool :=
  match e with LinkNotFoundError _ => true | _ => false end.

(** wg.go, lines 104-129: the link named [iface], created when there is
    none.  The result of [ip link add] is dropped (lines 121-122). *)
Definition Up_link (iface : string) : M W Link :=
  fun w =>
    match LinkByName iface w with
    | (Ok link, w) => (Ok link, w)
    | (Err err, w) =>
        if negb (is_LinkNotFoundError err) then (Err err, w)
        else
          let wgLink := {| Name := iface; Index := 0; LinkType := "wireguard" |} in
          match LinkAdd wgLink w with
          | (Err err, w) => (Err err, w)
          | (Ok _, w) =>
              let '(_, w) :=
                exec_Run ["ip"; "link"; "add"; "dev"; iface; "type"; "wireguard"] w in
              LinkByName iface w
          end
    end.

(** wg.go, lines 102-161. *)
Definition Up (cfg : Config) (iface : string) : M W unit :=
  link <- Up_link iface ;;
  LinkSetUp link ;;;
  wireguardctrl_New ;;;
  ConfigureDevice iface (wgConfig cfg) ;;;
  syncAddress link cfg ;;;
  syncRoutes link cfg ;;;
  ret tt.

End wgctl.

(** ** The calls a run makes *)

Inductive Call : Type :=
| CLinkByName (name : string)
| CLinkAdd (l : Link)
| Cexec_Run (argv : list string)
| CLinkSetUp (l : Link)
| Cwireguardctrl_New
| CConfigureDevice (name : string) (c : wgtypes.Config)
| CAddrList (l : Link) (family : Z)
| CAddrAdd (l : Link) (a : Addr)
| CAddrDel (l : Link) (a : Addr)
| CRouteList (l : Link) (family : Z)
| CRouteAdd (r : Route)
| CRouteDel (r : Route).

(** A call and the error it returned, if any. *)
Definition Event : Type := Call * option error.

Definition logged {W A} (c : Call) (op : W -> result A * W)
  : W * list Event -> result A * (W * list Event) :=
  fun '(w, tr) =>
    let '(r, w') := op w in (r, (w', tr ++ [(c, error_of r)])).

(** Any host, with every call written down in order. *)
#[global] Instance Traced (W : Type) `{Host W} : Host (W * list Event) := {
  LinkByName name := logged (CLinkByName name) (LinkByName name);
  LinkAdd l := logged (CLinkAdd l) (LinkAdd l);
  LinkSetUp l := logged (CLinkSetUp l) (LinkSetUp l);
  AddrList l f := logged (CAddrList l f) (AddrList l f);
  AddrAdd l a := logged (CAddrAdd l a) (AddrAdd l a);
  AddrDel l a := logged (CAddrDel l a) (AddrDel l a);
  RouteList l f := logged (CRouteList l f) (RouteList l f);
  RouteAdd r := logged (CRouteAdd r) (RouteAdd r);
  RouteDel r := logged (CRouteDel r) (RouteDel r);
  exec_Run argv := logged (Cexec_Run argv) (exec_Run argv);
  wireguardctrl_New := logged Cwireguardctrl_New wireguardctrl_New;
  ConfigureDevice name c := logged (CConfigureDevice name c) (ConfigureDevice name c)
}.

(** The events of a run started on [w] with nothing written down. *)
Definition trace {W A} (m : M (W * list Event) A) (w : W) : list Event :=
  snd (snd (m (w, []))).

Definition returned {W A} (m : M (W * list Event) A) (w : W) : result A :=
  fst (m (w, [])).


Definition is_AddrAdd (ev : Event) : bool :=
  match fst ev with CAddrAdd _ _ => true | _ => false end.
Definition is_AddrDel (ev : Event) : bool :=
  match fst ev with CAddrDel _ _ => true | _ => false end.
Definition is_RouteAdd (ev : Event) : bool :=
  match fst ev with CRouteAdd _ => true | _ => false end.
Definition is_RouteDel (ev : Event) : bool :=
  match fst ev with CRouteDel _ => true | _ => false end.

(** The five phases of Up, in the order of the source. *)
Definition phase (c : Call) : nat :=
  match c with
  | CLinkByName _ | CLinkAdd _ | Cexec_Run _ => 0
  | CLinkSetUp _ => 1
  | Cwireguardctrl_New | CConfigureDevice _ _ => 2
  | CAddrList _ _ | CAddrAdd _ _ | CAddrDel _ _ => 3
  | CRouteList _ _ | CRouteAdd _ | CRouteDel _ => 4
  end.

(** ** A reference kernel

    The kernel is the other side of the netlink calls and no part of the
    repository.  This instance of [Host] is one interface as rtnetlink
    serves it, and as section 6 of the spec describes the kernel network
    boundary: list, add and delete of addresses and routes, the lists by
    family.  An address or a route is held as netlink sends it: the
    address bytes in their short form and the prefix length.  A route of
    prefix length 0 is listed without destination.  Adding what is there
    fails with EEXIST (the duplicate-add errors of section 4.5), deleting
    what is not there fails.

    The model keeps the two lists apart and gives a route no scope: an
    [AddrAdd] does not make the connected route of the address, and a
    [RouteDel] finds every route that is listed, where Linux answers
    ESRCH to a delete that does not name the scope of a link-scope
    route.  A run that ends well on the model may therefore fail on
    Linux, while the EEXIST of the model is the answer of Linux.  The
    statements on the model are about the runs that end well, about the
    runs that fail with EEXIST, and about the addresses. *)

Module kernel.

Definition EEXIST : error := Errno 17.
Definition ENODEV : error := Errno 19.
Definition EINVAL : error := Errno 22.
Definition ESRCH : error := Errno 3.
Definition EADDRNOTAVAIL : error := Errno 99.

Record state : Type := {
  link : option Link;
  up : bool;
  device : option wgtypes.Config;
  addrs : list net.IPNet;
  routes : list net.IPNet
}.


(** What netlink puts in the message for a prefix: [IP.To4()] or the 16
    bytes, and the ones of [Mask.Size()]. *)
Definition prefix_of (n : net.IPNet) : option net.IPNet :=
  let ip := match net.To4 (net.IP n) with
            | Some p4 => Some p4
            | None => if net.blen (net.IP n) =? net.IPv6len
                      then Some (net.IP n) else None
            end in
  match ip with
  | None => None
  | Some ip =>
      let ones := fst (net.IPMask_Size (net.Mask n)) in
      if ones <=? 8 * net.blen ip
      then Some {| net.IP := ip; net.Mask := net.CIDRMask ones (8 * net.blen ip) |}
      else None
  end.

Definition family_of (n : net.IPNet) : Z :=
  if net.blen (net.IP n) =? net.IPv4len then AF_INET else AF_INET6.

(** The destination of a route in the list netlink gives: the message of
    a route of prefix length 0 (a default route) has no destination
    attribute, and its [Dst] stays nil. *)
Definition listed_dst (p : net.IPNet) : option net.IPNet :=
  if fst (net.IPMask_Size (net.Mask p)) =? 0 then None else Some p.

Definition in_family (family : Z) (n : net.IPNet) : bool :=
  (family =? 0) || (family =? family_of n).

(** The prefixes of one family ([family = 0]: of every family). *)
Definition listed (family : Z) (l : list net.IPNet) : list net.IPNet :=
  filter (fun p => in_family family p = true) l.

Definition set_link (l : option Link) (k : state) : state :=
  {| link := l; up := up k; device := device k; addrs := addrs k; routes := routes k |}.
Definition set_up (b : bool) (k : state) : state :=
  {| link := link k; up := b; device := device k; addrs := addrs k; routes := routes k |}.
Definition set_device (d : option wgtypes.Config) (k : state) : state :=
  {| link := link k; up := up k; device := d; addrs := addrs k; routes := routes k |}.
Definition set_addrs (a : list net.IPNet) (k : state) : state :=
  {| link := link k; up := up k; device := device k; addrs := a; routes := routes k |}.
Definition set_routes (r : list net.IPNet) (k : state) : state :=
  {| link := link k; up := up k; device := device k; addrs := addrs k; routes := r |}.

Definition has_link (name : string) (k : state) : option Link :=
  match link k with
  | Some l => if String.eqb (Name l) name then Some l else None
  | None => None
  end.

Definition add_prefix (dup : error) (n : net.IPNet) (l : list net.IPNet)
  : result (list net.IPNet) :=
  match prefix_of n with
  | None => Err EINVAL
  | Some p => if bool_decide (p ∈ l) then Err dup else Ok (l ++ [p])
  end.

Definition del_prefix (missing : error) (n : net.IPNet) (l : list net.IPNet)
  : result (list net.IPNet) :=
  match prefix_of n with
  | None => Err EINVAL
  | Some p =>
      if bool_decide (p ∈ l) then Ok (filter (fun q => q ≠ p) l) else Err missing
  end.

Definition lift_addrs (r : result (list net.IPNet)) (k : state)
  : result unit * state :=
  match r with Ok l => (Ok tt, set_addrs l k) | Err e => (Err e, k) end.

Definition lift_routes (r : result (list net.IPNet)) (k : state)
  : result unit * state :=
  match r with Ok l => (Ok tt, set_routes l k) | Err e => (Err e, k) end.

#[global] Instance host : Host state := {
  LinkByName name k :=
    match has_link name k with
    | Some l => (Ok l, k)
    | None => (Err (LinkNotFoundError "Link not found"), k)
    end;
  LinkAdd l k :=
    match link k with
    | Some _ => (Err EEXIST, k)
    | None =>
        (Ok tt, set_link (Some {| Name := Name l; Index := 1; LinkType := LinkType l |}) k)
    end;
  LinkSetUp l k :=
    match link k with
    | Some _ => (Ok tt, set_up true k)
    | None => (Err ENODEV, k)
    end;
  AddrList l family k :=
    (Ok (map (fun p => {| IPNet := p; Label := "" |})
           (listed family (addrs k))), k);
  AddrAdd l a k := lift_addrs (add_prefix EEXIST (IPNet a) (addrs k)) k;
  AddrDel l a k := lift_addrs (del_prefix EADDRNOTAVAIL (IPNet a) (addrs k)) k;
  RouteList l family k :=
    (Ok (map (fun p => {| LinkIndex := Index l; Dst := listed_dst p |})
           (listed family (routes k))), k);
  RouteAdd r k :=
    match Dst r with
    | None => (Err EINVAL, k)
    | Some d => lift_routes (add_prefix EEXIST d (routes k)) k
    end;
  RouteDel r k :=
    match Dst r with
    | None => (Err EINVAL, k)
    | Some d => lift_routes (del_prefix ESRCH d (routes k)) k
    end;
  exec_Run argv k :=
    match link k with
    | Some _ => (Err (ErrorString "exit status 2"), k)
    | None =>
        (Ok tt, set_link (Some {| Name := nth 4 argv ""; Index := 1;
                                  LinkType := nth 6 argv "" |}) k)
    end;
  wireguardctrl_New k := (Ok tt, k);
  ConfigureDevice name c k :=
    match has_link name k with
    | Some _ => (Ok tt, set_device (Some c) k)
    | None => (Err ENODEV, k)
    end
}.

(** The string of a prefix the kernel holds parses back to it: as an
    address ([ParseAddr], then what netlink sends), and as a route
    ([ParseCIDR]'s network). *)
Definition addr_parses_back (a : net.IPNet) : bool :=
  match ParseAddr (net.IPNet_String (Some a)) with
  | Ok a' => bool_decide (prefix_of (IPNet a') = Some a)
  | Err _ => false
  end.

Definition route_parses_back (r : net.IPNet) : bool :=
  match net.ParseCIDR (net.IPNet_String (Some r)) with
  | Ok (_, rt) => bool_decide (prefix_of rt = Some r)
  | Err _ => false
  end.

Definition is_v4 (n : net.IPNet) : bool := in_family AF_INET n.

(** The IPv4 addresses and routes of the state are well formed: what is
    listed with a prefix parses back. *)
Definition wf_addrs (k : state) : bool :=
  forallb addr_parses_back (listed AF_INET (addrs k)).

Definition wf_routes (k : state) : bool :=
  forallb (fun r => match listed_dst r with
                    | Some d => route_parses_back d
                    | None => true
                    end)
    (listed AF_INET (routes k)).

Definition wf (k : state) : bool := wf_addrs k && wf_routes k.

(** A prefix that goes to the kernel as an IPv4 prefix and then is listed
    under the string it has in the configuration: the address in 4 or in
    16 bytes, the mask a 4-byte CIDR mask. *)
Definition ipv4_prefix (d : net.IPNet) : bool :=
  match prefix_of d with
  | Some p =>
      is_v4 p
      && String.eqb (net.IPNet_String (Some p)) (net.IPNet_String (Some d))
  | None => false
  end.

(** A route the kernel lists with its destination once it is added: any
    but a default route. *)
Definition listed_with_dst (d : net.IPNet) : bool :=
  match prefix_of d with
  | Some p => bool_decide (listed_dst p = Some p)
  | None => false
  end.

End kernel.

(** ** Package text/template: the lexer and the parser (parse/lex.go,
    parse/parse.go), for the items wgtypeTemplateSpec is written with:
    text, delimiters and trim markers, keywords, fields, variables,
    identifiers, quoted strings, pipes, declarations.  Numbers, character
    constants, raw strings, parentheses, comments and the define, block
    and template actions are left out: the lexer stops on them with an
    error item of its own. *)

Module template.

Inductive item : Type :=
| itemError (msg : string)
| itemEOF
| itemText (val : string)
| itemLeftDelim
| itemRightDelim
| itemSpace
| itemAssign
| itemDeclare
| itemPipe
| itemChar (val : string)
| itemField (name : string)
| itemVariable (name : string)
| itemIdentifier (name : string)
| itemString (quoted : string)
| itemBool (val : string)
| itemDot
| itemNil
| itemIf
| itemElse
| itemEnd
| itemRange
| itemWith.

Definition isSpace (c : ascii) : bool :=
  Ascii.eqb c " " || Ascii.eqb c "009".
Definition isEndOfLine (c : ascii) : bool :=
  Ascii.eqb c "013" || Ascii.eqb c "010".
Definition isTrimmed (c : ascii) : bool := isSpace c || isEndOfLine c.

Definition isAlphaNumeric (c : ascii) : bool :=
  let k := gostr.code c in
  (k =? 95) || ((48 <=? k) && (k <=? 57))
  || ((65 <=? k) && (k <=? 90)) || ((97 <=? k) && (k <=? 122)).

Fixpoint span (p : ascii -> bool) (s : string) : string * string :=
  match s with
  | String c s' =>
      if p c then let '(a, b) := span p s' in (String c a, b) else ("", s)
  | EmptyString => ("", "")
  end.

Definition trim_left (s : string) : string := snd (span isTrimmed s).

Fixpoint trim_right (s : string) : string :=
  match s with
  | EmptyString => ""
  | String c s' =>
      match trim_right s' with
      | EmptyString => if isTrimmed c then "" else String c ""
      | t => String c t
      end
  end.

Definition atTerminator (s : string) : bool :=
  match s with
  | EmptyString => true
  | String c _ =>
      isSpace c || isEndOfLine c
      || bool_decide (c ∈ ["."; ","; "|"; ":"; ")"; "("; "}"]%char)
  end.

(** The scan of a quoted string, from after the opening quote: the text
    between the quotes and what follows the closing one. *)
Fixpoint lexQuote (s : string) : option (string * string) :=
  match s with
  | EmptyString => None
  | String c s' =>
      if Ascii.eqb c "010" then None
      else if Ascii.eqb c (ascii_of_nat 34) then Some ("", s')
      else if Ascii.eqb c "\" then
        match s' with
        | EmptyString => None
        | String c2 s2 =>
            if Ascii.eqb c2 "010" then None
            else match lexQuote s2 with
                 | Some (q, r) => Some (String c (String c2 q), r)
                 | None => None
                 end
        end
      else match lexQuote s' with
           | Some (q, r) => Some (String c q, r)
           | None => None
           end
  end.

Definition word_item (word : string) : item :=
  if String.eqb word "else" then itemElse
  else if String.eqb word "end" then itemEnd
  else if String.eqb word "if" then itemIf
  else if String.eqb word "range" then itemRange
  else if String.eqb word "nil" then itemNil
  else if String.eqb word "with" then itemWith
  else if String.eqb word "true" || String.eqb word "false" then itemBool word
  else itemIdentifier word.

Definition not_modelled (what : string) : item :=
  itemError ("not modelled: " +:+ what).

(** [lexText] ([inside = false]) and [lexInsideAction] ([inside = true])
    with the states they hand over to. *)
Fixpoint lex (fuel : nat) (inside : bool) (s : string) : list item :=
  match fuel with
  | O => [itemError "out of fuel"]
  | S f =>
      if negb inside then
        match String.index 0 "{{" s with
        | None => (if bool_decide (s = "") then [] else [itemText s]) ++ [itemEOF]
        | Some x =>
            let text := gostr.take x s in
            let rest := gostr.drop (x + 2) s in
            let trim := String.prefix "- " rest in
            let text := if trim then trim_right text else text in
            let rest := if trim then gostr.drop 2 rest else rest in
            (if bool_decide (text = "") then [] else [itemText text]) ++
            (if String.prefix "/*" rest then [not_modelled "comment"]
             else itemLeftDelim :: lex f true rest)
        end
      else if String.prefix " -}}" s
      then itemRightDelim :: lex f false (trim_left (gostr.drop 4 s))
      else if String.prefix "}}" s
      then itemRightDelim :: lex f false (gostr.drop 2 s)
      else
        match s with
        | EmptyString => [itemError "unclosed action"]
        | String c s' =>
            if isEndOfLine c then [itemError "unclosed action"]
            else if isSpace c then itemSpace :: lex f true (snd (span isSpace s))
            else if Ascii.eqb c "=" then itemAssign :: lex f true s'
            else if Ascii.eqb c ":" then
              match s' with
              | String "=" s2 => itemDeclare :: lex f true s2
              | _ => [itemError "expected :="]
              end
            else if Ascii.eqb c "|" then itemPipe :: lex f true s'
            else if Ascii.eqb c (ascii_of_nat 34) then
              match lexQuote s' with
              | Some (q, r) => itemString q :: lex f true r
              | None => [itemError "unterminated quoted string"]
              end
            else if Ascii.eqb c "$" then
              let '(name, r) := span isAlphaNumeric s' in
              if atTerminator r then itemVariable (String c name) :: lex f true r
              else [itemError "bad character"]
            else if Ascii.eqb c "." then
              if atTerminator s' then itemDot :: lex f true s'
              else if match s' with
                      | String d _ => net.is_digit d
                      | EmptyString => false
                      end
              then [not_modelled "number"]
              else
                let '(name, r) := span isAlphaNumeric s' in
                if atTerminator r then itemField (String c name) :: lex f true r
                else [itemError "bad character"]
            else if Ascii.eqb c "+" || Ascii.eqb c "-" || net.is_digit c
            then [not_modelled "number"]
            else if isAlphaNumeric c then
              let '(word, r) := span isAlphaNumeric s in
              if atTerminator r then word_item word :: lex f true r
              else [itemError "bad character"]
            else if Ascii.eqb c "(" || Ascii.eqb c ")" then [not_modelled "parenthesis"]
            else if Ascii.eqb c "'" || Ascii.eqb c "`" then [not_modelled "quote"]
            else if (gostr.code c <? 128) && (32 <=? gostr.code c)
            then itemChar (String c "") :: lex f true s'
            else [itemError "unrecognized character in action"]
        end
  end.

Definition lexer (input : string) : list item :=
  lex (S (String.length input)) false input.

(** The parse tree. *)
Inductive Arg : Type :=
| FieldNode (names : list string)
| VariableNode (names : list string)
| DotNode
| NilNode
| IdentifierNode (name : string)
| StringNode (text : string)
| BoolNode (val : string).

Record PipeNode : Type := {
  Decl : list string;
  IsAssign : bool;
  Cmds : list (list Arg)
}.

Inductive Node : Type :=
| TextNode (text : string)
| ActionNode (pipe : PipeNode)
| IfNode (pipe : PipeNode) (list_ else_ : list Node)
| RangeNode (pipe : PipeNode) (list_ else_ : list Node)
| WithNode (pipe : PipeNode) (list_ else_ : list Node).

Definition quote (s : string) : string := gostr.dquote +:+ s +:+ gostr.dquote.

(** [item.String()], for the error messages. *)
Definition item_String (i : item) : string :=
  match i with
  | itemError msg => msg
  | itemEOF => "EOF"
  | itemText v => quote v
  | itemLeftDelim => quote "{{"
  | itemRightDelim => quote "}}"
  | itemSpace => quote " "
  | itemAssign => quote "="
  | itemDeclare => quote ":="
  | itemPipe => quote "|"
  | itemChar v | itemField v | itemVariable v | itemIdentifier v | itemBool v => quote v
  | itemString q => quote q
  | itemDot => "<.>"
  | itemNil => "<nil>"
  | itemIf => "<if>"
  | itemElse => "<else>"
  | itemEnd => "<end>"
  | itemRange => "<range>"
  | itemWith => "<with>"
  end.

Definition errorf {A} (msg : string) : result A := Err (TemplateError msg).

Definition unexpected {A} (token : item) (context : string) : result A :=
  errorf ("unexpected " +:+ item_String token +:+ " in " +:+ context).

(** [t.nextNonSpace()] and [t.peekNonSpace()] look past the spaces. *)
Fixpoint skipSpace (ts : list item) : list item :=
  match ts with
  | itemSpace :: r => skipSpace r
  | _ => ts
  end.

Definition builtins : list string :=
  ["and"; "call"; "html"; "index"; "js"; "len"; "not"; "or"; "print";
   "printf"; "println"; "urlquery"; "eq"; "ge"; "gt"; "le"; "lt"; "ne"].

(** [strconv.Unquote] of a double-quoted string, for the escapes n, t, r,
    backslash and double quote. *)
Fixpoint Unquote (q : string) : option string :=
  match q with
  | EmptyString => Some ""
  | String "\" (String c r) =>
      let e := if Ascii.eqb c "n" then Some "010"%char
               else if Ascii.eqb c "t" then Some "009"%char
               else if Ascii.eqb c "r" then Some "013"%char
               else if Ascii.eqb c "\" then Some "\"%char
               else if Ascii.eqb c (ascii_of_nat 34) then Some (ascii_of_nat 34)
               else None in
      match e, Unquote r with
      | Some e, Some u => Some (String e u)
      | _, _ => None
      end
  | String c r =>
      match Unquote r with Some u => Some (String c u) | None => None end
  end.

Section parser.

(** The names given to [Funcs] before [Parse]. *)
Variable funcs : list string.

Definition hasFunction (name : string) : bool :=
  bool_decide (name ∈ funcs) || bool_decide (name ∈ builtins).

(** [t.term()]: [None] when the next item starts no term. *)
Definition term (ts : list item) (vars : list string)
  : result (option Arg * list item) :=
  match skipSpace ts with
  | itemError msg :: _ => errorf msg
  | itemIdentifier name :: r =>
      if hasFunction name then Ok (Some (IdentifierNode name), r)
      else errorf ("function " +:+ quote name +:+ " not defined")
  | itemDot :: r => Ok (Some DotNode, r)
  | itemNil :: r => Ok (Some NilNode, r)
  | itemVariable name :: r =>
      if bool_decide (name ∈ vars) then Ok (Some (VariableNode [name]), r)
      else errorf ("undefined variable " +:+ quote name)
  | itemField name :: r => Ok (Some (FieldNode [name]), r)
  | itemBool v :: r => Ok (Some (BoolNode v), r)
  | itemString q :: r =>
      match Unquote q with
      | Some u => Ok (Some (StringNode u), r)
      | None => errorf "invalid syntax"
      end
  | r => Ok (None, r)
  end.

Fixpoint fields (ts : list item) : list string * list item :=
  match ts with
  | itemField name :: r => let '(ns, r') := fields r in (name :: ns, r')
  | _ => ([], ts)
  end.

(** [t.operand()]: a term and the fields chained to it. *)
Definition operand (ts : list item) (vars : list string)
  : result (option Arg * list item) :=
  match term ts vars with
  | Err e => Err e
  | Ok (None, r) => Ok (None, r)
  | Ok (Some node, r) =>
      match fields r with
      | ([], _) => Ok (Some node, r)
      | (ns, r') =>
          match node with
          | FieldNode n0 => Ok (Some (FieldNode (n0 ++ ns)), r')
          | VariableNode n0 => Ok (Some (VariableNode (n0 ++ ns)), r')
          | IdentifierNode _ => errorf "not modelled: chain"
          | _ => errorf "unexpected . after term"
          end
      end
  end.

(** [t.command()]: operands up to a pipe or the right delimiter. *)
Fixpoint command (fuel : nat) (ts : list item) (vars : list string)
    (args : list Arg) : result (list Arg * list item) :=
  match fuel with
  | O => errorf "out of fuel"
  | S f =>
      match operand ts vars with
      | Err e => Err e
      | Ok (a, r) =>
          let args := match a with Some a => args ++ [a] | None => args end in
          let done r := if bool_decide (args = []) then errorf "empty command"
                        else Ok (args, r) in
          match r with
          | itemSpace :: r' => command f r' vars args
          | itemError msg :: _ => errorf msg
          | itemRightDelim :: _ => done r
          | itemPipe :: r' => done r'
          | token :: _ =>
              errorf ("unexpected " +:+ item_String token +:+ " in operand")
          | [] => errorf "unexpected EOF in operand"
          end
      end
  end.

(** The declarations a pipeline starts with. *)
Fixpoint declarations (fuel : nat) (context : string) (ts : list item)
    (vars decl : list string) (isDecl : bool)
  : result (list item * list string * list string * bool) :=
  match fuel with
  | O => errorf "out of fuel"
  | S f =>
      match skipSpace ts with
      | itemVariable v :: after =>
          match skipSpace after with
          | itemAssign :: r => Ok (r, vars ++ [v], decl ++ [v], isDecl)
          | itemDeclare :: r => Ok (r, vars ++ [v], decl ++ [v], true)
          | itemChar "," :: r =>
              if String.eqb context "range" && (length (decl ++ [v]) <? 2)%nat
              then declarations f context r (vars ++ [v]) (decl ++ [v]) isDecl
              else errorf ("too many declarations in " +:+ context)
          | _ => Ok (itemVariable v :: after, vars, decl, isDecl)
          end
      | r => Ok (r, vars, decl, isDecl)
      end
  end.

Definition not_executable (cmd : list Arg) : bool :=
  match cmd with
  | (BoolNode _ | DotNode | NilNode | StringNode _) :: _ => true
  | _ => false
  end.

(** [t.checkPipeline(pipe, context)] *)
Definition checkPipeline (pipe : PipeNode) (context : string) : result PipeNode :=
  match Cmds pipe with
  | [] => errorf ("missing value for " +:+ context)
  | _ :: later =>
      if existsb not_executable later
      then errorf "non executable command in pipeline"
      else Ok pipe
  end.

Fixpoint commands (fuel : nat) (context : string) (ts : list item)
    (vars : list string) (pipe : PipeNode) : result (PipeNode * list item) :=
  match fuel with
  | O => errorf "out of fuel"
  | S f =>
      match skipSpace ts with
      | itemRightDelim :: r =>
          match checkPipeline pipe context with
          | Ok pipe => Ok (pipe, r)
          | Err e => Err e
          end
      | ((itemBool _ | itemDot | itemField _ | itemIdentifier _ | itemNil
          | itemString _ | itemVariable _) :: _) as r =>
          match command (S (length r)) r vars [] with
          | Err e => Err e
          | Ok (cmd, r') =>
              commands f context r' vars
                {| Decl := Decl pipe; IsAssign := IsAssign pipe;
                   Cmds := Cmds pipe ++ [cmd] |}
          end
      | token :: _ => unexpected token context
      | [] => unexpected itemEOF context
      end
  end.

(** [t.pipeline(context)]: the pipeline, the items left and the
    variables in scope after it. *)
Definition pipeline (context : string) (ts : list item) (vars : list string)
  : result (PipeNode * list item * list string) :=
  match declarations 3 context ts vars [] false with
  | Err e => Err e
  | Ok (r, vars, decl, isDecl) =>
      match commands (S (length r)) context r vars
              {| Decl := decl; IsAssign := negb isDecl; Cmds := [] |} with
      | Err e => Err e
      | Ok (pipe, r') => Ok (pipe, r', vars)
      end
  end.

Inductive parsed : Type :=
| parsedNode (n : Node)
| parsedEnd
| parsedElse.

Definition expectRightDelim (context : string) (ts : list item)
  : result (list item) :=
  match skipSpace ts with
  | itemRightDelim :: r => Ok r
  | token :: _ => unexpected token context
  | [] => unexpected itemEOF context
  end.

(** [t.textOrAction()], [t.action()], [t.parseControl()] and
    [t.itemList()]. *)
Fixpoint textOrAction (fuel : nat) (ts : list item) (vars : list string)
  : result (parsed * list item * list string) :=
  match fuel with
  | O => errorf "out of fuel"
  | S f =>
      match skipSpace ts with
      | itemText text :: r => Ok (parsedNode (TextNode text), r, vars)
      | itemLeftDelim :: r =>
          match skipSpace r with
          | itemElse :: r' =>
              match skipSpace r' with
              | itemIf :: _ => Ok (parsedElse, r', vars)
              | _ =>
                  match expectRightDelim "else" r' with
                  | Ok r2 => Ok (parsedElse, r2, vars)
                  | Err e => Err e
                  end
              end
          | itemEnd :: r' =>
              match expectRightDelim "end" r' with
              | Ok r2 => Ok (parsedEnd, r2, vars)
              | Err e => Err e
              end
          | itemIf :: r' => parseControl f true "if" IfNode r' vars
          | itemRange :: r' => parseControl f false "range" RangeNode r' vars
          | itemWith :: r' => parseControl f false "with" WithNode r' vars
          | _ =>
              match pipeline "command" r vars with
              | Ok (pipe, r', vars') => Ok (parsedNode (ActionNode pipe), r', vars')
              | Err e => Err e
              end
          end
      | token :: _ => unexpected token "input"
      | [] => unexpected itemEOF "input"
      end
  end

with parseControl (fuel : nat) (allowElseIf : bool) (context : string)
    (mk : PipeNode -> list Node -> list Node -> Node)
    (ts : list item) (vars : list string)
  : result (parsed * list item * list string) :=
  match fuel with
  | O => errorf "out of fuel"
  | S f =>
      match pipeline context ts vars with
      | Err e => Err e
      | Ok (pipe, r, vars1) =>
          match itemList f r vars1 [] with
          | Err e => Err e
          | Ok (list_, parsedEnd, r1) =>
              Ok (parsedNode (mk pipe list_ []), r1, vars)
          | Ok (list_, _, r1) =>
              match (if allowElseIf then skipSpace r1 else []) with
              | itemIf :: r2 =>
                  match parseControl f true "if" IfNode r2 vars1 with
                  | Ok (parsedNode n, r3, _) =>
                      Ok (parsedNode (mk pipe list_ [n]), r3, vars)
                  | Ok (_, _, _) => errorf "expected end"
                  | Err e => Err e
                  end
              | _ =>
                  match itemList f r1 vars1 [] with
                  | Err e => Err e
                  | Ok (else_, parsedEnd, r2) =>
                      Ok (parsedNode (mk pipe list_ else_), r2, vars)
                  | Ok (_, _, _) => errorf "expected end; found {{else}}"
                  end
              end
          end
      end
  end

with itemList (fuel : nat) (ts : list item) (vars : list string)
    (acc : list Node) : result (list Node * parsed * list item) :=
  match fuel with
  | O => errorf "out of fuel"
  | S f =>
      match skipSpace ts with
      | itemEOF :: _ => errorf "unexpected EOF"
      | _ =>
          match textOrAction f ts vars with
          | Err e => Err e
          | Ok (parsedNode n, r, vars') => itemList f r vars' (acc ++ [n])
          | Ok (stop, r, _) => Ok (acc, stop, r)
          end
      end
  end.

(** [t.parse()]: the top level. *)
Fixpoint parse_top (fuel : nat) (ts : list item) (vars : list string)
    (acc : list Node) : result (list Node) :=
  match fuel with
  | O => errorf "out of fuel"
  | S f =>
      match ts with
      | itemEOF :: _ => Ok acc
      | _ =>
          match textOrAction (S (length ts)) ts vars with
          | Err e => Err e
          | Ok (parsedNode n, r, vars') => parse_top f r vars' (acc ++ [n])
          | Ok (parsedEnd, _, _) => errorf "unexpected {{end}}"
          | Ok (parsedElse, _, _) => errorf "unexpected {{else}}"
          end
      end
  end.

(** [template.New(name).Funcs(funcs).Parse(text)] *)
Definition Parse (text : string) : result (list Node) :=
  let ts := lexer text in
  parse_top (S (length ts)) ts ["$"] [].

End parser.

End template.

(** ** wg.go: the template and the rendering *)

Definition lines (l : list string) : string :=
  fold_right (fun a b => a +:+ String "010" b) "" l.

(** The action [{{ "\n" }}] of lines 65-72 and 78. *)
Definition nl : string :=
  "{{ " +:+ gostr.dquote +:+ "\n" +:+ gostr.dquote +:+ " }}".

(** wg.go, lines 57-80. *)
Definition wgtypeTemplateSpec : string := lines [
  "[Interface]";
  "{{- range := .Address }}";
  "Address = {{ . }}";
  "{{ end }}";
  "{{- range := .DNS }}";
  "DNS = {{ . }}";
  "{{ end }}";
  "PrivateKey = {{ .PrivateKey | wgKey }}";
  "{{- if .ListenPort }}" +:+ nl +:+ "ListenPort = {{ .ListenPort }}{{ end }}";
  "{{- if .MTU }}" +:+ nl +:+ "MTU = {{ .MTU }}{{ end }}";
  "{{- if .Table }}" +:+ nl +:+ "Table = {{ .Table }}{{ end }}";
  "{{- if .PreUp }}" +:+ nl +:+ "PreUp = {{ .PreUp }}{{ end }}";
  "{{- if .PostUp }}" +:+ nl +:+ "Table = {{ .Table }}{{ end }}";
  "{{- if .PreDown }}" +:+ nl +:+ "PreDown = {{ .PreDown }}{{ end }}";
  "{{- if .PostDown }}" +:+ nl +:+ "PostDown = {{ .PostDown }}{{ end }}";
  "{{- if .SaveConfig }}" +:+ nl +:+ "SaveConfig = {{ .SaveConfig }}{{ end }}";
  "";
  "{{- range .Peers }}";
  "[Peer]";
  "PublicKey = {{ .PublicKey | wgKey }}";
  "AllowedIps = {{ range $i, $el := .AllowedIPs }}{{if $i}}, {{ end }}{{ $el }}{{ end }}";
  "{{- if .Endpoint }}" +:+ nl +:+ "Endpoint = {{ .Endpoint }}{{ end }}";
  "{{- end }}"
].

(** The same text with [range .Address] and [range .DNS] in the place of
    the two actions that have [:=] and no variable. *)
Definition repairedTemplateSpec : string := lines [
  "[Interface]";
  "{{- range .Address }}";
  "Address = {{ . }}";
  "{{ end }}";
  "{{- range .DNS }}";
  "DNS = {{ . }}";
  "{{ end }}";
  "PrivateKey = {{ .PrivateKey | wgKey }}";
  "{{- if .ListenPort }}" +:+ nl +:+ "ListenPort = {{ .ListenPort }}{{ end }}";
  "{{- if .MTU }}" +:+ nl +:+ "MTU = {{ .MTU }}{{ end }}";
  "{{- if .Table }}" +:+ nl +:+ "Table = {{ .Table }}{{ end }}";
  "{{- if .PreUp }}" +:+ nl +:+ "PreUp = {{ .PreUp }}{{ end }}";
  "{{- if .PostUp }}" +:+ nl +:+ "Table = {{ .Table }}{{ end }}";
  "{{- if .PreDown }}" +:+ nl +:+ "PreDown = {{ .PreDown }}{{ end }}";
  "{{- if .PostDown }}" +:+ nl +:+ "PostDown = {{ .PostDown }}{{ end }}";
  "{{- if .SaveConfig }}" +:+ nl +:+ "SaveConfig = {{ .SaveConfig }}{{ end }}";
  "";
  "{{- range .Peers }}";
  "[Peer]";
  "PublicKey = {{ .PublicKey | wgKey }}";
  "AllowedIps = {{ range $i, $el := .AllowedIPs }}{{if $i}}, {{ end }}{{ $el }}{{ end }}";
  "{{- if .Endpoint }}" +:+ nl +:+ "Endpoint = {{ .Endpoint }}{{ end }}";
  "{{- end }}"
].

(** A package-level variable after the initialisation of the package:
    its value, or the panic that ended the initialisation (and with it
    the program). *)
Inductive initialised (A : Type) : Type :=
| Value (a : A)
| InitPanic (e : error).
Arguments Value {A} a.
Arguments InitPanic {A} e.

(** What a call does: it returns, or the goroutine panics. *)
Inductive outcome (A : Type) : Type :=
| Returns (a : A)
| Panics (e : error).
Arguments Returns {A} a.
Arguments Panics {A} e.

(** [template.Must] *)
Definition Must {A} (r : result A) : initialised A :=
  match r with Ok t => Value t | Err e => InitPanic e end.

(** wg.go, lines 96-100. *)
Definition cfgTemplate : initialised (list template.Node) :=
  Must (template.Parse ["wgKey"] wgtypeTemplateSpec).

Section render.

(** [Template.Execute], a parameter: the text a parsed template gives
    for a configuration, or the error. *)
Variable Execute : list template.Node -> Config -> result string.

(** wg.go, lines 49-55. *)
Definition MarshalText (cfg : Config) : outcome (result string) :=
  match cfgTemplate with
  | InitPanic e => Panics e
  | Value t => Returns (Execute t cfg)
  end.

(** wg.go, lines 41-47. *)
Definition Config_String (cfg : Config) : outcome string :=
  match MarshalText cfg with
  | Panics e => Panics e
  | Returns (Err err) => Panics err
  | Returns (Ok b) => Returns b
  end.

End render.

(** ** Values for the scenarios *)

(** The IPv4 prefix [a.b.c.d/l]. *)
Definition v4 (a b c d l : Z) : net.IPNet :=
  {| net.IP := [a; b; c; d]; net.Mask := net.CIDRMask l 32 |}.


Definition wg0 : Link := {| Name := "wg0"; Index := 1; LinkType := "wireguard" |}.

Definition noPeers : wgtypes.Config :=
  {| wgtypes.PrivateKey := None; wgtypes.ListenPort := None; wgtypes.Peers := [] |}.

Definition peer (allowed : list net.IPNet) : wgtypes.PeerConfig :=
  {| wgtypes.PublicKey := wgtypes.zeroKey; wgtypes.Endpoint := None;
     wgtypes.AllowedIPs := allowed |}.

Definition config (address : list net.IPNet) (peers : list wgtypes.PeerConfig)
  : Config :=
  {| wgConfig := {| wgtypes.PrivateKey := None; wgtypes.ListenPort := None;
                    wgtypes.Peers := peers |};
     Address := address; DNS := []; MTU := 0; Table := 0;
     PreUp := ""; PostUp := ""; PreDown := ""; PostDown := "";
     SaveConfig := false |}.

(** The kernel with the interface wg0 up and the given prefixes. *)
Definition kernel_with (addrs routes : list net.IPNet) : kernel.state :=
  {| kernel.link := Some wg0; kernel.up := true; kernel.device := None;
     kernel.addrs := addrs; kernel.routes := routes |}.

Definition id_order (l : list (string * Z)) : list (string * Z) := l.


(** [cfg] with another list of addresses. *)
Definition with_Address (cfg : Config) (address : list net.IPNet) : Config :=
  {| wgConfig := wgConfig cfg; Address := address; DNS := DNS cfg;
     MTU := MTU cfg; Table := Table cfg; PreUp := PreUp cfg;
     PostUp := PostUp cfg; PreDown := PreDown cfg; PostDown := PostDown cfg;
     SaveConfig := SaveConfig cfg |}.

(** The canonical string an [AddrAdd] is made for. *)
Definition added_key (ev : Event) : option string :=
  match fst ev with
  | CAddrAdd _ a => Some (net.IPNet_String (Some (IPNet a)))
  | _ => None
  end.

(** The number of [AddrAdd] calls among [evs] for the canonical string [s]. *)
Definition adds_for (s : string) (evs : list Event) : nat :=
  length (List.filter (fun ev => bool_decide (added_key ev = Some s)) evs).

(** The entries of the map the removal loops act on. *)
Definition flagged_extraneous (entries : list (string * Z))
  : list (string * Z) :=
  List.filter (fun e => snd e <? 2) entries.

(** The calls of a run come in the order of the phases. *)
Definition phases_sorted (evs : list Event) : Prop :=
  StronglySorted (fun a b => (phase (fst a) <= phase (fst b))%nat) evs.

(** The two failures Up passes over: the first lookup of the link not
    finding it (lines 106-110), and the result of [ip link add] (lines
    121-122). *)
Definition passed_over (i : nat) (c : Call) (e : error) : Prop :=
  (i = 0%nat /\ (exists name, c = CLinkByName name)
   /\ is_LinkNotFoundError e = true)
  \/ (exists argv, c = Cexec_Run argv).

(** The runs of lines 104-129, by the calls made and the result. *)
Inductive link_run (iface : string) : result Link -> list Event -> Prop :=
| link_found (l : Link) :
    link_run iface (Ok l) [(CLinkByName iface, None)]
| link_unreadable (e : error) :
    is_LinkNotFoundError e = false ->
    link_run iface (Err e) [(CLinkByName iface, Some e)]
| link_not_added (e0 e : error) (l : Link) :
    is_LinkNotFoundError e0 = true ->
    link_run iface (Err e)
      [(CLinkByName iface, Some e0); (CLinkAdd l, Some e)]
| link_added (e0 : error) (l : Link) (argv : list string)
    (oe : option error) (r : result Link) :
    is_LinkNotFoundError e0 = true ->
    link_run iface r
      [(CLinkByName iface, Some e0); (CLinkAdd l, None);
       (Cexec_Run argv, oe); (CLinkByName iface, error_of r)].

(** ** The desired and the observed sets *)

(** The canonical string of a prefix: the key of the reconcilers' maps. *)
Definition key (p : net.IPNet) : string := net.IPNet_String (Some p).

Definition keys (l : list net.IPNet) : list string := map key l.


(** Every peer's allowed-IPs, in order. *)
Definition desired_routes (cfg : Config) : list net.IPNet :=
  concat (map wgtypes.AllowedIPs (wgtypes.Peers (wgConfig cfg))).


(** The loop both reconcilers run over their desired prefixes, with the
    call that adds one as a parameter. *)
Fixpoint mark_desired {W} (add : net.IPNet -> M W unit)
    (desired : list net.IPNet) (present : gmap string Z)
  : M W (gmap string Z) :=
  match desired with
  | [] => ret present
  | d :: rest =>
      let was := present !! key d in
      let present := <[key d := 2]> present in
      match was with
      | Some _ => mark_desired add rest present
      | None => add d ;;; mark_desired add rest present
      end
  end.

(** ** A stub host

    The host of a unit test: the two list calls answer with the addresses
    and routes it was given, every other call succeeds and changes
    nothing. *)

Module stub.

Record state : Type := { addrs : list Addr; routes : list Route }.

#[global] Instance host : Host state := {
  LinkByName name s := (Ok {| Name := name; Index := 1; LinkType := "wireguard" |}, s);
  LinkAdd l s := (Ok tt, s);
  LinkSetUp l s := (Ok tt, s);
  AddrList l family s := (Ok (addrs s), s);
  AddrAdd l a s := (Ok tt, s);
  AddrDel l a s := (Ok tt, s);
  RouteList l family s := (Ok (routes s), s);
  RouteAdd r s := (Ok tt, s);
  RouteDel r s := (Ok tt, s);
  exec_Run argv s := (Ok tt, s);
  wireguardctrl_New s := (Ok tt, s);
  ConfigureDevice name c s := (Ok tt, s)
}.

End stub.

(** ** Scenario C of the spec, and IPv6 prefixes *)

(** Two peers with allowed-IPs [10.0.0.0/24] and [10.0.0.0/24, 10.1.0.0/24],
    and the address 10.0.0.2/24. *)
Definition scenario_C : Config :=
  config [v4 10 0 0 2 24]
    [peer [v4 10 0 0 0 24]; peer [v4 10 0 0 0 24; v4 10 1 0 0 24]].



(** ** The predicates of the statements *)

Definition byte_range (b : Z) : Prop := 0 <= b < 256.

Definition sextet_range (v : Z) : Prop := 0 <= v < 64.

(** The error [template.Parse] returns on [wgtypeTemplateSpec]. *)
Definition parseError : error :=
  TemplateError ("unexpected " +:+ template.quote ":=" +:+ " in range").

(** [m] adds the events [evs] to what was written down, and [Q] holds of
    its result and of them. *)
Definition emits {W A} (m : M (W * list Event) A)
    (Q : result A -> list Event -> Prop) : Prop :=
  forall w tr, exists evs,
    snd (snd (m (w, tr))) = tr ++ evs /\ Q (fst (m (w, tr))) evs.

Definition all_ok (evs : list Event) : Prop :=
  Forall (fun ev => snd ev = None) evs.

(** Every call succeeded, but for the last one perhaps, and then its
    error is the result. *)
Definition failstop {A} (r : result A) (evs : list Event) : Prop :=
  exists evs0,
    all_ok evs0 /\
    (evs = evs0 \/ exists c e, evs = evs0 ++ [(c, Some e)] /\ r = Err e).

(** The calls are all in [P], and the run stops at the first that fails. *)
Definition orderly (P : Call -> Prop) {A} (r : result A) (evs : list Event)
  : Prop :=
  Forall (fun ev => P (fst ev)) evs /\ failstop r evs.

(** The calls [syncAddress] makes: [AddrList] and [AddrAdd]. *)
Definition address_call (c : Call) : Prop :=
  match c with
  | CAddrList _ _ | CAddrAdd _ _ => True
  | _ => False
  end.

(** The calls [syncRoutes] makes: [RouteList], [RouteAdd] and [RouteDel],
    the last two with a destination. *)
Definition route_call (c : Call) : Prop :=
  match c with
  | CRouteList _ _ => True
  | CRouteAdd r | CRouteDel r => is_Some (Dst r)
  | _ => False
  end.

(** The calls are of the phases [lo] to [hi], in their order, and the
    run stops at the first that fails. *)
Definition in_phases (lo hi : nat) {A} (r : result A) (evs : list Event)
  : Prop :=
  Forall (fun ev => (lo <= phase (fst ev) <= hi)%nat) evs /\
  phases_sorted evs /\ failstop r evs.

(** The runs of Up: those of lines 104-129, then those of the rest. *)
Definition up_run (iface : string) (r : result unit) (evs : list Event)
  : Prop :=
  exists (rl : result Link) (evs0 evs1 : list Event),
    evs = evs0 ++ evs1 /\ link_run iface rl evs0 /\
    match rl with
    | Err e => r = Err e /\ evs1 = []
    | Ok _ => in_phases 1 4 r evs1
    end.

(** The strings of the entries the removal loop acts on. *)
Definition extraneous_keys (entries : list (string * Z)) : list string :=
  map fst (flagged_extraneous entries).

(** ** Decimal strings *)

(** The value of a string of decimal digits read after [n]. *)
Fixpoint digits_value (s : string) (n : Z) : Z :=
  match s with
  | EmptyString => n
  | String c s' => digits_value s' (n * 10 + (gostr.code c - 48))
  end.

(** No character of [s] is [c]. *)
Fixpoint without (c : ascii) (s : string) : bool :=
  match s with
  | EmptyString => true
  | String a s' => negb (Ascii.eqb a c) && without c s'
  end.

(** Every character of [s] is a decimal digit. *)
Fixpoint all_digits (s : string) : bool :=
  match s with
  | EmptyString => true
  | String a s' => net.is_digit a && all_digits s'
  end.

(** [s[0] == '0'], the test of [parseIPv4] on a number of several digits. *)
Definition leading_zero (s : string) : bool :=
  match s with String "0" _ => true | _ => false end.

(** What [parseIPv4] and [ParseCIDR] need of the decimal form of [a]. *)
Definition decimal_ok (a : Z) : bool :=
  let s := net.uitoa a in
  all_digits s && (digits_value s 0 =? a)
  && (0 <? gostr.len s) && (gostr.len s <=? 3)
  && negb ((1 <? gostr.len s) && leading_zero s)
  && without "/" s && without " " s.

(** What can follow a number: the end of the string, or a character that
    is no digit. *)
Definition stops (rest : string) : Prop :=
  match rest with
  | EmptyString => True
  | String c _ => net.is_digit c = false
  end.

(** The dotted decimal form of four octets. *)
Definition dotted (a b c d : Z) : string :=
  net.uitoa a +:+ "." +:+ net.uitoa b +:+ "." +:+ net.uitoa c +:+ "."
  +:+ net.uitoa d.

(** The masks of IPv4 prefixes. *)
Definition mask32_ok (l : Z) : bool :=
  (net.blen (net.CIDRMask l 32) =? 4)
  && (net.simpleMaskLength (net.CIDRMask l 32) =? l).

(** The IPv4 prefixes as the kernel holds them: an address a.b.c.d with
    its prefix length, and a route, whose destination has no bit set after
    the prefix length. *)
Inductive ipv4_address : net.IPNet -> Prop :=
| ipv4_address_intro (a b c d l : Z) :
    0 <= a < 256 -> 0 <= b < 256 -> 0 <= c < 256 -> 0 <= d < 256 ->
    0 <= l <= 32 ->
    ipv4_address (v4 a b c d l).

Inductive ipv4_route : net.IPNet -> Prop :=
| ipv4_route_intro (a b c d l : Z) :
    0 <= a < 256 -> 0 <= b < 256 -> 0 <= c < 256 -> 0 <= d < 256 ->
    0 <= l <= 32 ->
    net.IP_Mask [a; b; c; d] (net.CIDRMask l 32) = [a; b; c; d] ->
    ipv4_route (v4 a b c d l).

(** ** The calls of the reconcilers *)

(** An [AddrAdd] on [link]; a [RouteAdd] and a [RouteDel] for the
    interface of [link], with a destination. *)
Definition adds_address (link : Link) (c : Call) : Prop :=
  exists a, c = CAddrAdd link a.

Definition adds_route (link : Link) (c : Call) : Prop :=
  exists d, c = CRouteAdd {| LinkIndex := Index link; Dst := Some d |}.

Definition deletes_route (link : Link) (c : Call) : Prop :=
  exists d, c = CRouteDel {| LinkIndex := Index link; Dst := Some d |}.

(** The stub host that lists what Scenario C wants. *)
Definition synced_stub : stub.state :=
  {| stub.addrs := [{| IPNet := v4 10 0 0 2 24; Label := "" |}];
     stub.routes := [{| LinkIndex := 1; Dst := Some (v4 10 1 0 0 24) |};
                     {| LinkIndex := 1; Dst := Some (v4 10 0 0 0 24) |}] |}.

(** A host with an address and a route Scenario C does not have, and
    without one of its routes. *)
Definition drifted_stub : stub.state :=
  {| stub.addrs := [{| IPNet := v4 10 0 0 2 24; Label := "" |};
                    {| IPNet := v4 192 168 1 1 24; Label := "" |}];
     stub.routes := [{| LinkIndex := 1; Dst := Some (v4 192 168 5 0 24) |};
                     {| LinkIndex := 1; Dst := Some (v4 10 0 0 0 24) |}] |}.

(** ** The characters of a key's text *)

(** The text without its carriage returns and line feeds. *)
Fixpoint without_newlines (s : string) : string :=
  match s with
  | EmptyString => EmptyString
  | String c s' =>
      if base64.is_newline c then without_newlines s'
      else String c (without_newlines s')
  end.

(** A character that is no base64 digit, no padding and no newline. *)
Definition foreign (c : ascii) : bool :=
  match base64.decodeMap c with
  | Some _ => false
  | None => negb (base64.is_newline c) && negb (Ascii.eqb c base64.padChar)
  end.

Fixpoint has_foreign (s : string) : bool :=
  match s with
  | EmptyString => false
  | String c s' => foreign c || has_foreign s'
  end.

(** What is left of the input after a quantum, the bytes it wrote and
    its error. *)
Definition left_over (r : string * Z * list Z * option error) : string :=
  fst (fst (fst r)).

Definition written (r : string * Z * list Z * option error) : list Z :=
  snd (fst r).

Definition failure (r : string * Z * list Z * option error) : option error :=
  snd r.

(** The text of a key file: the key, then a line feed. *)
Definition key_file (k : list Z) : string :=
  serializeKey k +:+ String "010" "".

(** ** What a run leaves of the kernel *)


(** ** Up on the reference kernel *)







(** ** The calls of a run that ends well *)

(** The map once the desired prefixes are marked (lines 177 and 224). *)
Definition marked (desired : list net.IPNet) (present : gmap string Z)
  : gmap string Z :=
  foldl (fun m d => <[key d := 2]> m) present desired.

(** The strings under which the reconcilers put what the lists give
    (lines 172 and 218). *)
Definition address_strings (addrs : list Addr) : list string :=
  map (fun a => key (IPNet a)) addrs.

Definition route_strings (routes : list Route) : list string :=
  map (fun r => net.IPNet_String (Dst r)) routes.

(** The successful call the removal loop of [syncRoutes] makes for the
    string [s] (line 249), and the one the removal loop of [syncAddress]
    makes (line 199). *)
Definition route_removal (link : Link) (s : string) (ev : Event) : Prop :=
  exists ip rt,
    net.ParseCIDR s = Ok (ip, rt) /\
    ev = (CRouteDel {| LinkIndex := Index link; Dst := Some rt |}, None).

Definition address_removal (link : Link) (s : string) (ev : Event) : Prop :=
  exists nlAddr,
    ParseAddr s = Ok nlAddr /\ ev = (CAddrAdd link nlAddr, None).

(** * Statements *)

(** ** The key codec *)

Section bits.

Lemma lor_add (x y k : Z) :
  0 <= k -> x mod 2 ^ k = 0 -> 0 <= y < 2 ^ k -> Z.lor x y = x + y.
Proof.
  intros Hk Hx Hy. symmetry. apply Z.add_nocarry_lor.
  apply Z.bits_inj'. intros n Hn. rewrite Z.land_spec, Z.bits_0.
  destruct (Z.lt_ge_cases n k) as [Hlt | Hge].
  - rewrite (Z.div_mod x (2 ^ k)) by lia. rewrite Hx, Z.add_0_r.
    rewrite Z.mul_comm, Z.mul_pow2_bits_low by lia. reflexivity.
  - destruct (Z.eq_dec y 0) as [-> | Hy0].
    + rewrite Z.bits_0. apply andb_false_r.
    + rewrite (Z.bits_above_log2 y n).
      * apply andb_false_r.
      * lia.
      * apply Z.log2_lt_pow2; [lia |].
        apply Z.lt_le_trans with (2 ^ k); [lia |].
        apply Z.pow_le_mono_r; lia.
Qed.

End bits.

Section key_codec.

Lemma range_cases (P : Z -> Prop) `{!forall i, Decision (P i)} (n : nat) :
  forallb (fun k => bool_decide (P (Z.of_nat k))) (seq 0 n) = true ->
  forall i, 0 <= i < Z.of_nat n -> P i.
Proof.
  intros Hall i Hi. rewrite forallb_forall in Hall.
  assert (Hin : In (Z.to_nat i) (seq 0 n)) by (apply in_seq; lia).
  apply Hall in Hin. apply bool_decide_eq_true_1 in Hin.
  rewrite Z2Nat.id in Hin by lia. exact Hin.
Qed.

Lemma decodeMap_encode (i : Z) :
  0 <= i < 64 -> base64.decodeMap (base64.encode i) = Some i.
Proof. apply (range_cases (fun i => base64.decodeMap (base64.encode i) = Some i) 64).
  vm_compute. reflexivity. Qed.

Lemma pack3 (a b c : Z) :
  byte_range a -> byte_range b -> byte_range c ->
  Z.lor (Z.lor (Z.shiftl a 16) (Z.shiftl b 8)) c = a * 65536 + b * 256 + c.
Proof.
  unfold byte_range. intros Ha Hb Hc.
  rewrite !Z.shiftl_mul_pow2 by lia.
  rewrite (lor_add (a * 2 ^ 16) (b * 2 ^ 8) 16) by (try apply Z_mod_mult; lia).
  rewrite (lor_add _ c 8); [lia | lia | | lia].
  change (2 ^ 16) with (2 ^ 8 * 2 ^ 8). rewrite Z.mul_assoc, <- Z.mul_add_distr_r.
  apply Z_mod_mult.
Qed.

Lemma pack4 (v0 v1 v2 v3 : Z) :
  sextet_range v0 -> sextet_range v1 -> sextet_range v2 -> sextet_range v3 ->
  Z.lor (Z.lor (Z.lor (Z.shiftl v0 18) (Z.shiftl v1 12)) (Z.shiftl v2 6)) v3
  = v0 * 262144 + v1 * 4096 + v2 * 64 + v3.
Proof.
  unfold sextet_range. intros H0 H1 H2 H3.
  rewrite !Z.shiftl_mul_pow2 by lia.
  rewrite (lor_add (v0 * 2 ^ 18) (v1 * 2 ^ 12) 18) by (try apply Z_mod_mult; lia).
  rewrite (lor_add _ (v2 * 2 ^ 6) 12); [ | lia | | lia].
  - rewrite (lor_add _ v3 6); [lia | lia | | lia].
    replace (v0 * 2 ^ 18 + v1 * 2 ^ 12 + v2 * 2 ^ 6)
      with ((v0 * 4096 + v1 * 64 + v2) * 2 ^ 6) by lia.
    apply Z_mod_mult.
  - replace (v0 * 2 ^ 18 + v1 * 2 ^ 12) with ((v0 * 64 + v1) * 2 ^ 12) by lia.
    apply Z_mod_mult.
Qed.

Lemma land_shiftr_63 (val k : Z) :
  0 <= k -> Z.land (Z.shiftr val k) 63 = (val / 2 ^ k) mod 64.
Proof.
  intros Hk. rewrite Z.shiftr_div_pow2 by lia.
  change 63 with (Z.ones 6). rewrite Z.land_ones by lia. reflexivity.
Qed.

Lemma land_shiftr_255 (val k : Z) :
  0 <= k -> Z.land (Z.shiftr val k) 255 = (val / 2 ^ k) mod 256.
Proof.
  intros Hk. rewrite Z.shiftr_div_pow2 by lia.
  change 255 with (Z.ones 8). rewrite Z.land_ones by lia. reflexivity.
Qed.

Lemma land_255 (val : Z) : Z.land val 255 = val mod 256.
Proof. change 255 with (Z.ones 8). rewrite Z.land_ones by lia. reflexivity. Qed.

Lemma sextet_decodes (val k : Z) :
  0 <= k ->
  base64.decodeMap (base64.sextet val k) = Some ((val / 2 ^ k) mod 64).
Proof.
  intros Hk. unfold base64.sextet. rewrite land_shiftr_63 by lia.
  apply decodeMap_encode. apply Z.mod_pos_bound. lia.
Qed.

(** Four sextets of a 24-bit value give its three bytes back. *)
Lemma assemble_sextets (val : Z) (n : nat) :
  0 <= val < 16777216 ->
  base64.assemble
    [(val / 2 ^ 18) mod 64; (val / 2 ^ 12) mod 64;
     (val / 2 ^ 6) mod 64; (val / 2 ^ 0) mod 64] n
  = firstn (n - 1) [val / 65536; (val / 256) mod 256; val mod 256].
Proof.
  intros Hval. unfold base64.assemble. cbn [nth].
  rewrite pack4 by (unfold sextet_range; apply Z.mod_pos_bound; lia).
  rewrite !land_shiftr_255, land_255 by lia.
  f_equal. change (2 ^ 18) with 262144. change (2 ^ 12) with 4096.
  change (2 ^ 6) with 64. change (2 ^ 0) with 1. change (2 ^ 16) with 65536.
  change (2 ^ 8) with 256.
  repeat f_equal; Z.div_mod_to_equations; lia.
Qed.

Lemma assemble_pad3 (v0 v1 v2 : Z) (n : nat) :
  base64.assemble [v0; v1; v2] n = base64.assemble [v0; v1; v2; 0] n.
Proof. reflexivity. Qed.

Lemma assemble_pad2 (v0 v1 : Z) (n : nat) :
  base64.assemble [v0; v1] n = base64.assemble [v0; v1; 0; 0] n.
Proof. reflexivity. Qed.

Lemma decodeQuantum_sextet (c : ascii) (v : Z) (s : string) (si : Z)
    (dbuf : list Z) :
  base64.decodeMap c = Some v -> (length dbuf < 4)%nat ->
  base64.decodeQuantum (String c s) si dbuf
  = base64.decodeQuantum s (si + 1) (dbuf ++ [v]).
Proof.
  intros Hc Hlen. cbn [base64.decodeQuantum].
  destruct (4 <=? length dbuf)%nat eqn:E; [apply Nat.leb_le in E; lia |].
  rewrite Hc. reflexivity.
Qed.

Lemma decodeQuantum_full (s : string) (si : Z) (dbuf : list Z) :
  length dbuf = 4%nat ->
  base64.decodeQuantum s si dbuf = (s, si, base64.assemble dbuf 4, None).
Proof.
  intros Hlen. destruct s; cbn [base64.decodeQuantum]; rewrite Hlen; reflexivity.
Qed.

(** A full group of three bytes is read back by one quantum. *)
Lemma decodeQuantum_three (a b c : Z) (rest : list Z) (si : Z) :
  byte_range a -> byte_range b -> byte_range c ->
  base64.decodeQuantum (base64.EncodeToString (a :: b :: c :: rest)) si []
  = (base64.EncodeToString rest, si + 1 + 1 + 1 + 1, [a; b; c], None).
Proof.
  intros Ha Hb Hc. cbn [base64.EncodeToString].
  rewrite pack3 by assumption.
  set (val := a * 65536 + b * 256 + c).
  assert (Hval : 0 <= val < 16777216) by (unfold byte_range in *; lia).
  do 4 (erewrite decodeQuantum_sextet;
        [ | apply sextet_decodes; lia | cbn; lia ]).
  rewrite decodeQuantum_full by reflexivity. cbn [app].
  rewrite assemble_sextets by assumption. cbn [firstn Nat.sub].
  unfold byte_range in *. subst val.
  repeat f_equal; Z.div_mod_to_equations; lia.
Qed.

(** The last group of one or two bytes, with its padding. *)
Lemma decodeQuantum_two (a b : Z) (si : Z) :
  byte_range a -> byte_range b ->
  base64.decodeQuantum (base64.EncodeToString [a; b]) si []
  = ("", si + 1 + 1 + 1 + 1, [a; b], None).
Proof.
  intros Ha Hb. cbn [base64.EncodeToString].
  replace (Z.lor (Z.shiftl a 16) (Z.shiftl b 8))
    with (Z.lor (Z.lor (Z.shiftl a 16) (Z.shiftl b 8)) 0) by apply Z.lor_0_r.
  rewrite pack3 by (unfold byte_range in *; first [assumption | lia]).
  set (val := a * 65536 + b * 256 + 0).
  assert (Hval : 0 <= val < 16777216) by (unfold byte_range in *; lia).
  do 3 (erewrite decodeQuantum_sextet;
        [ | apply sextet_decodes; lia | cbn; lia ]).
  cbn [app]. cbn -[base64.assemble Z.add]. f_equal.
  assert (H3 : (val / 2 ^ 0) mod 64 = 0)
    by (unfold byte_range in *; subst val; change (2 ^ 0) with 1;
        Z.div_mod_to_equations; lia).
  rewrite assemble_pad3.
  replace (base64.assemble
             [(val / 2 ^ 18) mod 64; (val / 2 ^ 12) mod 64;
              (val / 2 ^ 6) mod 64; 0] 3)
    with (base64.assemble
            [(val / 2 ^ 18) mod 64; (val / 2 ^ 12) mod 64;
             (val / 2 ^ 6) mod 64; (val / 2 ^ 0) mod 64] 3)
    by (rewrite H3; reflexivity).
  rewrite assemble_sextets by assumption. cbn [firstn Nat.sub].
  unfold byte_range in *. subst val.
  repeat f_equal; Z.div_mod_to_equations; lia.
Qed.

Lemma decodeQuantum_one (a : Z) (si : Z) :
  byte_range a ->
  base64.decodeQuantum (base64.EncodeToString [a]) si []
  = ("", si + 1 + 1 + 1 + 1, [a], None).
Proof.
  intros Ha. cbn [base64.EncodeToString].
  replace (Z.shiftl a 16)
    with (Z.lor (Z.lor (Z.shiftl a 16) (Z.shiftl 0 8)) 0)
    by (rewrite Z.shiftl_0_l, !Z.lor_0_r; reflexivity).
  rewrite pack3 by (unfold byte_range in *; first [assumption | lia]).
  set (val := a * 65536 + 0 * 256 + 0).
  assert (Hval : 0 <= val < 16777216) by (unfold byte_range in *; lia).
  do 2 (erewrite decodeQuantum_sextet;
        [ | apply sextet_decodes; lia | cbn; lia ]).
  cbn [app]. cbn -[base64.assemble Z.add]. f_equal.
  assert (H3 : (val / 2 ^ 0) mod 64 = 0)
    by (unfold byte_range in *; subst val; change (2 ^ 0) with 1;
        Z.div_mod_to_equations; lia).
  assert (H2 : (val / 2 ^ 6) mod 64 = 0)
    by (unfold byte_range in *; subst val; change (2 ^ 6) with 64;
        Z.div_mod_to_equations; lia).
  rewrite assemble_pad2.
  replace (base64.assemble [(val / 2 ^ 18) mod 64; (val / 2 ^ 12) mod 64; 0; 0] 2)
    with (base64.assemble
            [(val / 2 ^ 18) mod 64; (val / 2 ^ 12) mod 64;
             (val / 2 ^ 6) mod 64; (val / 2 ^ 0) mod 64] 2)
    by (rewrite H2, H3; reflexivity).
  rewrite assemble_sextets by assumption. cbn [firstn Nat.sub].
  unfold byte_range in *. subst val.
  repeat f_equal; Z.div_mod_to_equations; lia.
Qed.

Lemma triples_ind (P : list Z -> Prop) :
  P [] -> (forall a, P [a]) -> (forall a b, P [a; b]) ->
  (forall a b c l, P l -> P (a :: b :: c :: l)) ->
  forall l, P l.
Proof.
  intros H0 H1 H2 H3.
  fix IH 1. intros [| a [| b [| c l]]].
  - exact H0.
  - apply H1.
  - apply H2.
  - apply H3, IH.
Qed.

Lemma EncodeToString_length (l : list Z) :
  String.length (base64.EncodeToString l) = (4 * ((length l + 2) / 3))%nat.
Proof.
  induction l as [| a | a b | a b c l IH] using triples_ind; try reflexivity.
  cbn [base64.EncodeToString String.length length]. rewrite IH.
  replace (S (S (S (length l))) + 2)%nat with (1 * 3 + (length l + 2))%nat by lia.
  rewrite Nat.div_add_l by lia. lia.
Qed.

Lemma Decode_loop_nonempty (fuel : nat) (s : string) (si : Z) (dst : list Z) :
  s <> "" ->
  base64.Decode_loop (S fuel) s si dst
  = let '(s', si', out, err) := base64.decodeQuantum s si [] in
    match err with
    | Some e => (dst ++ out, Some e)
    | None => base64.Decode_loop fuel s' si' (dst ++ out)
    end.
Proof. destruct s; [congruence | reflexivity]. Qed.

(** Decoding undoes encoding, for every list of bytes. *)
Lemma Decode_loop_EncodeToString (l : list Z) :
  Forall byte_range l ->
  forall fuel si dst,
    (String.length (base64.EncodeToString l) < fuel)%nat ->
    base64.Decode_loop fuel (base64.EncodeToString l) si dst = (dst ++ l, None).
Proof.
  induction l as [| a | a b | a b c l IH] using triples_ind;
    intros Hl fuel si dst Hfuel.
  - destruct fuel; cbn; rewrite app_nil_r; reflexivity.
  - destruct fuel as [| fuel]; [cbn in Hfuel; lia |].
    inversion_clear Hl as [| ? ? Ha _].
    rewrite Decode_loop_nonempty by (cbn; discriminate).
    rewrite decodeQuantum_one by assumption.
    destruct fuel; reflexivity.
  - destruct fuel as [| fuel]; [cbn in Hfuel; lia |].
    inversion_clear Hl as [| ? ? Ha Hl']. inversion_clear Hl' as [| ? ? Hb _].
    rewrite Decode_loop_nonempty by (cbn; discriminate).
    rewrite decodeQuantum_two by assumption.
    destruct fuel; reflexivity.
  - destruct fuel as [| fuel]; [cbn in Hfuel; lia |].
    inversion_clear Hl as [| ? ? Ha Hl']. inversion_clear Hl' as [| ? ? Hb Hl].
    inversion_clear Hl as [| ? ? Hc Hl'].
    rewrite Decode_loop_nonempty by (cbn; discriminate).
    rewrite decodeQuantum_three by assumption.
    rewrite IH;
      [ | assumption
        | cbn [base64.EncodeToString String.length] in Hfuel; lia].
    rewrite <- app_assoc. reflexivity.
Qed.

Lemma DecodeString_EncodeToString (l : list Z) :
  Forall byte_range l ->
  base64.DecodeString (base64.EncodeToString l) = (l, None).
Proof.
  intros Hl. unfold base64.DecodeString.
  rewrite Decode_loop_EncodeToString by (assumption || lia). reflexivity.
Qed.

Lemma repeat_replicate {A} (x : A) (n : nat) : repeat x n = replicate n x.
Proof. induction n; cbn; congruence. Qed.

Lemma copy_exact (dst src : list Z) :
  length src = length dst -> copy dst src = src.
Proof.
  intros Hlen. unfold copy.
  rewrite firstn_all2, skipn_all2 by lia. apply app_nil_r.
Qed.

Lemma copy_length (dst src : list Z) : length (copy dst src) = length dst.
Proof.
  unfold copy. rewrite length_app, length_firstn, length_skipn. lia.
Qed.

(** C6: for every 32-byte key [k], [ParseKey (serializeKey k)] succeeds
    and returns [k]: decoding after encoding is the identity on keys. *)
Theorem ParseKey_serializeKey (k : list Z) :
  wgtypes.is_Key k -> ParseKey (serializeKey k) = (k, None).
Proof.
  intros [Hlen Hbytes]. unfold ParseKey, serializeKey.
  rewrite DecodeString_EncodeToString by exact Hbytes.
  rewrite copy_exact; [reflexivity |].
  rewrite Hlen. reflexivity.
Qed.

Lemma ParseKey_serializeKey_witness :
  wgtypes.is_Key (seqZ 100 32) /\
  ParseKey (serializeKey (seqZ 100 32)) = (seqZ 100 32, None).
Proof.
  assert (H : wgtypes.is_Key (seqZ 100 32)).
  { split; [reflexivity |]. apply Forall_forall. intros b Hb.
    apply elem_of_seqZ in Hb. lia. }
  split; [exact H | exact (ParseKey_serializeKey (seqZ 100 32) H)].
Defined.

(** C5, as the code has it: [ParseKey] returns an error exactly when
    [base64.DecodeString] does, and that error; the number of decoded
    bytes is not looked at.  When the text decodes, the key returned has
    32 bytes: the decoded bytes, cut after the 32nd, or followed by zero
    bytes when they are fewer. *)
Theorem ParseKey_fails_only_on_bad_base64 (s : string) :
  snd (ParseKey s) = snd (base64.DecodeString s) /\
  length (fst (ParseKey s)) = wgtypes.KeyLen /\
  fst (ParseKey s)
  = match snd (base64.DecodeString s) with
    | Some _ => wgtypes.zeroKey
    | None =>
        firstn wgtypes.KeyLen
          (fst (base64.DecodeString s) ++ repeat 0 wgtypes.KeyLen)
    end.
Proof.
  unfold ParseKey. destruct (base64.DecodeString s) as [b [e |]]; cbn [fst snd].
  - repeat split; reflexivity.
  - split; [reflexivity |]. split; [apply copy_length |].
    unfold copy, wgtypes.zeroKey. rewrite repeat_length.
    rewrite firstn_app, !repeat_replicate, take_replicate, drop_replicate.
    f_equal. f_equal. lia.
Qed.

(** C5, as the claim has it, fails: the text AQID decodes to three bytes,
    and [ParseKey] returns a key and no error. *)
Lemma ParseKey_accepts_short_key :
  base64.DecodeString "AQID" = ([1; 2; 3], None) /\
  length [1; 2; 3] <> wgtypes.KeyLen /\
  ParseKey "AQID" = (1 :: 2 :: 3 :: repeat 0 29, None).
Proof. split; [reflexivity |]. split; [discriminate | reflexivity]. Qed.

End key_codec.

(** ** The template *)

Section rendering.

(** The first action of the template, as the lexer reads it: after
    [range] comes [:=], with no variable between them. *)
Lemma wgtypeTemplateSpec_first_action :
  firstn 6 (template.lexer wgtypeTemplateSpec)
  = [template.itemText "[Interface]"; template.itemLeftDelim;
     template.itemRange; template.itemSpace; template.itemDeclare;
     template.itemSpace].
Proof. vm_compute. reflexivity. Qed.

Lemma Parse_wgtypeTemplateSpec :
  template.Parse ["wgKey"] wgtypeTemplateSpec = Err parseError.
Proof. vm_compute. reflexivity. Qed.

(** With [range .Address] and [range .DNS] the same text parses. *)
Lemma Parse_repairedTemplateSpec :
  is_err (template.Parse ["wgKey"] repairedTemplateSpec) = false.
Proof. vm_compute. reflexivity. Qed.

(** C9: the template text is not valid template syntax: its actions
    [range := .Address] and [range := .DNS] have [:=] and no variable,
    and [Parse] answers with an error.  So [template.Must] panics when
    the package initialises [cfgTemplate], and for every configuration
    (and whatever [Execute] would do) neither [MarshalText] nor [String]
    returns: a rendered text is never produced. *)
Theorem cfgTemplate_never_renders :
  template.Parse ["wgKey"] wgtypeTemplateSpec = Err parseError /\
  cfgTemplate = InitPanic parseError /\
  forall (Execute : list template.Node -> Config -> result string)
         (cfg : Config),
    MarshalText Execute cfg = Panics parseError /\
    Config_String Execute cfg = Panics parseError.
Proof.
  assert (Hinit : cfgTemplate = InitPanic parseError).
  { unfold cfgTemplate. rewrite Parse_wgtypeTemplateSpec. reflexivity. }
  split; [exact Parse_wgtypeTemplateSpec |]. split; [exact Hinit |].
  intros Execute cfg. unfold Config_String, MarshalText.
  rewrite Hinit. split; reflexivity.
Qed.

(** C7, on the code: for a configuration with MTU 0, Table 0 and empty
    hook commands, [MarshalText] does not succeed.  It panics with the
    error of the template's initialisation, as for every configuration. *)
Theorem MarshalText_unset_fields :
  forall (Execute : list template.Node -> Config -> result string)
         (address : list net.IPNet) (peers : list wgtypes.PeerConfig),
    MTU (config address peers) = 0 /\
    Table (config address peers) = 0 /\
    PreUp (config address peers) = "" /\
    PostUp (config address peers) = "" /\
    PreDown (config address peers) = "" /\
    PostDown (config address peers) = "" /\
    MarshalText Execute (config address peers) = Panics parseError.
Proof.
  intros Execute address peers. repeat (split; [reflexivity |]).
  unfold MarshalText, cfgTemplate. rewrite Parse_wgtypeTemplateSpec.
  reflexivity.
Qed.

End rendering.

(** ** Runs on a host that writes its calls down *)

Section traced_runs.

Context {W : Type} `{Host W}.

Lemma emits_weaken {A} (m : M (W * list Event) A)
    (Q Q' : result A -> list Event -> Prop) :
  emits m Q -> (forall r evs, Q r evs -> Q' r evs) -> emits m Q'.
Proof.
  intros Hm HQ w tr. destruct (Hm w tr) as (evs & Htr & Hq). eauto.
Qed.

Lemma emits_ret {A} (a : A) (Q : result A -> list Event -> Prop) :
  Q (Ok a) [] -> emits (W := W) (ret a) Q.
Proof. intros HQ w tr. exists []. cbn. rewrite app_nil_r. auto. Qed.

Lemma emits_fail {A} (e : error) (Q : result A -> list Event -> Prop) :
  Q (Err e) [] -> emits (W := W) (fun w => (Err e, w)) Q.
Proof. intros HQ w tr. exists []. cbn. rewrite app_nil_r. auto. Qed.

Lemma emits_logged {A} (c : Call) (op : W -> result A * W)
    (Q : result A -> list Event -> Prop) :
  (forall r, Q r [(c, error_of r)]) -> emits (logged c op) Q.
Proof.
  intros HQ w tr. unfold logged. destruct (op w) as [r w'].
  exists [(c, error_of r)]. cbn. auto.
Qed.

Lemma emits_bind {A B} (m : M (W * list Event) A)
    (f : A -> M (W * list Event) B)
    (Q1 : result A -> list Event -> Prop)
    (Q2 : A -> result B -> list Event -> Prop)
    (Q : result B -> list Event -> Prop) :
  emits m Q1 ->
  (forall a, emits (f a) (Q2 a)) ->
  (forall e evs, Q1 (Err e) evs -> Q (Err e) evs) ->
  (forall a evs1 r evs2, Q1 (Ok a) evs1 -> Q2 a r evs2 -> Q r (evs1 ++ evs2)) ->
  emits (bind m f) Q.
Proof.
  intros Hm Hf Herr Hok w tr. unfold bind.
  destruct (Hm w tr) as (evs1 & Htr1 & Hq1).
  destruct (m (w, tr)) as [[a | e] [w1 tr1]]; cbn in *; subst tr1.
  - destruct (Hf a w1 (tr ++ evs1)) as (evs2 & Htr2 & Hq2).
    exists (evs1 ++ evs2). rewrite Htr2, app_assoc. split; [reflexivity |].
    apply Hok with a; assumption.
  - exists evs1. split; [reflexivity |]. apply Herr. assumption.
Qed.

Lemma failstop_ok_all_ok {A} (a : A) (evs : list Event) :
  failstop (Ok a) evs -> all_ok evs.
Proof.
  intros (evs0 & Hok & [-> | (c & e & _ & Habs)]); [exact Hok | discriminate].
Qed.

Lemma orderly_nil (P : Call -> Prop) {A} (r : result A) : orderly P r [].
Proof.
  split; [constructor |]. exists []. split; [constructor | left; reflexivity].
Qed.

Lemma orderly_one (P : Call -> Prop) {A} (c : Call) (r : result A) :
  P c -> orderly P r [(c, error_of r)].
Proof.
  intros Hc. split; [repeat constructor; exact Hc |].
  destruct r as [a | e]; cbn.
  - exists [(c, None)]. split; [repeat constructor | left; reflexivity].
  - exists []. split; [constructor | right; exists c, e; auto].
Qed.

Lemma orderly_err (P : Call -> Prop) {A B} (e : error) (evs : list Event) :
  orderly P (@Err A e) evs -> orderly P (@Err B e) evs.
Proof.
  intros [HP (evs0 & Hok & Hcase)]. split; [exact HP |].
  exists evs0. split; [exact Hok |].
  destruct Hcase as [-> | (c & e' & -> & He)]; [left; reflexivity |].
  right. exists c, e'. split; [reflexivity | congruence].
Qed.

Lemma orderly_app (P : Call -> Prop) {A B} (a : A) (r : result B)
    (evs1 evs2 : list Event) :
  orderly P (Ok a) evs1 -> orderly P r evs2 -> orderly P r (evs1 ++ evs2).
Proof.
  intros [HP1 Hfs1] [HP2 (evs0 & Hok & Hcase)].
  split; [apply Forall_app; auto |].
  apply failstop_ok_all_ok in Hfs1.
  exists (evs1 ++ evs0). split; [apply Forall_app; auto |].
  destruct Hcase as [-> | (c & e & -> & He)]; [left; reflexivity |].
  right. exists c, e. rewrite app_assoc. auto.
Qed.

Lemma orderly_weaken (P P' : Call -> Prop) {A} (r : result A)
    (evs : list Event) :
  (forall c, P c -> P' c) -> orderly P r evs -> orderly P' r evs.
Proof.
  intros HPP [HP Hfs]. split; [| exact Hfs].
  eapply Forall_impl; [exact HP |]. intros ev; apply HPP.
Qed.

Lemma emits_orderly_bind (P : Call -> Prop) {A B}
    (m : M (W * list Event) A) (f : A -> M (W * list Event) B) :
  emits m (orderly P) -> (forall a, emits (f a) (orderly P)) ->
  emits (bind m f) (orderly P).
Proof.
  intros Hm Hf.
  apply (emits_bind m f (orderly P) (fun _ => orderly P)); try assumption.
  - intros e evs. apply orderly_err.
  - intros a evs1 r evs2. apply orderly_app.
Qed.

Lemma emits_orderly_logged (P : Call -> Prop) {A} (c : Call)
    (op : W -> result A * W) :
  P c -> emits (logged c op) (orderly P).
Proof. intros Hc. apply emits_logged. intros r. apply orderly_one, Hc. Qed.

(** *** The reconcilers *)

Variable range_order : list (string * Z) -> list (string * Z).

Lemma syncAddress_desired_orderly (link : Link) (desired : list net.IPNet) :
  forall present,
    emits (syncAddress_desired link desired present) (orderly address_call).
Proof.
  induction desired as [| addr rest IH]; intros present;
    cbn [syncAddress_desired].
  - apply emits_ret, orderly_nil.
  - destruct (present !! _); [apply IH |].
    apply emits_orderly_bind; [| intros _; apply IH].
    apply emits_orderly_logged. exact I.
Qed.

Lemma syncAddress_extraneous_orderly (link : Link)
    (entries : list (string * Z)) :
  emits (syncAddress_extraneous link entries) (orderly address_call).
Proof.
  induction entries as [| [addr p] rest IH]; cbn [syncAddress_extraneous].
  - apply emits_ret, orderly_nil.
  - destruct (p <? 2); [| exact IH].
    destruct (ParseAddr addr) as [nlAddr | err].
    + apply emits_orderly_bind; [| intros _; exact IH].
      apply emits_orderly_logged. exact I.
    + apply emits_fail, orderly_nil.
Qed.

Lemma syncAddress_orderly (link : Link) (cfg : Config) :
  emits (syncAddress range_order link cfg) (orderly address_call).
Proof.
  unfold syncAddress.
  apply emits_orderly_bind; [apply emits_orderly_logged; exact I |].
  intros addrs. apply emits_orderly_bind.
  - apply syncAddress_desired_orderly.
  - intros present. apply syncAddress_extraneous_orderly.
Qed.

Lemma syncRoutes_allowed_orderly (link : Link) (allowed : list net.IPNet) :
  forall present,
    emits (syncRoutes_allowed link allowed present) (orderly route_call).
Proof.
  induction allowed as [| rt rest IH]; intros present;
    cbn [syncRoutes_allowed].
  - apply emits_ret, orderly_nil.
  - destruct (present !! _); [apply IH |].
    apply emits_orderly_bind; [| intros _; apply IH].
    apply emits_orderly_logged. cbn. eauto.
Qed.

Lemma syncRoutes_peers_orderly (link : Link)
    (peers : list wgtypes.PeerConfig) :
  forall present,
    emits (syncRoutes_peers link peers present) (orderly route_call).
Proof.
  induction peers as [| peer rest IH]; intros present;
    cbn [syncRoutes_peers].
  - apply emits_ret, orderly_nil.
  - apply emits_orderly_bind; [apply syncRoutes_allowed_orderly |].
    intros present'. apply IH.
Qed.

Lemma syncRoutes_extraneous_orderly (link : Link)
    (entries : list (string * Z)) :
  emits (syncRoutes_extraneous link entries) (orderly route_call).
Proof.
  induction entries as [| [rtStr p] rest IH]; cbn [syncRoutes_extraneous].
  - apply emits_ret, orderly_nil.
  - destruct (net.ParseCIDR rtStr) as [[ip rt] | err].
    + destruct (p <? 2); [| exact IH].
      apply emits_orderly_bind; [| intros _; exact IH].
      apply emits_orderly_logged. cbn. eauto.
    + apply emits_fail, orderly_nil.
Qed.

Lemma syncRoutes_orderly (link : Link) (cfg : Config) :
  emits (syncRoutes range_order link cfg) (orderly route_call).
Proof.
  unfold syncRoutes.
  apply emits_orderly_bind; [apply emits_orderly_logged; exact I |].
  intros routes. apply emits_orderly_bind.
  - apply syncRoutes_peers_orderly.
  - intros present. apply syncRoutes_extraneous_orderly.
Qed.

End traced_runs.

(** ** The address reconciler *)

Section address_reconciler.

Context {W : Type} `{Host W}.
Variable range_order : list (string * Z) -> list (string * Z).

(** [syncAddress] never calls [AddrDel], on any host, in any order. *)
Lemma syncAddress_never_deletes (link : Link) (cfg : Config) (w : W) :
  List.filter is_AddrDel (trace (syncAddress range_order link cfg) w) = [].
Proof.
  destruct (syncAddress_orderly range_order link cfg w [])
    as (evs & Htr & [Hcalls _]).
  unfold trace. rewrite Htr. cbn [app]. clear Htr.
  induction Hcalls as [| [c e] evs Hc _ IH]; [reflexivity |].
  destruct c; cbn in Hc; try contradiction; exact IH.
Qed.

(** A desired address whose string is marked kept already is passed
    over, wherever it stands in the list. *)
Lemma syncAddress_desired_kept (link : Link) (dup : net.IPNet)
    (post : list net.IPNet) :
  forall (mid : list net.IPNet) (present : gmap string Z) (w : W),
    present !! net.IPNet_String (Some dup) = Some 2 ->
    syncAddress_desired link (mid ++ dup :: post) present w
    = syncAddress_desired link (mid ++ post) present w.
Proof.
  induction mid as [| addr mid IH]; intros present w Hkept.
  - cbn [app syncAddress_desired]. rewrite Hkept.
    rewrite insert_id by exact Hkept. reflexivity.
  - cbn [app syncAddress_desired].
    assert (Hkept' : <[net.IPNet_String (Some addr) := 2]> present
                       !! net.IPNet_String (Some dup) = Some 2).
    { rewrite lookup_insert. case_decide; [reflexivity | exact Hkept]. }
    destruct (present !! net.IPNet_String (Some addr)).
    + apply IH, Hkept'.
    + unfold bind. destruct (AddrAdd link _ w) as [[[] | e] w'];
        [apply IH, Hkept' | reflexivity].
Qed.

Lemma syncAddress_desired_duplicate (link : Link) (d d' : net.IPNet)
    (mid post : list net.IPNet) :
  net.IPNet_String (Some d') = net.IPNet_String (Some d) ->
  forall (pre : list net.IPNet) (present : gmap string Z) (w : W),
    syncAddress_desired link (pre ++ d :: mid ++ d' :: post) present w
    = syncAddress_desired link (pre ++ d :: mid ++ post) present w.
Proof.
  intros Hkey. induction pre as [| addr pre IH]; intros present w.
  - cbn [app syncAddress_desired].
    assert (Hkept : <[net.IPNet_String (Some d) := 2]> present
                      !! net.IPNet_String (Some d') = Some 2)
      by (rewrite Hkey; apply lookup_insert_eq).
    destruct (present !! net.IPNet_String (Some d)).
    + apply syncAddress_desired_kept, Hkept.
    + unfold bind. destruct (AddrAdd link _ w) as [[[] | e] w'];
        [apply syncAddress_desired_kept, Hkept | reflexivity].
  - cbn [app syncAddress_desired].
    destruct (present !! net.IPNet_String (Some addr)); [apply IH |].
    unfold bind. destruct (AddrAdd link _ w) as [[[] | e] w'];
      [apply IH | reflexivity].
Qed.

(** When the loop over the desired addresses ends well, each of them is
    marked kept. *)
Lemma syncAddress_desired_marks (link : Link) (desired : list net.IPNet) :
  forall (present present' : gmap string Z) (w w' : W),
    syncAddress_desired link desired present w = (Ok present', w') ->
    (forall d, d ∈ desired -> present' !! net.IPNet_String (Some d) = Some 2)
    /\ (forall k, present !! k = Some 2 -> present' !! k = Some 2).
Proof.
  induction desired as [| addr rest IH]; intros present present' w w' Hrun.
  - cbn in Hrun. injection Hrun as <- <-.
    split; [intros d Hd; inversion Hd | auto].
  - cbn [syncAddress_desired] in Hrun.
    assert (Hstep : exists w1,
               syncAddress_desired link rest
                 (<[net.IPNet_String (Some addr) := 2]> present) w1
               = (Ok present', w')).
    { destruct (present !! net.IPNet_String (Some addr)); [eauto |].
      unfold bind in Hrun.
      destruct (AddrAdd link _ w) as [[[] | e] w1]; [eauto | discriminate]. }
    destruct Hstep as (w1 & Hrest). destruct (IH _ _ _ _ Hrest) as [Hin Hkeep].
    split.
    + intros d Hd. apply elem_of_cons in Hd as [-> | Hd]; [| auto].
      apply Hkeep, lookup_insert_eq.
    + intros k Hk. apply Hkeep. rewrite lookup_insert.
      case_decide; [reflexivity | exact Hk].
Qed.

(** The removal loop acts on the entries whose flag is below 2 only. *)
Lemma syncAddress_extraneous_flagged (link : Link)
    (entries : list (string * Z)) (w : W) :
  syncAddress_extraneous link entries w
  = syncAddress_extraneous link (flagged_extraneous entries) w.
Proof.
  revert w. induction entries as [| [addr p] rest IH]; intros w;
    [reflexivity |].
  cbn [syncAddress_extraneous flagged_extraneous List.filter snd].
  fold (flagged_extraneous rest).
  destruct (p <? 2) eqn:Hp; [| apply IH].
  cbn [syncAddress_extraneous]. rewrite Hp.
  destruct (ParseAddr addr); [| reflexivity].
  unfold bind. destruct (AddrAdd link a w) as [[[] | e] w'];
    [apply IH | reflexivity].
Qed.

End address_reconciler.

Section address_reconciler_traced.

Context {W : Type} `{Host W}.

(** The calls of the loop over the desired addresses: one [AddrAdd] for
    each string that was not in the map, and no two for the same string. *)
Lemma syncAddress_desired_adds (link : Link) (desired : list net.IPNet) :
  forall present,
    emits (syncAddress_desired link desired present)
      (fun _ evs =>
         NoDup (map added_key evs) /\
         Forall (fun ev => exists k, added_key ev = Some k /\ present !! k = None)
           evs).
Proof.
  induction desired as [| addr rest IH]; intros present;
    cbn [syncAddress_desired].
  - apply emits_ret. split; constructor.
  - set (key := net.IPNet_String (Some addr)).
    destruct (present !! key) eqn:Hwas.
    + eapply emits_weaken; [apply IH |]. cbn beta.
      intros r evs [Hnd Hall]. split; [exact Hnd |].
      eapply Forall_impl; [exact Hall |]. cbn beta.
      intros ev (k & Hk & Hnone). exists k. split; [exact Hk |].
      apply lookup_insert_None in Hnone. tauto.
    + eapply emits_bind.
      * apply (emits_logged _ _ (fun _ evs =>
                 exists oe,
                   evs = [(CAddrAdd link {| IPNet := addr; Label := "" |}, oe)])).
        intros r. eauto.
      * intros a. apply IH.
      * cbn beta. intros e evs [oe ->]. split.
        -- repeat constructor. intros Hin. inversion Hin.
        -- repeat constructor. exists key. auto.
      * cbn beta. intros _ evs1 r evs2 [oe ->] [Hnd Hall]. cbn [app map].
        split.
        -- constructor; [| exact Hnd]. intros Hin.
           apply list_elem_of_In, in_map_iff in Hin as (ev & Hev & Hin).
           rewrite Forall_forall in Hall. apply list_elem_of_In in Hin.
           destruct (Hall ev Hin) as (k & Hk & Hnone).
           cbn in Hev. rewrite Hk in Hev. injection Hev as ->.
           apply lookup_insert_None in Hnone. tauto.
        -- constructor; [exists key; auto |].
           eapply Forall_impl; [exact Hall |]. cbn beta.
           intros ev (k & Hk & Hnone). exists k. split; [exact Hk |].
           apply lookup_insert_None in Hnone. tauto.
Qed.

Lemma adds_for_NoDup (s : string) (evs : list Event) :
  NoDup (map added_key evs) -> (adds_for s evs <= 1)%nat.
Proof.
  unfold adds_for. induction evs as [| ev evs IH]; intros Hnd; [cbn; lia |].
  cbn [map] in Hnd. apply NoDup_cons in Hnd as [Hnotin Hnd].
  cbn [List.filter]. case_bool_decide as Hkey; [| auto].
  cbn [length]. rewrite Hkey in Hnotin.
  assert (Hnone : List.filter
                    (fun ev => bool_decide (added_key ev = Some s)) evs = []).
  { clear -Hnotin. induction evs as [| ev' evs IH]; [reflexivity |].
    cbn [List.filter]. case_bool_decide as Hk.
    - exfalso. apply Hnotin. cbn [map]. rewrite Hk. left.
    - apply IH. intros Hin. apply Hnotin. cbn [map]. right. exact Hin. }
  rewrite Hnone. cbn. lia.
Qed.

(** C8: when two entries of the desired address list have the same
    canonical string, [syncAddress] treats the second as kept already:
    the run is the run without the second entry (same result, same host
    afterwards, so the duplicate makes no call and no failure); the loop
    over the desired addresses makes at most one [AddrAdd] for that
    string; and at the end of that loop the string is marked kept, which
    the removal loop passes over (it acts on flags below 2 only). *)
Theorem syncAddress_duplicate_is_kept
    (range_order : list (string * Z) -> list (string * Z))
    (link : Link) (cfg : Config) (pre mid post : list net.IPNet)
    (d d' : net.IPNet) :
  (forall l, range_order l ≡ₚ l) ->
  Address cfg = pre ++ d :: mid ++ d' :: post ->
  net.IPNet_String (Some d') = net.IPNet_String (Some d) ->
  (forall w : W,
      syncAddress range_order link cfg w
      = syncAddress range_order link
          (with_Address cfg (pre ++ d :: mid ++ post)) w) /\
  (forall (present : gmap string Z) (w : W),
      (adds_for (net.IPNet_String (Some d))
         (trace (syncAddress_desired link (Address cfg) present) w) <= 1)%nat) /\
  (forall (present present' : gmap string Z) (w w' : W),
      syncAddress_desired link (Address cfg) present w = (Ok present', w') ->
      present' !! net.IPNet_String (Some d) = Some 2 /\
      (forall p, (net.IPNet_String (Some d), p)
                 ∉ flagged_extraneous (range_order (map_to_list present'))) /\
      (forall w'' : W,
        syncAddress_extraneous link (range_order (map_to_list present')) w''
        = syncAddress_extraneous link
            (flagged_extraneous (range_order (map_to_list present'))) w'')).
Proof.
  intros Hperm Haddr Hkey. split; [| split].
  - intros w. unfold syncAddress. cbn [Address with_Address]. rewrite Haddr.
    unfold bind. destruct (AddrList link AF_INET w) as [[addrs | e] w1];
      [| reflexivity].
    rewrite syncAddress_desired_duplicate by exact Hkey. reflexivity.
  - intros present w.
    destruct (syncAddress_desired_adds link (Address cfg) present w [])
      as (evs & Htr & Hnd & _).
    unfold trace. rewrite Htr. apply adds_for_NoDup, Hnd.
  - intros present present' w w' Hrun.
    destruct (syncAddress_desired_marks link _ _ _ _ _ Hrun) as [Hin _].
    assert (Hkept : present' !! net.IPNet_String (Some d) = Some 2)
      by (apply Hin; rewrite Haddr; set_solver).
    split; [exact Hkept |]. split.
    + unfold flagged_extraneous. intros p Hmem.
      apply list_elem_of_In, filter_In in Hmem as [Hmem Hflag].
      apply list_elem_of_In in Hmem. rewrite Hperm in Hmem.
      apply elem_of_map_to_list in Hmem. rewrite Hkept in Hmem.
      injection Hmem as <-. cbn in Hflag. discriminate.
    + intros w''. apply syncAddress_extraneous_flagged.
Qed.

End address_reconciler_traced.

Lemma syncAddress_duplicate_is_kept_witness :
  let d := v4 10 0 0 2 24 in
  let d' := {| net.IP := net.IPv4 10 0 0 2; net.Mask := net.CIDRMask 24 32 |} in
  let cfg := config [d; v4 10 0 0 3 24; d'] [] in
  Address cfg = [] ++ d :: [v4 10 0 0 3 24] ++ d' :: [] /\
  net.IPNet_String (Some d') = net.IPNet_String (Some d) /\
  syncAddress id_order wg0 cfg (kernel_with [] [])
  = syncAddress id_order wg0
      (with_Address cfg ([] ++ d :: [v4 10 0 0 3 24] ++ [])) (kernel_with [] []).
Proof.
  split; [reflexivity |]. split; [reflexivity |].
  exact (proj1 (syncAddress_duplicate_is_kept (W := kernel.state) id_order wg0
                  (config [v4 10 0 0 2 24; v4 10 0 0 3 24;
                           {| net.IP := net.IPv4 10 0 0 2;
                              net.Mask := net.CIDRMask 24 32 |}] [])
                  [] [v4 10 0 0 3 24] [] (v4 10 0 0 2 24)
                  {| net.IP := net.IPv4 10 0 0 2; net.Mask := net.CIDRMask 24 32 |}
                  (fun l => reflexivity l) eq_refl eq_refl)
           (kernel_with [] [])).
Defined.

(** ** Scenario B of the spec, on the reference kernel *)

Section scenario_B.

(** C1, on the code: with desired [10.0.0.2/24] and observed
    [10.0.0.2/24, 192.168.1.1/24], [syncAddress] reads the addresses and
    then calls [AddrAdd] for 192.168.1.1/24 (line 199), which the kernel
    refuses as a duplicate.  It makes one add and no delete, the address
    stays on the interface, and the run fails. *)
Theorem syncAddress_scenario_B :
  let k := kernel_with [v4 10 0 0 2 24; v4 192 168 1 1 24] [] in
  let run := syncAddress id_order wg0 (config [v4 10 0 0 2 24] []) in
  let stale := {| IPNet := {| net.IP := net.IPv4 192 168 1 1;
                              net.Mask := [255; 255; 255; 0] |};
                  Label := "" |} in
  run (k, [])
  = (Err kernel.EEXIST,
     (k, [(CAddrList wg0 AF_INET, None);
          (CAddrAdd wg0 stale, Some kernel.EEXIST)])) /\
  net.IPNet_String (Some (IPNet stale)) = "192.168.1.1/24" /\
  length (List.filter is_AddrDel (trace run k)) = 0%nat /\
  length (List.filter is_AddrAdd (trace run k)) = 1%nat.
Proof. vm_compute. repeat split; reflexivity. Qed.

End scenario_B.

(** ** The route reconciler and a route without destination *)

Section nil_destination.

Context {W : Type} `{Host W}.
Variable range_order : list (string * Z) -> list (string * Z).
Hypothesis range_order_perm : forall l, range_order l ≡ₚ l.








End nil_destination.



(** ** Up *)

Section up.

Context {W : Type} `{Host W}.
Variable range_order : list (string * Z) -> list (string * Z).

(** Up is its phases one after the other, each started on the host the
    one before left, and the first error is the result. *)
Lemma Up_cascade (cfg : Config) (iface : string) (w : W) :
  Up range_order cfg iface w
  = match Up_link iface w with
    | (Err e, w) => (Err e, w)
    | (Ok link, w) =>
    match LinkSetUp link w with
    | (Err e, w) => (Err e, w)
    | (Ok _, w) =>
    match wireguardctrl_New w with
    | (Err e, w) => (Err e, w)
    | (Ok _, w) =>
    match ConfigureDevice iface (wgConfig cfg) w with
    | (Err e, w) => (Err e, w)
    | (Ok _, w) =>
    match syncAddress range_order link cfg w with
    | (Err e, w) => (Err e, w)
    | (Ok _, w) =>
    match syncRoutes range_order link cfg w with
    | (Err e, w) => (Err e, w)
    | (Ok _, w) => (Ok tt, w)
    end end end end end end.
Proof.
  unfold Up, bind, ret.
  destruct (Up_link iface w) as [[link | e] w0]; [| reflexivity].
  destruct (LinkSetUp link w0) as [[[] | e] w1]; [| reflexivity].
  destruct (wireguardctrl_New w1) as [[[] | e] w2]; [| reflexivity].
  destruct (ConfigureDevice iface (wgConfig cfg) w2) as [[[] | e] w3];
    [| reflexivity].
  destruct (syncAddress range_order link cfg w3) as [[[] | e] w4];
    [| reflexivity].
  destruct (syncRoutes range_order link cfg w4) as [[[] | e] w5]; reflexivity.
Qed.

Lemma in_phases_orderly (P : Call -> Prop) (p : nat) {A} (r : result A)
    (evs : list Event) :
  (forall c, P c -> phase c = p) -> orderly P r evs -> in_phases p p r evs.
Proof.
  intros HP [Hcalls Hfs]. split; [| split; [| exact Hfs]].
  - eapply Forall_impl; [exact Hcalls |]. intros ev Hev. rewrite (HP _ Hev). lia.
  - clear Hfs. induction Hcalls as [| ev evs Hev Hcalls IH]; [constructor |].
    constructor; [exact IH |].
    eapply Forall_impl; [exact Hcalls |]. intros ev' Hev'. cbn beta.
    rewrite (HP _ Hev), (HP _ Hev'). lia.
Qed.

Lemma in_phases_nil (lo hi : nat) {A} (r : result A) : in_phases lo hi r [].
Proof.
  split; [constructor |]. split; [constructor |].
  exists []. split; [constructor | left; reflexivity].
Qed.

Lemma in_phases_bind (lo mid mid' hi : nat) {A B}
    (m : M (W * list Event) A) (f : A -> M (W * list Event) B) :
  (lo <= mid)%nat -> (mid <= mid')%nat -> (mid' <= hi)%nat ->
  emits m (in_phases lo mid) -> (forall a, emits (f a) (in_phases mid' hi)) ->
  emits (bind m f) (in_phases lo hi).
Proof.
  intros Hlo Hmid Hhi Hm Hf.
  apply (emits_bind m f (in_phases lo mid) (fun _ => in_phases mid' hi));
    try assumption.
  - intros e evs (Hin & Hsorted & Hfs). split; [| split; [exact Hsorted |]].
    + eapply Forall_impl; [exact Hin |]. cbn beta. intros; lia.
    + eapply (orderly_err (fun _ => True)). split; [| exact Hfs].
      apply Forall_forall. auto.
  - intros a evs1 r evs2 (Hin1 & Hs1 & Hfs1) (Hin2 & Hs2 & Hfs2).
    split; [| split].
    + apply Forall_app. split.
      * eapply Forall_impl; [exact Hin1 |]. cbn beta. intros; lia.
      * eapply Forall_impl; [exact Hin2 |]. cbn beta. intros; lia.
    + apply StronglySorted_app_2; try assumption.
      intros x1 x2 Hx1 Hx2. rewrite Forall_forall in Hin1, Hin2.
      specialize (Hin1 _ Hx1). specialize (Hin2 _ Hx2). lia.
    + apply (orderly_app (fun _ => True) a r evs1 evs2).
      * split; [apply Forall_forall; auto | exact Hfs1].
      * split; [apply Forall_forall; auto | exact Hfs2].
Qed.

Lemma emits_in_phases_logged (p : nat) {A} (c : Call)
    (op : W -> result A * W) :
  phase c = p -> emits (logged c op) (in_phases p p).
Proof.
  intros Hp. eapply emits_weaken.
  - apply (emits_orderly_logged (fun c' => c' = c)). reflexivity.
  - intros r evs. apply in_phases_orderly. intros c' ->. exact Hp.
Qed.

Lemma address_call_phase (c : Call) : address_call c -> phase c = 3%nat.
Proof. destruct c; cbn; intros Hc; (contradiction || reflexivity). Qed.

Lemma route_call_phase (c : Call) : route_call c -> phase c = 4%nat.
Proof. destruct c; cbn; intros Hc; (contradiction || reflexivity). Qed.

(** Lines 130-159: what Up does once it has the link. *)
Lemma Up_after_link (cfg : Config) (iface : string) (link : Link) :
  emits (LinkSetUp link ;;;
         wireguardctrl_New ;;;
         ConfigureDevice iface (wgConfig cfg) ;;;
         syncAddress range_order link cfg ;;;
         syncRoutes range_order link cfg ;;;
         ret tt)
    (in_phases 1 4).
Proof.
  apply (in_phases_bind 1 1 2 4); try lia.
  { apply emits_in_phases_logged. reflexivity. }
  intros _. apply (in_phases_bind 2 2 2 4); try lia.
  { apply emits_in_phases_logged. reflexivity. }
  intros _. apply (in_phases_bind 2 2 3 4); try lia.
  { apply emits_in_phases_logged. reflexivity. }
  intros _. apply (in_phases_bind 3 3 4 4); try lia.
  { eapply emits_weaken; [apply syncAddress_orderly |].
    intros r evs. apply in_phases_orderly, address_call_phase. }
  intros _. apply (in_phases_bind 4 4 4 4); try lia.
  { eapply emits_weaken; [apply syncRoutes_orderly |].
    intros r evs. apply in_phases_orderly, route_call_phase. }
  intros _. apply emits_ret, in_phases_nil.
Qed.

Lemma Up_link_run (iface : string) :
  emits (Up_link iface) (link_run iface).
Proof.
  intros w tr. unfold Up_link. cbn. unfold logged.
  destruct (LinkByName iface w) as [[l | e0] w0]; cbn.
  { eexists. split; [reflexivity |]. constructor. }
  destruct (is_LinkNotFoundError e0) eqn:Hnf; cbn.
  2: { eexists. split; [reflexivity |]. constructor. exact Hnf. }
  destruct (LinkAdd _ w0) as [[[] | e] w1]; cbn.
  2: { eexists. split; [rewrite <- app_assoc; reflexivity |].
       constructor. exact Hnf. }
  destruct (exec_Run _ w1) as [rx w2]; cbn.
  destruct (LinkByName iface w2) as [r w3]; cbn.
  eexists. split; [rewrite <- !app_assoc; reflexivity |].
  constructor. exact Hnf.
Qed.

Lemma Up_run (cfg : Config) (iface : string) :
  emits (Up range_order cfg iface) (up_run iface).
Proof.
  unfold Up.
  eapply (emits_bind _ _ (link_run iface) (fun _ => in_phases 1 4)).
  - apply Up_link_run.
  - intros link. apply Up_after_link.
  - intros e evs Hlink. exists (Err e), evs, []. rewrite app_nil_r. auto.
  - intros l evs0 r evs1 Hlink Hrest. exists (Ok l), evs0, evs1. auto.
Qed.

Lemma link_run_phase (iface : string) (rl : result Link) (evs : list Event) :
  link_run iface rl evs -> Forall (fun ev => phase (fst ev) = 0%nat) evs.
Proof. intros Hrun. inversion Hrun; repeat constructor. Qed.

Lemma failstop_lookup {A} (r : result A) (evs : list Event) (j : nat)
    (c : Call) (e : error) :
  failstop r evs -> evs !! j = Some (c, Some e) ->
  S j = length evs /\ r = Err e.
Proof.
  intros (evs0 & Hok & Hcase) Hj.
  assert (Hnot : forall i, evs0 !! i = Some (c, Some e) -> False).
  { intros i Hi. unfold all_ok in Hok. rewrite Forall_lookup in Hok.
    specialize (Hok _ _ Hi). discriminate. }
  destruct Hcase as [-> | (c' & e' & -> & ->)]; [destruct (Hnot _ Hj) |].
  apply lookup_app_Some in Hj as [Hj | [Hlen Hj]]; [destruct (Hnot _ Hj) |].
  apply list_lookup_singleton_Some in Hj as [Hsub Heq].
  injection Heq as <- <-.
  rewrite length_app. cbn [length]. unfold Event in *.
  split; [lia | reflexivity].
Qed.

(** The calls of a run of Up come in the order of the phases, and one
    that fails is passed over by the source or ends the run. *)
Lemma up_run_calls (iface : string) (r : result unit) (evs : list Event) :
  up_run iface r evs ->
  phases_sorted evs /\
  (forall i c e,
      evs !! i = Some (c, Some e) ->
      passed_over i c e \/ (S i = length evs /\ r = Err e)).
Proof.
  intros (rl & evs0 & evs1 & -> & Hlink & Hrest).
  assert (Hrest' : Forall (fun ev => (1 <= phase (fst ev))%nat) evs1 /\
                   phases_sorted evs1 /\
                   forall j c e, evs1 !! j = Some (c, Some e) ->
                                 S j = length evs1 /\ r = Err e).
  { destruct rl as [l | e0].
    - destruct Hrest as (Hin & Hs & Hfs). split; [| split; [exact Hs |]].
      + eapply Forall_impl; [exact Hin |]. cbn beta. intros; lia.
      + intros j c e. apply failstop_lookup, Hfs.
    - destruct Hrest as [-> ->]. split; [constructor |].
      split; [constructor |]. intros j c e Hj. destruct j; discriminate. }
  destruct Hrest' as (Hge & Hs1 & Hfatal). split.
  - apply StronglySorted_app_2; [| | exact Hs1].
    + intros x1 x2 Hx1 Hx2. apply link_run_phase in Hlink.
      rewrite Forall_forall in Hlink, Hge.
      rewrite (Hlink _ Hx1). lia.
    + apply link_run_phase in Hlink. clear -Hlink.
      induction Hlink as [| ev evs Hev Hall IH]; constructor; [exact IH |].
      eapply Forall_impl; [exact Hall |]. cbn beta. intros ev' Hev'. lia.
  - intros i c e Hi.
    apply lookup_app_Some in Hi as [Hi | [Hlen Hi]].
    + inversion Hlink; subst; clear Hlink.
      * destruct i as [| [|]]; cbn in Hi; discriminate.
      * destruct i as [| [|]]; cbn in Hi; try discriminate.
        injection Hi as <- <-. right. destruct Hrest as [-> ->]. auto.
      * destruct i as [| [| [|]]]; cbn in Hi; try discriminate.
        -- injection Hi as <- <-. left. left. eauto.
        -- injection Hi as <- <-. right. destruct Hrest as [-> ->]. auto.
      * destruct i as [| [| [| [| [|]]]]]; cbn in Hi; try discriminate.
        -- injection Hi as <- <-. left. left. eauto.
        -- injection Hi as <- _. left. right. eauto.
        -- injection Hi as <- He. right.
           destruct rl as [l' | e']; cbn in He; [discriminate |].
           injection He as ->. destruct Hrest as [-> ->]. auto.
    + right. destruct (Hfatal _ _ _ Hi) as [Hlast ->].
      split; [| reflexivity]. rewrite length_app. unfold Event in *. lia.
Qed.

(** C4: Up runs its phases in the order ensure-interface, set-up,
    push-device-config, address-sync, route-sync: it is the cascade of
    them in which the first error is returned as it is and nothing more is
    run, and the calls written down come in the order of the phases.  A
    call that fails is the last call of the run and its error is the
    result of Up, but for the two failures the source passes over (the
    first lookup not finding the link, and [ip link add]).  In particular,
    when [ConfigureDevice] fails, Up returns its error and no call of
    [syncAddress] or [syncRoutes] is made. *)
Theorem Up_stops_at_first_failure (cfg : Config) (iface : string) (w : W) :
  Up range_order cfg iface w
  = match Up_link iface w with
    | (Err e, w) => (Err e, w)
    | (Ok link, w) =>
    match LinkSetUp link w with
    | (Err e, w) => (Err e, w)
    | (Ok _, w) =>
    match wireguardctrl_New w with
    | (Err e, w) => (Err e, w)
    | (Ok _, w) =>
    match ConfigureDevice iface (wgConfig cfg) w with
    | (Err e, w) => (Err e, w)
    | (Ok _, w) =>
    match syncAddress range_order link cfg w with
    | (Err e, w) => (Err e, w)
    | (Ok _, w) =>
    match syncRoutes range_order link cfg w with
    | (Err e, w) => (Err e, w)
    | (Ok _, w) => (Ok tt, w)
    end end end end end end /\
  phases_sorted (trace (Up range_order cfg iface) w) /\
  (forall i c e,
      trace (Up range_order cfg iface) w !! i = Some (c, Some e) ->
      passed_over i c e \/
      (S i = length (trace (Up range_order cfg iface) w) /\
       returned (Up range_order cfg iface) w = Err e)) /\
  (forall i name c e,
      trace (Up range_order cfg iface) w !! i
      = Some (CConfigureDevice name c, Some e) ->
      returned (Up range_order cfg iface) w = Err e /\
      Forall (fun ev => (phase (fst ev) <= 2)%nat)
        (trace (Up range_order cfg iface) w)).
Proof.
  split; [apply Up_cascade |].
  destruct (Up_run cfg iface w []) as (evs & Htr & Hrun).
  unfold trace, returned. rewrite Htr. cbn [app].
  destruct (up_run_calls _ _ _ Hrun) as [Hsorted Hfatal].
  split; [exact Hsorted |]. split; [exact Hfatal |].
  intros i name c e Hi.
  destruct (Hfatal _ _ _ Hi) as [[(_ & [n Hn] & _) | [argv Hx]] | [Hlast Hr]];
    try discriminate.
  split; [exact Hr |].
  apply Forall_lookup. intros j ev Hj. unfold Event in *.
  assert (Hji : (j <= i)%nat)
    by (apply lookup_lt_Some in Hj; unfold Event in *; lia).
  destruct (decide (j = i)) as [-> | Hne].
  - rewrite Hi in Hj. injection Hj as <-. cbn. lia.
  - rewrite <- (take_drop_middle _ _ _ Hi) in Hsorted, Hj.
    assert (Hjl : (j < length (take i evs))%nat)
      by (rewrite length_take; apply lookup_lt_Some in Hi;
          unfold Event in *; lia).
    rewrite lookup_app_l in Hj by exact Hjl.
    apply (StronglySorted_app_1_elem_of _ _ _ ev (CConfigureDevice name c, Some e))
      in Hsorted.
    + cbn in Hsorted. exact Hsorted.
    + eapply list_elem_of_lookup_2. exact Hj.
    + left.
Qed.

End up.

(** ** The reconcilers on the reference kernel *)

Section desired_loops.

Context {W : Type} `{Host W}.

Lemma syncAddress_desired_mark (link : Link) (desired : list net.IPNet) :
  forall present w,
    syncAddress_desired link desired present w
    = mark_desired (fun a => AddrAdd link {| IPNet := a; Label := "" |})
        desired present w.
Proof.
  induction desired as [| d rest IH]; intros present w; [reflexivity |].
  cbn [syncAddress_desired mark_desired]. unfold key.
  destruct (present !! net.IPNet_String (Some d)); [apply IH |].
  unfold bind. destruct (AddrAdd link _ w) as [[[] | e] w'];
    [apply IH | reflexivity].
Qed.

Lemma syncRoutes_allowed_mark (link : Link) (allowed : list net.IPNet) :
  forall present w,
    syncRoutes_allowed link allowed present w
    = mark_desired
        (fun rt => RouteAdd {| LinkIndex := Index link; Dst := Some rt |})
        allowed present w.
Proof.
  induction allowed as [| d rest IH]; intros present w; [reflexivity |].
  cbn [syncRoutes_allowed mark_desired]. unfold key.
  destruct (present !! net.IPNet_String (Some d)); [apply IH |].
  unfold bind. destruct (RouteAdd _ w) as [[[] | e] w'];
    [apply IH | reflexivity].
Qed.

Lemma mark_desired_app (add : net.IPNet -> M W unit)
    (l1 l2 : list net.IPNet) :
  forall present w,
    mark_desired add (l1 ++ l2) present w
    = (present' <- mark_desired add l1 present ;;
       mark_desired add l2 present') w.
Proof.
  induction l1 as [| d rest IH]; intros present w; [reflexivity |].
  cbn [app mark_desired].
  destruct (present !! key d).
  - apply IH.
  - unfold bind. destruct (add d w) as [[[] | e] w'];
      [rewrite IH; reflexivity | reflexivity].
Qed.

(** The loop over the peers is the loop over all their allowed-IPs. *)
Lemma syncRoutes_peers_mark (link : Link) (peers : list wgtypes.PeerConfig) :
  forall present w,
    syncRoutes_peers link peers present w
    = mark_desired
        (fun rt => RouteAdd {| LinkIndex := Index link; Dst := Some rt |})
        (concat (map wgtypes.AllowedIPs peers)) present w.
Proof.
  induction peers as [| peer rest IH]; intros present w; [reflexivity |].
  cbn [syncRoutes_peers map concat]. rewrite mark_desired_app.
  unfold bind. rewrite syncRoutes_allowed_mark.
  destruct (mark_desired _ (wgtypes.AllowedIPs peer) present w)
    as [[p1 | e] w1]; [apply IH | reflexivity].
Qed.

(** When every desired string is in the map, the loop makes no call. *)
Lemma mark_desired_present (add : net.IPNet -> M W unit)
    (desired : list net.IPNet) :
  forall present w,
    (forall d, d ∈ desired -> is_Some (present !! key d)) ->
    exists present',
      mark_desired add desired present w = (Ok present', w) /\
      (forall s, is_Some (present' !! s) <-> is_Some (present !! s)) /\
      (forall d, d ∈ desired -> present' !! key d = Some 2) /\
      (forall s, present' !! s = Some 2 \/ present' !! s = present !! s).
Proof.
  induction desired as [| d rest IH]; intros present w Hall.
  - exists present. cbn. split; [reflexivity |]. split; [tauto |].
    split; [intros d Hd; inversion Hd | auto].
  - cbn [mark_desired].
    destruct (Hall d) as [v Hv]; [left |]. rewrite Hv.
    destruct (IH (<[key d := 2]> present) w) as (p' & Hrun & Hdom & Hmark & Hval).
    { intros d' Hd'. rewrite lookup_insert. case_decide; [eauto |].
      apply Hall. right. exact Hd'. }
    exists p'. split; [exact Hrun |]. split; [| split].
    + intros s. rewrite Hdom, lookup_insert.
      case_decide as Hs; [subst s; rewrite Hv; split; eauto | tauto].
    + intros d' Hd'. apply elem_of_cons in Hd' as [-> | Hd']; [| auto].
      destruct (Hval (key d)) as [H2 | Hsame]; [exact H2 |].
      rewrite Hsame. apply lookup_insert_eq.
    + intros s. destruct (Hval s) as [H2 | Hsame]; [auto |].
      rewrite Hsame, lookup_insert. case_decide; auto.
Qed.

End desired_loops.

Section kernel_fields.




Lemma elem_of_keys (s : string) (l : list net.IPNet) :
  s ∈ keys l <-> exists d, d ∈ l /\ key d = s.
Proof.
  unfold keys. rewrite list_elem_of_In, in_map_iff.
  split.
  - intros (d & Hk & Hd). exists d. rewrite list_elem_of_In. auto.
  - intros (d & Hd & Hk). exists d. rewrite <- list_elem_of_In. auto.
Qed.


(** A list of prefixes of the kernel's state: how to read it, how to
    replace it, and the call that adds to it. *)
Variable get : kernel.state -> list net.IPNet.
Variable upd : list net.IPNet -> kernel.state -> kernel.state.
Variable add : net.IPNet -> M kernel.state unit.
Hypothesis get_upd : forall l k, get (upd l k) = l.
Hypothesis upd_get : forall k, upd (get k) k = k.
Hypothesis upd_upd : forall l l' k, upd l (upd l' k) = upd l k.
Hypothesis add_spec : forall d k,
  add d k = match kernel.add_prefix kernel.EEXIST d (get k) with
            | Ok l => (Ok tt, upd l k)
            | Err e => (Err e, k)
            end.


End kernel_fields.

Section removal_loops.

Context {W : Type} `{Host W}.

Lemma present_lookup {A} (f : A -> string) (l : list A) :
  forall (m0 : gmap string Z) (s : string),
    foldl (fun m x => <[f x := 1]> m) m0 l !! s
    = if decide (s ∈ map f l) then Some 1 else m0 !! s.
Proof.
  induction l as [| x l IH]; intros m0 s; cbn [foldl map].
  - case_decide as Hin; [inversion Hin | reflexivity].
  - rewrite IH. rewrite lookup_insert.
    repeat case_decide; try reflexivity.
    + exfalso. match goal with Hn : ¬ _ ∈ _ :: _ |- _ => apply Hn end.
      right. assumption.
    + exfalso. match goal with Hn : ¬ _ ∈ _ :: _ |- _ => apply Hn end.
      subst. left.
    + exfalso.
      match goal with Hi : _ ∈ _ :: _ |- _ => apply elem_of_cons in Hi as [? | ?] end;
        [congruence | contradiction].
Qed.

(** With every flag at 2, the removal loop of [syncAddress] does nothing. *)
Lemma syncAddress_extraneous_kept (link : Link) (entries : list (string * Z)) :
  (forall s p, (s, p) ∈ entries -> 2 <= p) ->
  forall w : W, syncAddress_extraneous link entries w = (Ok tt, w).
Proof.
  induction entries as [| [s p] rest IH]; intros Hall w; [reflexivity |].
  cbn [syncAddress_extraneous].
  assert (Hp : (p <? 2) = false) by (apply Z.ltb_ge, (Hall s p); left).
  rewrite Hp. apply IH. intros s' p' Hin. apply (Hall s' p'). right. exact Hin.
Qed.

(** With every flag at 2 and every string parsing, so does the removal
    loop of [syncRoutes]. *)
Lemma syncRoutes_extraneous_kept (link : Link) (entries : list (string * Z)) :
  (forall s p, (s, p) ∈ entries ->
               2 <= p /\ is_err (net.ParseCIDR s) = false) ->
  forall w : W, syncRoutes_extraneous link entries w = (Ok tt, w).
Proof.
  induction entries as [| [s p] rest IH]; intros Hall w; [reflexivity |].
  cbn [syncRoutes_extraneous].
  destruct (Hall s p) as [Hp Hparse]; [left |].
  destruct (net.ParseCIDR s) as [[ip rt] | e]; [| discriminate].
  apply Z.ltb_ge in Hp. rewrite Hp.
  apply IH. intros s' p' Hin. apply (Hall s' p'). right. exact Hin.
Qed.

End removal_loops.

Section removal_on_kernel.

Variable link : Link.




Lemma elem_of_extraneous_keys (s : string) (entries : list (string * Z)) :
  s ∈ extraneous_keys entries <-> exists p, (s, p) ∈ entries /\ p < 2.
Proof.
  unfold extraneous_keys, flagged_extraneous.
  rewrite list_elem_of_In, in_map_iff. split.
  - intros ([s' p] & Hs & Hin). cbn in Hs. subst s'.
    apply filter_In in Hin as [Hin Hp]. cbn in Hp. apply Z.ltb_lt in Hp.
    exists p. rewrite list_elem_of_In. auto.
  - intros (p & Hin & Hp). exists (s, p). split; [reflexivity |].
    apply filter_In. rewrite <- list_elem_of_In. split; [exact Hin |].
    cbn. apply Z.ltb_lt. exact Hp.
Qed.


End removal_on_kernel.

(** ** IPv4 prefixes and their strings *)

Section ipv4_strings.

Lemma uitoa_byte (a : Z) : 0 <= a < 256 -> decimal_ok a = true.
Proof.
  apply (range_cases (fun a => decimal_ok a = true) 256).
  vm_compute. reflexivity.
Qed.

Lemma digits_value_le (s : string) :
  forall n, 0 <= n -> all_digits s = true -> n <= digits_value s n.
Proof.
  induction s as [| c s IH]; intros n Hn Hs;
    cbn [all_digits digits_value] in *; [lia |].
  apply andb_prop in Hs as [Hc Hs]. unfold net.is_digit in Hc.
  apply andb_prop in Hc as [Hlo Hhi].
  apply Z.leb_le in Hlo, Hhi.
  specialize (IH (n * 10 + (gostr.code c - 48)) ltac:(lia) Hs). lia.
Qed.

Lemma dtoi_loop_digits (s rest : string) :
  forall n i,
    0 <= n -> 0 <= i -> all_digits s = true ->
    digits_value s n < net.big ->
    net.dtoi_loop (s +:+ rest) n i
    = net.dtoi_loop rest (digits_value s n) (i + gostr.len s).
Proof.
  induction s as [| c s IH]; intros n i Hn Hi Hs Hbig.
  - cbn. rewrite Z.add_0_r. reflexivity.
  - change (String c s +:+ rest) with (String c (s +:+ rest)).
    cbn [net.dtoi_loop digits_value] in *.
    cbn [all_digits] in Hs. apply andb_prop in Hs as [Hc Hs]. rewrite Hc.
    assert (Hd : 0 <= gostr.code c - 48).
    { unfold net.is_digit in Hc. apply andb_prop in Hc as [Hlo _].
      apply Z.leb_le in Hlo. lia. }
    pose proof (digits_value_le s (n * 10 + (gostr.code c - 48))
                  ltac:(lia) Hs) as Hle.
    destruct (net.big <=? n * 10 + (gostr.code c - 48)) eqn:Hov;
      [apply Z.leb_le in Hov; lia |].
    rewrite IH by (try assumption; lia).
    f_equal. unfold gostr.len. cbn [String.length]. lia.
Qed.

Lemma dtoi_loop_stops (rest : string) (n i : Z) :
  stops rest -> 0 < i -> net.dtoi_loop rest n i = (n, i, true).
Proof.
  intros Hrest Hi.
  assert (Hz : (i =? 0) = false) by (apply Z.eqb_neq; lia).
  destruct rest as [| c r]; cbn [stops net.dtoi_loop] in *;
    [| rewrite Hrest]; rewrite Hz; reflexivity.
Qed.

Lemma uitoa_decimal (a : Z) :
  0 <= a < 256 ->
  all_digits (net.uitoa a) = true /\
  digits_value (net.uitoa a) 0 = a /\
  0 < gostr.len (net.uitoa a) /\
  ((1 <? gostr.len (net.uitoa a)) && leading_zero (net.uitoa a) = false) /\
  without "/" (net.uitoa a) = true /\
  without " " (net.uitoa a) = true.
Proof.
  intros Ha. pose proof (uitoa_byte a Ha) as Hok.
  unfold decimal_ok in Hok. cbv zeta in Hok.
  rewrite !andb_true_iff in Hok.
  destruct Hok as [[[[[[H1 H2] H3] H4] H5] H6] H7].
  apply Z.eqb_eq in H2. apply Z.ltb_lt in H3.
  apply negb_true_iff in H5. auto 10.
Qed.

(** The decimal digits of a byte, read back. *)
Lemma dtoi_uitoa (a : Z) (rest : string) :
  0 <= a < 256 -> stops rest ->
  net.dtoi (net.uitoa a +:+ rest) = (a, gostr.len (net.uitoa a), true).
Proof.
  intros Ha Hrest.
  destruct (uitoa_decimal a Ha) as (Hdigits & Hvalue & Hlen & _).
  unfold net.dtoi. rewrite dtoi_loop_digits; [| lia | lia | exact Hdigits | ].
  - rewrite Hvalue, dtoi_loop_stops; [reflexivity | exact Hrest | lia].
  - rewrite Hvalue. unfold net.big. lia.
Qed.

Lemma append_cons (c : ascii) (s r : string) :
  String c s +:+ r = String c (s +:+ r).
Proof. reflexivity. Qed.

Lemma append_empty_l (r : string) : "" +:+ r = r.
Proof. reflexivity. Qed.

Lemma append_empty_r (s : string) : s +:+ "" = s.
Proof.
  induction s as [| c s IH]; [reflexivity |].
  rewrite append_cons, IH. reflexivity.
Qed.

Lemma append_assoc (s1 s2 s3 : string) :
  (s1 +:+ s2) +:+ s3 = s1 +:+ (s2 +:+ s3).
Proof.
  induction s1 as [| c s1 IH]; [reflexivity |].
  rewrite !append_cons, IH. reflexivity.
Qed.

Lemma len_append (s1 s2 : string) :
  gostr.len (s1 +:+ s2) = gostr.len s1 + gostr.len s2.
Proof.
  unfold gostr.len. induction s1 as [| c s1 IH];
    rewrite ?append_cons, ?append_empty_l; cbn [String.length]; lia.
Qed.

Lemma len_nonneg (s : string) : 0 <= gostr.len s.
Proof. unfold gostr.len. lia. Qed.

Lemma drop_append (s1 s2 : string) :
  gostr.drop (Z.to_nat (gostr.len s1)) (s1 +:+ s2) = s2.
Proof.
  unfold gostr.len. rewrite Nat2Z.id.
  induction s1 as [| c s1 IH]; rewrite ?append_cons, ?append_empty_l;
    cbn [String.length gostr.drop]; [destruct s2; reflexivity | exact IH].
Qed.

Lemma take_append (s1 s2 : string) :
  gostr.take (Z.to_nat (gostr.len s1)) (s1 +:+ s2) = s1.
Proof.
  unfold gostr.len. rewrite Nat2Z.id.
  induction s1 as [| c s1 IH]; rewrite ?append_cons, ?append_empty_l;
    cbn [String.length gostr.take]; [reflexivity | rewrite IH; reflexivity].
Qed.

Lemma without_append (c : ascii) (s1 s2 : string) :
  without c (s1 +:+ s2) = without c s1 && without c s2.
Proof.
  induction s1 as [| a s1 IH]; rewrite ?append_cons, ?append_empty_l;
    cbn [without]; [reflexivity |].
  rewrite IH, andb_assoc. reflexivity.
Qed.

Lemma IndexByte_append (c : ascii) (s1 s2 : string) :
  without c s1 = true ->
  gostr.IndexByte (s1 +:+ String c s2) c = gostr.len s1.
Proof.
  induction s1 as [| a s1 IH]; intros Hs1.
  - rewrite append_empty_l. cbn [gostr.IndexByte].
    rewrite Ascii.eqb_refl. reflexivity.
  - cbn [without] in Hs1. apply andb_prop in Hs1 as [Ha Hs1].
    apply negb_true_iff in Ha.
    change (String a s1 +:+ String c s2) with (String a (s1 +:+ String c s2)).
    cbn [gostr.IndexByte]. rewrite Ha, (IH Hs1).
    pose proof (len_nonneg s1) as Hlen.
    destruct (gostr.len s1 <? 0) eqn:Hneg; [apply Z.ltb_lt in Hneg; lia |].
    unfold gostr.len. cbn [String.length]. lia.
Qed.

Lemma Split_space_without (s : string) :
  forall cur, without " " s = true -> Split_space s cur = [cur +:+ s].
Proof.
  induction s as [| c s IH]; intros cur Hs.
  - cbn [Split_space]. rewrite append_empty_r. reflexivity.
  - cbn [without] in Hs. apply andb_prop in Hs as [Hc Hs].
    apply negb_true_iff in Hc. cbn [Split_space]. rewrite Hc, (IH _ Hs).
    rewrite append_assoc. reflexivity.
Qed.

Lemma leading_zero_append (s rest : string) :
  0 < gostr.len s -> leading_zero (s +:+ rest) = leading_zero s.
Proof.
  destruct s; [unfold gostr.len; cbn [String.length]; lia | reflexivity].
Qed.

(** One octet of [parseIPv4]: the first, and one after a dot. *)
Lemma parseIPv4_loop_octet (k : nat) (i a : Z) (rest : string) (p : list Z) :
  0 <= a < 256 -> stops rest ->
  net.parseIPv4_loop (S k) i
    (if 0 <? i then String "." (net.uitoa a +:+ rest) else net.uitoa a +:+ rest) p
  = net.parseIPv4_loop k (i + 1) rest (p ++ [a]).
Proof.
  intros Ha Hrest.
  destruct (uitoa_decimal a Ha) as (Hdigits & Hvalue & Hlen & Hzero & _).
  cbn [net.parseIPv4_loop].
  assert (Hne : (gostr.len (if 0 <? i
                            then String "." (net.uitoa a +:+ rest)
                            else net.uitoa a +:+ rest) =? 0) = false).
  { apply Z.eqb_neq. pose proof (len_nonneg rest).
    destruct (0 <? i); [change (String "." ?x) with ("." +:+ x) |];
      rewrite !len_append; [unfold gostr.len at 1; cbn |]; lia. }
  rewrite Hne.
  assert (Hs1 : (if 0 <? i
                 then match (if 0 <? i
                             then String "." (net.uitoa a +:+ rest)
                             else net.uitoa a +:+ rest) with
                      | String "." r => Some r
                      | _ => None
                      end
                 else Some (if 0 <? i
                            then String "." (net.uitoa a +:+ rest)
                            else net.uitoa a +:+ rest))
                = Some (net.uitoa a +:+ rest))
    by (destruct (0 <? i); reflexivity).
  rewrite Hs1. rewrite (dtoi_uitoa a rest Ha Hrest). cbn [negb orb].
  assert (Hhi : (255 <? a) = false) by (apply Z.ltb_ge; lia). rewrite Hhi.
  change (match net.uitoa a +:+ rest with
          | String "0" _ => true | _ => false end)
    with (leading_zero (net.uitoa a +:+ rest)).
  rewrite leading_zero_append by exact Hlen. rewrite Hzero.
  rewrite drop_append. reflexivity.
Qed.

Lemma parseIPv4_loop_first (k : nat) (a : Z) (rest : string) (p : list Z) :
  0 <= a < 256 -> stops rest ->
  net.parseIPv4_loop (S k) 0 (net.uitoa a +:+ rest) p
  = net.parseIPv4_loop k 1 rest (p ++ [a]).
Proof. intros Ha Hrest. exact (parseIPv4_loop_octet k 0 a rest p Ha Hrest). Qed.

Lemma parseIPv4_loop_next (k : nat) (i a : Z) (rest : string) (p : list Z) :
  0 < i -> 0 <= a < 256 -> stops rest ->
  net.parseIPv4_loop (S k) i (String "." (net.uitoa a +:+ rest)) p
  = net.parseIPv4_loop k (i + 1) rest (p ++ [a]).
Proof.
  intros Hi Ha Hrest.
  pose proof (parseIPv4_loop_octet k i a rest p Ha Hrest) as Hstep.
  apply Z.ltb_lt in Hi. rewrite Hi in Hstep. exact Hstep.
Qed.

Lemma parseIPv4_dotted (a b c d : Z) :
  0 <= a < 256 -> 0 <= b < 256 -> 0 <= c < 256 -> 0 <= d < 256 ->
  net.parseIPv4 (dotted a b c d) = Some (net.IPv4 a b c d).
Proof.
  intros Ha Hb Hc Hd. unfold net.parseIPv4, dotted.
  rewrite <- (append_empty_r (net.uitoa d)).
  rewrite (parseIPv4_loop_first 3 a _ [] Ha) by reflexivity.
  rewrite !append_cons, !append_empty_l.
  rewrite (parseIPv4_loop_next 2 1 b _ _ ltac:(lia) Hb) by reflexivity.
  rewrite (parseIPv4_loop_next 1 2 c _ _ ltac:(lia) Hc) by reflexivity.
  rewrite (parseIPv4_loop_next 0 3 d "" _ ltac:(lia) Hd) by exact I.
  reflexivity.
Qed.

Lemma drop_append_cons (s1 s2 : string) (c : ascii) :
  gostr.drop (Z.to_nat (gostr.len s1 + 1)) (s1 +:+ String c s2) = s2.
Proof.
  replace (s1 +:+ String c s2) with ((s1 +:+ String c "") +:+ s2)
    by (rewrite append_assoc; reflexivity).
  replace (gostr.len s1 + 1) with (gostr.len (s1 +:+ String c ""))
    by (rewrite len_append; reflexivity).
  apply drop_append.
Qed.

Lemma without_dotted (x : ascii) (a b c d : Z) :
  without x "." = true ->
  without x (net.uitoa a) = true -> without x (net.uitoa b) = true ->
  without x (net.uitoa c) = true -> without x (net.uitoa d) = true ->
  without x (dotted a b c d) = true.
Proof.
  intros Hdot Ha Hb Hc Hd. unfold dotted.
  rewrite !without_append, Ha, Hb, Hc, Hd, Hdot. reflexivity.
Qed.

Lemma CIDRMask_32 (l : Z) :
  0 <= l <= 32 ->
  net.blen (net.CIDRMask l 32) = 4 /\
  net.simpleMaskLength (net.CIDRMask l 32) = l.
Proof.
  intros Hl.
  assert (Hok : mask32_ok l = true).
  { apply (range_cases (fun l => mask32_ok l = true) 33); [| lia].
    vm_compute. reflexivity. }
  unfold mask32_ok in Hok. apply andb_prop in Hok as [H1 H2].
  apply Z.eqb_eq in H1, H2. auto.
Qed.

(** The canonical string of an IPv4 prefix. *)
Lemma key_v4 (a b c d l : Z) :
  0 <= l <= 32 ->
  key (v4 a b c d l) = dotted a b c d +:+ "/" +:+ net.uitoa l.
Proof.
  intros Hl. destruct (CIDRMask_32 l Hl) as [Hlen Hones].
  unfold key, net.IPNet_String, net.networkNumberAndMask, v4.
  cbn [net.IP net.Mask].
  change (net.To4 [a; b; c; d]) with (Some [a; b; c; d]).
  rewrite Hlen. cbv iota beta.
  change (4 =? net.IPv4len) with true.
  change (net.blen [a; b; c; d] =? net.IPv4len) with true. cbv iota.
  rewrite Hones.
  destruct (l =? -1) eqn:Hneg; [apply Z.eqb_eq in Hneg; lia |].
  reflexivity.
Qed.

Lemma ParseCIDR_dotted (a b c d l : Z) :
  0 <= a < 256 -> 0 <= b < 256 -> 0 <= c < 256 -> 0 <= d < 256 ->
  0 <= l <= 32 ->
  net.ParseCIDR (dotted a b c d +:+ "/" +:+ net.uitoa l)
  = Ok (net.IPv4 a b c d,
        {| net.IP := net.IP_Mask (net.IPv4 a b c d) (net.CIDRMask l 32);
           net.Mask := net.CIDRMask l 32 |}).
Proof.
  intros Ha Hb Hc Hd Hl.
  assert (Hslash : without "/" (dotted a b c d) = true).
  { apply without_dotted; [reflexivity | | | |];
      apply uitoa_decimal; assumption. }
  unfold net.ParseCIDR. rewrite append_cons, append_empty_l.
  rewrite (IndexByte_append "/" _ _ Hslash).
  pose proof (len_nonneg (dotted a b c d)) as Hlen.
  destruct (gostr.len (dotted a b c d) <? 0) eqn:Hneg;
    [apply Z.ltb_lt in Hneg; lia |].
  rewrite take_append, drop_append_cons.
  rewrite (parseIPv4_dotted a b c d Ha Hb Hc Hd).
  rewrite <- (append_empty_r (net.uitoa l)) at 1.
  rewrite (dtoi_uitoa l "" ltac:(lia) I).
  rewrite Z.eqb_refl. cbn [negb orb].
  assert (Hlo : (l <? 0) = false) by (apply Z.ltb_ge; lia).
  assert (Hhi : (8 * net.IPv4len <? l) = false)
    by (apply Z.ltb_ge; unfold net.IPv4len; lia).
  rewrite Hlo, Hhi. reflexivity.
Qed.

Lemma IP_Mask_IPv4 (a b c d : Z) (m : list Z) :
  net.blen m = 4 ->
  net.IP_Mask (net.IPv4 a b c d) m = net.IP_Mask [a; b; c; d] m.
Proof.
  intros Hm. unfold net.blen in Hm.
  destruct m as [| m0 [| m1 [| m2 [| m3 [| m4 m]]]]];
    cbn [length] in Hm; try lia.
  reflexivity.
Qed.

(** An IPv4 address with its prefix length is read back from its string
    as the kernel holds it. *)
Lemma addr_parses_back_v4 (a b c d l : Z) :
  0 <= a < 256 -> 0 <= b < 256 -> 0 <= c < 256 -> 0 <= d < 256 ->
  0 <= l <= 32 ->
  kernel.addr_parses_back (v4 a b c d l) = true.
Proof.
  intros Ha Hb Hc Hd Hl. unfold kernel.addr_parses_back.
  fold (key (v4 a b c d l)). rewrite (key_v4 a b c d l Hl).
  assert (Hspace : without " " (dotted a b c d +:+ "/" +:+ net.uitoa l) = true).
  { rewrite !without_append.
    rewrite without_dotted by (try reflexivity; apply uitoa_decimal; assumption).
    destruct (uitoa_decimal l ltac:(lia)) as (_ & _ & _ & _ & _ & ->).
    reflexivity. }
  unfold ParseAddr. rewrite (Split_space_without _ "" Hspace).
  unfold ParseIPNet.
  rewrite (ParseCIDR_dotted a b c d l Ha Hb Hc Hd Hl).
  cbn [net.Mask IPNet]. apply bool_decide_eq_true_2.
  destruct (CIDRMask_32 l Hl) as [Hlen Hones].
  unfold kernel.prefix_of. cbn [net.IP net.Mask].
  change (net.To4 (net.IPv4 a b c d)) with (Some [a; b; c; d]). cbv iota beta.
  unfold net.IPMask_Size. rewrite Hones, Hlen.
  destruct (l =? -1) eqn:Hneg; [apply Z.eqb_eq in Hneg; lia |].
  cbn [fst]. change (8 * net.blen [a; b; c; d]) with 32.
  destruct (l <=? 32) eqn:Hle; [reflexivity | apply Z.leb_gt in Hle; lia].
Qed.

(** And so is an IPv4 route whose destination has no bit set after its
    prefix length. *)
Lemma route_parses_back_v4 (a b c d l : Z) :
  0 <= a < 256 -> 0 <= b < 256 -> 0 <= c < 256 -> 0 <= d < 256 ->
  0 <= l <= 32 ->
  net.IP_Mask [a; b; c; d] (net.CIDRMask l 32) = [a; b; c; d] ->
  kernel.route_parses_back (v4 a b c d l) = true.
Proof.
  intros Ha Hb Hc Hd Hl Hnet. unfold kernel.route_parses_back.
  fold (key (v4 a b c d l)). rewrite (key_v4 a b c d l Hl).
  rewrite (ParseCIDR_dotted a b c d l Ha Hb Hc Hd Hl).
  destruct (CIDRMask_32 l Hl) as [Hlen Hones].
  rewrite (IP_Mask_IPv4 a b c d _ Hlen), Hnet.
  apply bool_decide_eq_true_2.
  unfold kernel.prefix_of. cbn [net.IP net.Mask].
  change (net.To4 [a; b; c; d]) with (Some [a; b; c; d]). cbv iota beta.
  unfold net.IPMask_Size. rewrite Hones, Hlen.
  destruct (l =? -1) eqn:Hneg; [apply Z.eqb_eq in Hneg; lia |].
  cbn [fst]. change (8 * net.blen [a; b; c; d]) with 32.
  destruct (l <=? 32) eqn:Hle; [reflexivity | apply Z.leb_gt in Hle; lia].
Qed.

(** An IPv4 prefix of the configuration, its address in 4 bytes or in 16,
    goes to the kernel as it is listed. *)
Lemma ipv4_prefix_v4 (a b c d l : Z) :
  0 <= l <= 32 -> kernel.ipv4_prefix (v4 a b c d l) = true.
Proof.
  intros Hl. destruct (CIDRMask_32 l Hl) as [Hlen Hones].
  unfold kernel.ipv4_prefix, kernel.prefix_of, v4. cbn [net.IP net.Mask].
  change (net.To4 [a; b; c; d]) with (Some [a; b; c; d]). cbv iota beta.
  unfold net.IPMask_Size. rewrite Hones, Hlen.
  destruct (l =? -1) eqn:Hneg; [apply Z.eqb_eq in Hneg; lia |].
  cbn [fst]. change (8 * net.blen [a; b; c; d]) with 32.
  destruct (l <=? 32) eqn:Hle; [| apply Z.leb_gt in Hle; lia].
  rewrite String.eqb_refl. reflexivity.
Qed.

(** Such a prefix is listed with its destination, if its length is not 0. *)
Lemma listed_with_dst_v4 (a b c d l : Z) :
  1 <= l <= 32 -> kernel.listed_with_dst (v4 a b c d l) = true.
Proof.
  intros Hl. destruct (CIDRMask_32 l ltac:(lia)) as [Hlen Hones].
  unfold kernel.listed_with_dst, kernel.prefix_of, v4. cbn [net.IP net.Mask].
  change (net.To4 [a; b; c; d]) with (Some [a; b; c; d]). cbv iota beta.
  unfold net.IPMask_Size. rewrite Hones, Hlen.
  destruct (l =? -1) eqn:Hneg; [apply Z.eqb_eq in Hneg; lia |].
  cbn [fst]. change (8 * net.blen [a; b; c; d]) with 32.
  destruct (l <=? 32) eqn:Hle; [| apply Z.leb_gt in Hle; lia].
  apply bool_decide_eq_true_2. unfold kernel.listed_dst. cbn [net.Mask].
  unfold net.IPMask_Size. rewrite Hones, Hneg. cbn [fst].
  destruct (l =? 0) eqn:Hz; [apply Z.eqb_eq in Hz; lia | reflexivity].
Qed.

Lemma ipv4_prefix_addresses (l : list net.IPNet) :
  Forall ipv4_address l -> forallb kernel.ipv4_prefix l = true.
Proof.
  intros Hl. apply forallb_forall. intros n Hn.
  rewrite Forall_forall in Hl. apply list_elem_of_In, Hl in Hn.
  destruct Hn. apply ipv4_prefix_v4. assumption.
Qed.

(** A kernel whose IPv4 addresses and routes are such prefixes is well
    formed. *)
Lemma wf_ipv4 (k : kernel.state) :
  (forall a, a ∈ kernel.listed AF_INET (kernel.addrs k) -> ipv4_address a) ->
  (forall r, r ∈ kernel.listed AF_INET (kernel.routes k) -> ipv4_route r) ->
  kernel.wf k = true.
Proof.
  intros Haddrs Hroutes. unfold kernel.wf, kernel.wf_addrs, kernel.wf_routes.
  apply andb_true_intro. split; apply forallb_forall; intros n Hn;
    apply list_elem_of_In in Hn.
  - destruct (Haddrs n Hn). apply addr_parses_back_v4; assumption.
  - destruct (Hroutes n Hn). unfold kernel.listed_dst.
    destruct (_ =? 0); [reflexivity |].
    apply route_parses_back_v4; assumption.
Qed.

End ipv4_strings.

Section reconcilers_on_kernel.

Variable range_order : list (string * Z) -> list (string * Z).
Hypothesis range_order_perm : forall l, range_order l ≡ₚ l.
Variable link : Link.

Lemma range_order_elem (m : gmap string Z) (s : string) (p : Z) :
  (s, p) ∈ range_order (map_to_list m) <-> m !! s = Some p.
Proof. rewrite range_order_perm. apply elem_of_map_to_list. Qed.

Lemma range_order_NoDup (m : gmap string Z) :
  NoDup (map fst (range_order (map_to_list m))).
Proof.
  change (NoDup (fst <$> range_order (map_to_list m))).
  rewrite range_order_perm. apply NoDup_fst_map_to_list.
Qed.












End reconcilers_on_kernel.

(** ** A run on a kernel that already has the desired state *)

Section settled.

Variable range_order : list (string * Z) -> list (string * Z).
Hypothesis range_order_perm : forall l, range_order l ≡ₚ l.
Variable link : Link.



End settled.

(** A default route on the interface: [syncRoutes] reads it without
    destination and fails on the string <nil>, with nothing to remove. *)
Example syncRoutes_default_route :
  syncRoutes id_order wg0 (config [] []) (kernel_with [] [v4 0 0 0 0 0])
  = (Err (ParseError "CIDR address" "<nil>"), kernel_with [] [v4 0 0 0 0 0]).
Proof. vm_compute. reflexivity. Qed.

(** ** Convergence and idempotence on the reference kernel *)

Section convergence.

Variable range_order : list (string * Z) -> list (string * Z).
Hypothesis range_order_perm : forall l, range_order l ≡ₚ l.
Variable link : Link.


End convergence.



Section idempotence.

Variable first_order second_order : list (string * Z) -> list (string * Z).
Hypothesis first_order_perm : forall l, first_order l ≡ₚ l.
Hypothesis second_order_perm : forall l, second_order l ≡ₚ l.
Variable link : Link.


End idempotence.



(** * Further properties *)

(** ** The calls the reconcilers make, on any host *)

Section reconciler_calls.

Context {W : Type} `{Host W}.
Variable range_order : list (string * Z) -> list (string * Z).
Variable link : Link.

Lemma syncAddress_desired_adds_only (desired : list net.IPNet) :
  forall present,
    emits (syncAddress_desired link desired present)
      (orderly (adds_address link)).
Proof.
  induction desired as [| addr rest IH]; intros present;
    cbn [syncAddress_desired].
  - apply emits_ret, orderly_nil.
  - destruct (present !! _); [apply IH |].
    apply emits_orderly_bind; [| intros _; apply IH].
    apply emits_orderly_logged. unfold adds_address. eauto.
Qed.

Lemma syncAddress_extraneous_adds_only (entries : list (string * Z)) :
  emits (syncAddress_extraneous link entries) (orderly (adds_address link)).
Proof.
  induction entries as [| [addr p] rest IH]; cbn [syncAddress_extraneous].
  - apply emits_ret, orderly_nil.
  - destruct (p <? 2); [| exact IH].
    destruct (ParseAddr addr) as [nlAddr | err].
    + apply emits_orderly_bind; [| intros _; exact IH].
      apply emits_orderly_logged. unfold adds_address. eauto.
    + apply emits_fail, orderly_nil.
Qed.

(** X1: on any host and in any order of the map, [syncAddress] calls
    [AddrList] once, for [AF_INET], and after it nothing but [AddrAdd] on
    the link: it never deletes an address and never touches a route.
    Every call but the last has succeeded, and when the last has failed,
    its error is what [syncAddress] returns. *)
Theorem syncAddress_calls (cfg : Config) (w : W) :
  exists (listed : option error) (adds : list Event),
    trace (syncAddress range_order link cfg) w
    = (CAddrList link AF_INET, listed) :: adds /\
    Forall (fun ev => adds_address link (fst ev)) adds /\
    (forall e, listed = Some e ->
               adds = [] /\
               returned (syncAddress range_order link cfg) w = Err e) /\
    failstop (returned (syncAddress range_order link cfg) w)
      (trace (syncAddress range_order link cfg) w).
Proof.
  unfold trace, returned, syncAddress, bind.
  change (AddrList link AF_INET (w, []))
    with (logged (CAddrList link AF_INET) (AddrList link AF_INET)
            (w, ([] : list Event))).
  unfold logged. destruct (AddrList link AF_INET w) as [[addrs | e] w1];
    cbn [error_of app fst snd].
  - assert (Hrest : emits
                      (present <- syncAddress_desired link (Address cfg)
                                    (presentAddresses addrs) ;;
                       syncAddress_extraneous link
                         (range_order (map_to_list present)))
                      (orderly (adds_address link))).
    { apply emits_orderly_bind; [apply syncAddress_desired_adds_only |].
      intros present. apply syncAddress_extraneous_adds_only. }
    destruct (Hrest w1 [(CAddrList link AF_INET, None)])
      as (adds & Htr & Hcalls & Hfs).
    unfold bind in Htr, Hfs. rewrite Htr. cbn [app].
    exists None, adds. split; [reflexivity |]. split; [exact Hcalls |].
    split; [intros e He; discriminate |].
    destruct Hfs as (evs0 & Hok & Hcase).
    exists ((CAddrList link AF_INET, None) :: evs0).
    split; [constructor; [reflexivity | exact Hok] |].
    destruct Hcase as [-> | (c & e & -> & He)]; [left; reflexivity |].
    right. exists c, e. split; [reflexivity | exact He].
  - exists (Some e), []. split; [reflexivity |]. split; [constructor |].
    split; [intros e' He'; injection He' as <-; auto |].
    exists []. split; [constructor |]. right.
    exists (CAddrList link AF_INET), e. auto.
Qed.

Lemma syncRoutes_allowed_adds_only (allowed : list net.IPNet) :
  forall present,
    emits (syncRoutes_allowed link allowed present)
      (orderly (adds_route link)).
Proof.
  induction allowed as [| rt rest IH]; intros present;
    cbn [syncRoutes_allowed].
  - apply emits_ret, orderly_nil.
  - destruct (present !! _); [apply IH |].
    apply emits_orderly_bind; [| intros _; apply IH].
    apply emits_orderly_logged. unfold adds_route. eauto.
Qed.

Lemma syncRoutes_peers_adds_only (peers : list wgtypes.PeerConfig) :
  forall present,
    emits (syncRoutes_peers link peers present) (orderly (adds_route link)).
Proof.
  induction peers as [| peer rest IH]; intros present;
    cbn [syncRoutes_peers].
  - apply emits_ret, orderly_nil.
  - apply emits_orderly_bind; [apply syncRoutes_allowed_adds_only |].
    intros present'. apply IH.
Qed.

Lemma syncRoutes_extraneous_deletes_only (entries : list (string * Z)) :
  emits (syncRoutes_extraneous link entries) (orderly (deletes_route link)).
Proof.
  induction entries as [| [rtStr p] rest IH]; cbn [syncRoutes_extraneous].
  - apply emits_ret, orderly_nil.
  - destruct (net.ParseCIDR rtStr) as [[ip rt] | err].
    + destruct (p <? 2); [| exact IH].
      apply emits_orderly_bind; [| intros _; exact IH].
      apply emits_orderly_logged. unfold deletes_route. eauto.
    + apply emits_fail, orderly_nil.
Qed.

(** X2: on any host and in any order of the map, [syncRoutes] calls
    [RouteList] once, for [AF_INET], then [RouteAdd] only, then [RouteDel]
    only: every route it adds is added before any is deleted, each for
    the interface of the link and with a destination, and no address is
    touched.  Every call but the last has succeeded, and when the last has
    failed, its error is what [syncRoutes] returns. *)
Theorem syncRoutes_calls (cfg : Config) (w : W) :
  exists (listed : option error) (adds dels : list Event),
    trace (syncRoutes range_order link cfg) w
    = (CRouteList link AF_INET, listed) :: adds ++ dels /\
    Forall (fun ev => adds_route link (fst ev)) adds /\
    Forall (fun ev => deletes_route link (fst ev)) dels /\
    (forall e, listed = Some e ->
               adds = [] /\ dels = [] /\
               returned (syncRoutes range_order link cfg) w = Err e) /\
    failstop (returned (syncRoutes range_order link cfg) w)
      (trace (syncRoutes range_order link cfg) w).
Proof.
  unfold trace, returned, syncRoutes, bind.
  change (RouteList link AF_INET (w, []))
    with (logged (CRouteList link AF_INET) (RouteList link AF_INET)
            (w, ([] : list Event))).
  unfold logged. destruct (RouteList link AF_INET w) as [[routes | e] w1];
    cbn [error_of app fst snd].
  - destruct (syncRoutes_peers_adds_only (wgtypes.Peers (wgConfig cfg))
                (presentRoutes routes) w1 [(CRouteList link AF_INET, None)])
      as (adds & Htr & Hadds & Hfs).
    unfold Event in *.
    destruct (syncRoutes_peers link (wgtypes.Peers (wgConfig cfg))
                (presentRoutes routes)
                (w1, [(CRouteList link AF_INET, None)]))
      as [[present | e] [w2 tr2]]; cbn [fst snd] in Htr, Hfs; subst tr2.
    + destruct (syncRoutes_extraneous_deletes_only
                  (range_order (map_to_list present)) w2
                  ([(CRouteList link AF_INET, None)] ++ adds))
        as (dels & Htr & Hdels & Hfs').
      unfold Event in *. rewrite Htr. cbn [app].
      exists None, adds, dels.
      split; [reflexivity |]. split; [exact Hadds |]. split; [exact Hdels |].
      split; [intros e He; discriminate |].
      apply failstop_ok_all_ok in Hfs.
      destruct Hfs' as (evs0 & Hok & Hcase).
      exists ((CRouteList link AF_INET, None) :: adds ++ evs0).
      split; [constructor; [reflexivity | apply Forall_app; auto] |].
      destruct Hcase as [-> | (c & e & -> & He)]; [left; reflexivity |].
      right. exists c, e. rewrite app_assoc. auto.
    + cbn [app fst snd].
      exists None, adds, []. rewrite app_nil_r.
      split; [reflexivity |]. split; [exact Hadds |]. split; [constructor |].
      split; [intros e' He'; discriminate |].
      destruct Hfs as (evs0 & Hok & Hcase).
      exists ((CRouteList link AF_INET, None) :: evs0).
      split; [constructor; [reflexivity | exact Hok] |].
      destruct Hcase as [-> | (c & e' & -> & He)]; [left; reflexivity |].
      right. exists c, e'. split; [reflexivity | congruence].
  - exists (Some e), [], []. split; [reflexivity |].
    split; [constructor |]. split; [constructor |].
    split; [intros e' He'; injection He' as <-; auto |].
    exists []. split; [constructor |]. right.
    exists (CRouteList link AF_INET), e. auto.
Qed.

End reconciler_calls.

(** ** A reconciler that finds what it wants *)

Section nothing_to_do.

Context {W : Type} `{Host W}.
Variable range_order : list (string * Z) -> list (string * Z).
Hypothesis range_order_perm : forall l, range_order l ≡ₚ l.
Variable link : Link.

Lemma syncAddress_nothing_to_do (cfg : Config) (w w1 : W) (addrs : list Addr) :
  AddrList link AF_INET w = (Ok addrs, w1) ->
  (forall s, s ∈ map (fun a => key (IPNet a)) addrs
             <-> s ∈ keys (Address cfg)) ->
  syncAddress range_order link cfg w = (Ok tt, w1).
Proof.
  intros Hlist Hsame. unfold syncAddress, bind. rewrite Hlist.
  rewrite syncAddress_desired_mark.
  set (m0 := presentAddresses addrs).
  assert (Hm0 : forall s, m0 !! s
                = if decide (s ∈ map (fun a => key (IPNet a)) addrs)
                  then Some 1 else None).
  { intros s. unfold m0, presentAddresses.
    rewrite (present_lookup
               (fun addr => net.IPNet_String (Some (IPNet addr)))).
    rewrite lookup_empty. reflexivity. }
  destruct (mark_desired_present
              (fun a => AddrAdd link {| IPNet := a; Label := "" |})
              (Address cfg) m0 w1)
    as (m1 & Hrun & Hdom & Hmark & _); [| rewrite Hrun].
  { intros d Hd. rewrite Hm0. rewrite decide_True; [eauto |].
    apply Hsame, elem_of_keys. eauto. }
  apply syncAddress_extraneous_kept. intros s p Hin.
  apply (range_order_elem range_order range_order_perm) in Hin.
  assert (Hs : s ∈ keys (Address cfg)).
  { apply Hsame. assert (Hsome : is_Some (m0 !! s)) by (apply Hdom; eauto).
    rewrite Hm0 in Hsome. case_decide; [assumption |].
    destruct Hsome; discriminate. }
  apply elem_of_keys in Hs as (d & Hd & <-).
  rewrite (Hmark d Hd) in Hin. injection Hin as <-. lia.
Qed.

Lemma syncRoutes_nothing_to_do (cfg : Config) (w w1 : W)
    (routes : list Route) :
  RouteList link AF_INET w = (Ok routes, w1) ->
  (forall s, s ∈ map (fun r => net.IPNet_String (Dst r)) routes
             <-> s ∈ keys (desired_routes cfg)) ->
  (forall d, d ∈ desired_routes cfg ->
             is_err (net.ParseCIDR (key d)) = false) ->
  syncRoutes range_order link cfg w = (Ok tt, w1).
Proof.
  intros Hlist Hsame Hparse. unfold syncRoutes, bind. rewrite Hlist.
  rewrite syncRoutes_peers_mark. fold (desired_routes cfg).
  set (m0 := presentRoutes routes).
  assert (Hm0 : forall s, m0 !! s
                = if decide (s ∈ map (fun r => net.IPNet_String (Dst r)) routes)
                  then Some 1 else None).
  { intros s. unfold m0, presentRoutes.
    rewrite (present_lookup (fun r => net.IPNet_String (Dst r))).
    rewrite lookup_empty. reflexivity. }
  destruct (mark_desired_present
              (fun rt => RouteAdd {| LinkIndex := Index link; Dst := Some rt |})
              (desired_routes cfg) m0 w1)
    as (m1 & Hrun & Hdom & Hmark & _); [| rewrite Hrun].
  { intros d Hd. rewrite Hm0. rewrite decide_True; [eauto |].
    apply Hsame, elem_of_keys. eauto. }
  apply syncRoutes_extraneous_kept. intros s p Hin.
  apply (range_order_elem range_order range_order_perm) in Hin.
  assert (Hs : s ∈ keys (desired_routes cfg)).
  { apply Hsame. assert (Hsome : is_Some (m0 !! s)) by (apply Hdom; eauto).
    rewrite Hm0 in Hsome. case_decide; [assumption |].
    destruct Hsome; discriminate. }
  apply elem_of_keys in Hs as (d & Hd & <-).
  rewrite (Hmark d Hd) in Hin. injection Hin as <-.
  split; [lia | apply Hparse, Hd].
Qed.

End nothing_to_do.

Section in_sync.

Context {W : Type} `{Host W}.
Variable range_order : list (string * Z) -> list (string * Z).
Hypothesis range_order_perm : forall l, range_order l ≡ₚ l.
Variable link : Link.

(** X3: on any host, when the addresses [AddrList] gives have, as a set
    of canonical strings, the strings of the desired addresses,
    [syncAddress] returns successfully after that one call: nothing is
    added, and the host is as [AddrList] left it. *)
Theorem syncAddress_in_sync (cfg : Config) (w w1 : W) (addrs : list Addr) :
  AddrList link AF_INET w = (Ok addrs, w1) ->
  (forall s, s ∈ map (fun a => key (IPNet a)) addrs
             <-> s ∈ keys (Address cfg)) ->
  syncAddress range_order link cfg w = (Ok tt, w1) /\
  trace (syncAddress range_order link cfg) w
  = [(CAddrList link AF_INET, None)].
Proof.
  intros Hlist Hsame. split.
  - exact (syncAddress_nothing_to_do range_order range_order_perm link cfg
             w w1 addrs Hlist Hsame).
  - unfold trace.
    rewrite (syncAddress_nothing_to_do range_order range_order_perm link cfg
               (w, ([] : list Event))
               (w1, [(CAddrList link AF_INET, None)]) addrs);
      [reflexivity | | exact Hsame].
    change (AddrList link AF_INET (w, ([] : list Event)))
      with (logged (CAddrList link AF_INET) (AddrList link AF_INET)
              (w, ([] : list Event))).
    unfold logged. rewrite Hlist. reflexivity.
Qed.

(** X4: on any host, when the routes [RouteList] gives have, as a set of
    strings, the strings of the peers' allowed-IPs, and these strings
    parse, [syncRoutes] returns successfully after that one call: no
    route is added or deleted. *)
Theorem syncRoutes_in_sync (cfg : Config) (w w1 : W) (routes : list Route) :
  RouteList link AF_INET w = (Ok routes, w1) ->
  (forall s, s ∈ map (fun r => net.IPNet_String (Dst r)) routes
             <-> s ∈ keys (desired_routes cfg)) ->
  (forall d, d ∈ desired_routes cfg ->
             is_err (net.ParseCIDR (key d)) = false) ->
  syncRoutes range_order link cfg w = (Ok tt, w1) /\
  trace (syncRoutes range_order link cfg) w
  = [(CRouteList link AF_INET, None)].
Proof.
  intros Hlist Hsame Hparse. split.
  - exact (syncRoutes_nothing_to_do range_order range_order_perm link cfg
             w w1 routes Hlist Hsame Hparse).
  - unfold trace.
    rewrite (syncRoutes_nothing_to_do range_order range_order_perm link cfg
               (w, ([] : list Event))
               (w1, [(CRouteList link AF_INET, None)]) routes);
      [reflexivity | | exact Hsame | exact Hparse].
    change (RouteList link AF_INET (w, ([] : list Event)))
      with (logged (CRouteList link AF_INET) (RouteList link AF_INET)
              (w, ([] : list Event))).
    unfold logged. rewrite Hlist. reflexivity.
Qed.

End in_sync.

Lemma syncAddress_in_sync_witness :
  syncAddress id_order wg0 scenario_C synced_stub = (Ok tt, synced_stub) /\
  trace (syncAddress id_order wg0 scenario_C) synced_stub
  = [(CAddrList wg0 AF_INET, None)].
Proof.
  assert (Hkeys : map (fun a => key (IPNet a)) (stub.addrs synced_stub)
                  = keys (Address scenario_C))
    by (vm_compute; reflexivity).
  apply (syncAddress_in_sync (H := stub.host) id_order
           (fun l => reflexivity l) wg0 scenario_C
           synced_stub synced_stub (stub.addrs synced_stub) eq_refl).
  intros s. rewrite Hkeys. reflexivity.
Defined.

Lemma syncRoutes_in_sync_witness :
  syncRoutes id_order wg0 scenario_C synced_stub = (Ok tt, synced_stub) /\
  trace (syncRoutes id_order wg0 scenario_C) synced_stub
  = [(CRouteList wg0 AF_INET, None)].
Proof.
  assert (Hkeys : map (fun r => net.IPNet_String (Dst r))
                    (stub.routes synced_stub)
                  = ["10.1.0.0/24"; "10.0.0.0/24"])
    by (vm_compute; reflexivity).
  assert (Hdesired : keys (desired_routes scenario_C)
                     = ["10.0.0.0/24"; "10.0.0.0/24"; "10.1.0.0/24"])
    by (vm_compute; reflexivity).
  apply (syncRoutes_in_sync (H := stub.host) id_order
           (fun l => reflexivity l) wg0 scenario_C
           synced_stub synced_stub (stub.routes synced_stub) eq_refl).
  - intros s. rewrite Hkeys, Hdesired. set_solver.
  - intros d Hd. apply list_elem_of_In in Hd. cbn in Hd.
    destruct Hd as [<- | [<- | [<- | []]]]; vm_compute; reflexivity.
Defined.

(** ** The reconcilers on the reference kernel: what they return *)

Section kernel_adds.

Variable get : kernel.state -> list net.IPNet.
Variable upd : list net.IPNet -> kernel.state -> kernel.state.
Variable add : net.IPNet -> M kernel.state unit.
Hypothesis get_upd : forall l k, get (upd l k) = l.
Hypothesis add_spec : forall d k,
  add d k = match kernel.add_prefix kernel.EEXIST d (get k) with
            | Ok l => (Ok tt, upd l k)
            | Err e => (Err e, k)
            end.


End kernel_adds.

Section address_sync_on_kernel.

Variable range_order : list (string * Z) -> list (string * Z).
Hypothesis range_order_perm : forall l, range_order l ≡ₚ l.
Variable link : Link.



End address_sync_on_kernel.

(** ** What [syncRoutes] leaves of the kernel *)

Section frames.

Variable range_order : list (string * Z) -> list (string * Z).
Variable link : Link.










End frames.

(** ** Up on the reference kernel *)

Section up_on_kernel.

Variable range_order : list (string * Z) -> list (string * Z).
Hypothesis range_order_perm : forall l, range_order l ≡ₚ l.






End up_on_kernel.

Section traced_calls.

Context {W : Type} `{Host W}.





End traced_calls.

Section up_again.

Variable first_order second_order : list (string * Z) -> list (string * Z).
Hypothesis first_order_perm : forall l, first_order l ≡ₚ l.
Hypothesis second_order_perm : forall l, second_order l ≡ₚ l.


End up_again.

(** ** The statements on the kernel, at the scenarios *)




(** ** The calls of a reconciler that ends well, on any host *)

Section marking.

Context {W : Type}.

Lemma marked_lookup (desired : list net.IPNet) :
  forall (m : gmap string Z) (s : string),
    marked desired m !! s
    = if decide (s ∈ keys desired) then Some 2 else m !! s.
Proof.
  unfold marked, keys.
  induction desired as [| d rest IH]; intros m s; cbn [foldl map].
  - case_decide as Hin; [inversion Hin | reflexivity].
  - rewrite IH, lookup_insert.
    repeat case_decide; try reflexivity.
    + exfalso. match goal with Hn : ¬ _ ∈ _ :: _ |- _ => apply Hn end.
      right. assumption.
    + exfalso. match goal with Hn : ¬ _ ∈ _ :: _ |- _ => apply Hn end.
      subst. left.
    + exfalso.
      match goal with
      | Hi : _ ∈ _ :: _ |- _ => apply elem_of_cons in Hi as [? | ?]
      end; [congruence | contradiction].
Qed.

(** When the loop over the desired prefixes ends well, the map it leaves
    is the map it found with the desired strings marked. *)
Lemma mark_desired_marked (add : net.IPNet -> M W unit)
    (desired : list net.IPNet) :
  forall (m m' : gmap string Z) (w w' : W),
    mark_desired add desired m w = (Ok m', w') -> m' = marked desired m.
Proof.
  induction desired as [| d rest IH]; intros m m' w w' Hrun.
  - cbn in Hrun. injection Hrun as <- <-. reflexivity.
  - cbn [mark_desired] in Hrun. unfold marked. cbn [foldl].
    destruct (m !! key d); [exact (IH _ _ _ _ Hrun) |].
    unfold bind in Hrun. destruct (add d w) as [[[] | e] w1];
      [exact (IH _ _ _ _ Hrun) | discriminate].
Qed.

End marking.

Section successful_runs.

Context {W : Type} `{Host W}.

(** The calls of the loop over the desired prefixes, when it ends well:
    one for each desired string the map does not have, in the order of
    the list, at the first prefix with that string. *)
Lemma mark_desired_added (mk : net.IPNet -> Call)
    (op : net.IPNet -> W -> result unit * W) (desired : list net.IPNet) :
  forall (present present' : gmap string Z) (w w' : W) (tr tr' : list Event),
    mark_desired (fun d => logged (mk d) (op d)) desired present (w, tr)
    = (Ok present', (w', tr')) ->
    exists added,
      tr' = tr ++ map (fun d => (mk d, None)) added /\
      sublist added desired /\
      NoDup (keys added) /\
      (forall s, s ∈ keys added
                 <-> s ∈ keys desired /\ present !! s = None).
Proof.
  induction desired as [| d rest IH];
    intros present present' w w' tr tr' Hrun.
  - cbn in Hrun. injection Hrun as _ _ <-. exists [].
    cbn [map]. rewrite app_nil_r. split; [reflexivity |].
    split; [constructor |]. split; [constructor |].
    intros s. split; [intros Hs; inversion Hs | intros [Hs _]; inversion Hs].
  - cbn [mark_desired] in Hrun.
    destruct (present !! key d) as [v |] eqn:Hwas.
    + destruct (IH _ _ _ _ _ _ Hrun) as (added & Htr & Hsub & Hnd & Hiff).
      exists added. split; [exact Htr |].
      split; [apply sublist_cons, Hsub |]. split; [exact Hnd |].
      intros s. rewrite Hiff, lookup_insert_None. unfold keys. cbn [map].
      rewrite elem_of_cons. fold (keys rest). split.
      * intros (Hs & Hnone & Hne). auto.
      * intros [[-> | Hs] Hnone]; [rewrite Hwas in Hnone; discriminate |].
        split; [exact Hs |]. split; [exact Hnone |].
        intros <-. rewrite Hwas in Hnone. discriminate.
    + unfold bind in Hrun. unfold logged at 1 in Hrun.
      destruct (op d w) as [[[] | e] w1]; [| discriminate].
      cbn [error_of] in Hrun.
      destruct (IH _ _ _ _ _ _ Hrun) as (added & Htr & Hsub & Hnd & Hiff).
      exists (d :: added). cbn [map]. rewrite Htr, <- app_assoc.
      split; [reflexivity |]. split; [apply sublist_skip, Hsub |].
      split.
      * unfold keys. cbn [map]. fold (keys added). apply NoDup_cons.
        split; [| exact Hnd]. intros Hin. apply Hiff in Hin as [_ Hnone].
        rewrite lookup_insert_eq in Hnone. discriminate.
      * intros s. unfold keys. cbn [map]. rewrite !elem_of_cons.
        fold (keys added) (keys rest). rewrite Hiff, lookup_insert_None.
        split.
        -- intros [-> | (Hs & Hnone & Hne)]; auto.
        -- intros [[-> | Hs] Hnone]; [auto |].
           destruct (decide (key d = s)) as [<- | Hne]; auto.
Qed.

(** The calls of the removal loop of [syncRoutes], when it ends well: one
    [RouteDel] for each string flagged below 2, in the order of the
    entries, for the network [net.ParseCIDR] reads from the string. *)
Lemma syncRoutes_extraneous_removals (link : Link)
    (entries : list (string * Z)) :
  forall (w w' : W) (tr tr' : list Event),
    syncRoutes_extraneous link entries (w, tr) = (Ok tt, (w', tr')) ->
    exists dels,
      tr' = tr ++ dels /\
      Forall2 (route_removal link) (extraneous_keys entries) dels.
Proof.
  induction entries as [| [s p] rest IH]; intros w w' tr tr' Hrun.
  - cbn in Hrun. injection Hrun as _ <-. exists [].
    rewrite app_nil_r. split; [reflexivity | constructor].
  - cbn [syncRoutes_extraneous] in Hrun.
    unfold extraneous_keys, flagged_extraneous. cbn [List.filter snd].
    destruct (net.ParseCIDR s) as [[ip rt] | e] eqn:Hparse; [| discriminate].
    destruct (p <? 2).
    + unfold bind in Hrun.
      change (RouteDel {| LinkIndex := Index link; Dst := Some rt |} (w, tr))
        with (logged (CRouteDel {| LinkIndex := Index link; Dst := Some rt |})
                (RouteDel {| LinkIndex := Index link; Dst := Some rt |})
                (w, tr)) in Hrun.
      unfold logged in Hrun.
      destruct (RouteDel {| LinkIndex := Index link; Dst := Some rt |} w)
        as [[[] | e] w1]; [| discriminate].
      cbn [error_of] in Hrun.
      destruct (IH _ _ _ _ Hrun) as (dels & Htr & Hall).
      exists ((CRouteDel {| LinkIndex := Index link; Dst := Some rt |}, None)
                :: dels).
      rewrite Htr, <- app_assoc. split; [reflexivity |].
      cbn [map fst]. constructor; [| exact Hall].
      exists ip, rt. auto.
    + exact (IH _ _ _ _ Hrun).
Qed.

(** The same for [syncAddress]: one [AddrAdd] for each string flagged
    below 2, for the address [netlink.ParseAddr] reads from the string. *)
Lemma syncAddress_extraneous_removals (link : Link)
    (entries : list (string * Z)) :
  forall (w w' : W) (tr tr' : list Event),
    syncAddress_extraneous link entries (w, tr) = (Ok tt, (w', tr')) ->
    exists adds,
      tr' = tr ++ adds /\
      Forall2 (address_removal link) (extraneous_keys entries) adds.
Proof.
  induction entries as [| [s p] rest IH]; intros w w' tr tr' Hrun.
  - cbn in Hrun. injection Hrun as _ <-. exists [].
    rewrite app_nil_r. split; [reflexivity | constructor].
  - cbn [syncAddress_extraneous] in Hrun.
    unfold extraneous_keys, flagged_extraneous. cbn [List.filter snd].
    destruct (p <? 2).
    + destruct (ParseAddr s) as [nlAddr | e] eqn:Hparse; [| discriminate].
      unfold bind in Hrun.
      change (AddrAdd link nlAddr (w, tr))
        with (logged (CAddrAdd link nlAddr) (AddrAdd link nlAddr) (w, tr))
        in Hrun.
      unfold logged in Hrun.
      destruct (AddrAdd link nlAddr w) as [[[] | e] w1]; [| discriminate].
      cbn [error_of] in Hrun.
      destruct (IH _ _ _ _ Hrun) as (adds & Htr & Hall).
      exists ((CAddrAdd link nlAddr, None) :: adds).
      rewrite Htr, <- app_assoc. split; [reflexivity |].
      cbn [map fst]. constructor; [| exact Hall].
      exists nlAddr. auto.
    + exact (IH _ _ _ _ Hrun).
Qed.

End successful_runs.

Section calls_of_success.

Context {W : Type} `{Host W}.
Variable range_order : list (string * Z) -> list (string * Z).
Hypothesis range_order_perm : forall l, range_order l ≡ₚ l.
Variable link : Link.

(** The strings the removal loops act on: those the list gave and the
    configuration does not have, each once. *)
Lemma extraneous_keys_marked (desired : list net.IPNet) {A}
    (f : A -> string) (l : list A) :
  let removed :=
    extraneous_keys
      (range_order
         (map_to_list (marked desired (foldl (fun m x => <[f x := 1]> m) ∅ l))))
  in
  NoDup removed /\
  (forall s, s ∈ removed <-> s ∈ map f l /\ s ∉ keys desired).
Proof.
  cbn zeta. split.
  - unfold extraneous_keys, flagged_extraneous.
    pose proof (range_order_NoDup range_order range_order_perm
                  (marked desired (foldl (fun m x => <[f x := 1]> m) ∅ l)))
      as Hnd.
    revert Hnd.
    generalize (range_order
                  (map_to_list
                     (marked desired
                        (foldl (fun m x => <[f x := 1]> m) ∅ l)))).
    intros entries. induction entries as [| [s p] rest IH]; intros Hnd;
      [constructor |].
    cbn [map fst] in Hnd. apply NoDup_cons in Hnd as [Hnotin Hnd].
    cbn [List.filter snd]. destruct (p <? 2); [| exact (IH Hnd)].
    cbn [map fst]. apply NoDup_cons. split; [| exact (IH Hnd)].
    intros Hin. apply Hnotin.
    apply list_elem_of_In, in_map_iff in Hin as ([s' p'] & Hs & Hin).
    cbn in Hs. subst s'. apply filter_In in Hin as [Hin _].
    apply list_elem_of_In. apply (in_map fst) in Hin. exact Hin.
  - intros s. rewrite elem_of_extraneous_keys. split.
    + intros (p & Hin & Hp).
      apply (range_order_elem range_order range_order_perm) in Hin.
      rewrite marked_lookup, present_lookup in Hin.
      case_decide as Hd; [injection Hin as <-; lia |].
      case_decide as Hl; [auto |].
      rewrite lookup_empty in Hin. discriminate.
    + intros [Hl Hd]. exists 1. split; [| lia].
      apply (range_order_elem range_order range_order_perm).
      rewrite marked_lookup, present_lookup.
      case_decide; [contradiction |]. case_decide; [reflexivity |].
      contradiction.
Qed.

(** X9: the calls of a [syncRoutes] that returns successfully, on any
    host.  After [RouteList], it adds one route for each string of an
    allowed-IP that no listed route has, in the order of the peers'
    allowed-IPs and once for each string; then it deletes one route for
    each string of a listed route that no allowed-IP has, once for each
    string, the route being the network [net.ParseCIDR] reads from the
    string.  It makes no other call. *)
Theorem syncRoutes_successful_calls (cfg : Config) (w : W) :
  returned (syncRoutes range_order link cfg) w = Ok tt ->
  exists routes w1 added removed dels,
    RouteList link AF_INET w = (Ok routes, w1) /\
    trace (syncRoutes range_order link cfg) w
    = (CRouteList link AF_INET, None)
        :: map (fun d => (CRouteAdd {| LinkIndex := Index link;
                                       Dst := Some d |}, None)) added
        ++ dels /\
    sublist added (desired_routes cfg) /\
    NoDup (keys added) /\
    (forall s, s ∈ keys added
               <-> s ∈ keys (desired_routes cfg)
                   /\ s ∉ route_strings routes) /\
    NoDup removed /\
    (forall s, s ∈ removed
               <-> s ∈ route_strings routes
                   /\ s ∉ keys (desired_routes cfg)) /\
    Forall2 (route_removal link) removed dels.
Proof.
  unfold returned, trace, syncRoutes. intros Hret. unfold bind in *.
  change (RouteList link AF_INET (w, ([] : list Event)))
    with (logged (CRouteList link AF_INET) (RouteList link AF_INET)
            (w, ([] : list Event))) in *.
  unfold logged in *.
  destruct (RouteList link AF_INET w) as [[routes | e] w1];
    [| discriminate].
  cbn [error_of app] in *.
  rewrite syncRoutes_peers_mark in *.
  fold (desired_routes cfg) in *.
  destruct (mark_desired _ (desired_routes cfg) (presentRoutes routes) _)
    as [[m1 | e] [w2 tr2]] eqn:Hmark; [| discriminate].
  pose proof (mark_desired_marked _ _ _ _ _ _ Hmark) as ->.
  change (fun rt => RouteAdd {| LinkIndex := Index link; Dst := Some rt |})
    with (fun rt =>
            logged (CRouteAdd {| LinkIndex := Index link; Dst := Some rt |})
              (RouteAdd {| LinkIndex := Index link; Dst := Some rt |}))
    in Hmark.
  apply (mark_desired_added
           (fun rt => CRouteAdd {| LinkIndex := Index link; Dst := Some rt |})
           (fun rt => RouteAdd {| LinkIndex := Index link; Dst := Some rt |}))
    in Hmark as (added & -> & Hsub & Hnd & Hadded).
  destruct (syncRoutes_extraneous link _ _) as [[[] | e] [w3 tr3]] eqn:Hdel;
    [| discriminate].
  apply syncRoutes_extraneous_removals in Hdel as (dels & -> & Hdels).
  destruct (extraneous_keys_marked (desired_routes cfg)
              (fun r => net.IPNet_String (Dst r)) routes) as [Hndr Hremoved].
  exists routes, w1, added,
    (extraneous_keys
       (range_order
          (map_to_list (marked (desired_routes cfg) (presentRoutes routes))))),
    dels.
  split; [reflexivity |]. split; [reflexivity |].
  split; [exact Hsub |]. split; [exact Hnd |]. split.
  - intros s. rewrite Hadded. unfold presentRoutes, route_strings.
    rewrite present_lookup, lookup_empty.
    case_decide; split; intros [? ?]; split; auto; try discriminate.
    contradiction.
  - split; [exact Hndr |]. split; [exact Hremoved | exact Hdels].
Qed.

(** X10: the calls of a [syncAddress] that returns successfully, on any
    host.  After [AddrList], it adds one address for each string of a
    desired address that no listed address has, in the order of the
    configuration and once for each string; then, for each string of a
    listed address that no desired address has, once for each string, it
    calls [AddrAdd] again with the address [netlink.ParseAddr] reads
    from the string.  It makes no other call: no address is deleted. *)
Theorem syncAddress_successful_calls (cfg : Config) (w : W) :
  returned (syncAddress range_order link cfg) w = Ok tt ->
  exists addrs w1 added stale readds,
    AddrList link AF_INET w = (Ok addrs, w1) /\
    trace (syncAddress range_order link cfg) w
    = (CAddrList link AF_INET, None)
        :: map (fun d => (CAddrAdd link {| IPNet := d; Label := "" |}, None))
             added
        ++ readds /\
    sublist added (Address cfg) /\
    NoDup (keys added) /\
    (forall s, s ∈ keys added
               <-> s ∈ keys (Address cfg) /\ s ∉ address_strings addrs) /\
    NoDup stale /\
    (forall s, s ∈ stale
               <-> s ∈ address_strings addrs /\ s ∉ keys (Address cfg)) /\
    Forall2 (address_removal link) stale readds.
Proof.
  unfold returned, trace, syncAddress. intros Hret. unfold bind in *.
  change (AddrList link AF_INET (w, ([] : list Event)))
    with (logged (CAddrList link AF_INET) (AddrList link AF_INET)
            (w, ([] : list Event))) in *.
  unfold logged in *.
  destruct (AddrList link AF_INET w) as [[addrs | e] w1];
    [| discriminate].
  cbn [error_of app] in *.
  rewrite syncAddress_desired_mark in *.
  destruct (mark_desired _ (Address cfg) (presentAddresses addrs) _)
    as [[m1 | e] [w2 tr2]] eqn:Hmark; [| discriminate].
  pose proof (mark_desired_marked _ _ _ _ _ _ Hmark) as ->.
  change (fun a => AddrAdd link {| IPNet := a; Label := "" |})
    with (fun a =>
            logged (CAddrAdd link {| IPNet := a; Label := "" |})
              (AddrAdd link {| IPNet := a; Label := "" |}))
    in Hmark.
  apply (mark_desired_added
           (fun a => CAddrAdd link {| IPNet := a; Label := "" |})
           (fun a => AddrAdd link {| IPNet := a; Label := "" |}))
    in Hmark as (added & -> & Hsub & Hnd & Hadded).
  destruct (syncAddress_extraneous link _ _) as [[[] | e] [w3 tr3]] eqn:Hdel;
    [| discriminate].
  apply syncAddress_extraneous_removals in Hdel as (readds & -> & Hreadds).
  destruct (extraneous_keys_marked (Address cfg)
              (fun a => key (IPNet a)) addrs) as [Hndr Hstale].
  exists addrs, w1, added,
    (extraneous_keys
       (range_order
          (map_to_list (marked (Address cfg) (presentAddresses addrs))))),
    readds.
  split; [reflexivity |]. split; [reflexivity |].
  split; [exact Hsub |]. split; [exact Hnd |]. split.
  - intros s. rewrite Hadded. unfold presentAddresses, address_strings.
    change (fun (m : gmap string Z) (addr : Addr) =>
              <[net.IPNet_String (Some (IPNet addr)) := 1]> m)
      with (fun (m : gmap string Z) (addr : Addr) =>
              <[(fun a => key (IPNet a)) addr := 1]> m).
    rewrite present_lookup, lookup_empty.
    case_decide; split; intros [? ?]; split; auto; try discriminate.
    contradiction.
  - split; [exact Hndr |]. split; [exact Hstale | exact Hreadds].
Qed.

End calls_of_success.

(** ** The calls of a run that ends well, at Scenario C *)

Lemma syncRoutes_successful_calls_witness :
  returned (syncRoutes id_order wg0 scenario_C) drifted_stub = Ok tt /\
  exists routes w1 added removed dels,
    RouteList wg0 AF_INET drifted_stub = (Ok routes, w1) /\
    trace (syncRoutes id_order wg0 scenario_C) drifted_stub
    = (CRouteList wg0 AF_INET, None)
        :: map (fun d => (CRouteAdd {| LinkIndex := Index wg0;
                                       Dst := Some d |}, None)) added
        ++ dels /\
    sublist added (desired_routes scenario_C) /\
    NoDup (keys added) /\
    (forall s, s ∈ keys added
               <-> s ∈ keys (desired_routes scenario_C)
                   /\ s ∉ route_strings routes) /\
    NoDup removed /\
    (forall s, s ∈ removed
               <-> s ∈ route_strings routes
                   /\ s ∉ keys (desired_routes scenario_C)) /\
    Forall2 (route_removal wg0) removed dels.
Proof.
  split; [vm_compute; reflexivity |].
  apply (syncRoutes_successful_calls (H := stub.host) id_order
           (fun l => reflexivity l) wg0 scenario_C drifted_stub).
  vm_compute. reflexivity.
Defined.

Lemma syncAddress_successful_calls_witness :
  returned (syncAddress id_order wg0 scenario_C) drifted_stub = Ok tt /\
  exists addrs w1 added stale readds,
    AddrList wg0 AF_INET drifted_stub = (Ok addrs, w1) /\
    trace (syncAddress id_order wg0 scenario_C) drifted_stub
    = (CAddrList wg0 AF_INET, None)
        :: map (fun d => (CAddrAdd wg0 {| IPNet := d; Label := "" |}, None))
             added
        ++ readds /\
    sublist added (Address scenario_C) /\
    NoDup (keys added) /\
    (forall s, s ∈ keys added
               <-> s ∈ keys (Address scenario_C)
                   /\ s ∉ address_strings addrs) /\
    NoDup stale /\
    (forall s, s ∈ stale
               <-> s ∈ address_strings addrs
                   /\ s ∉ keys (Address scenario_C)) /\
    Forall2 (address_removal wg0) stale readds.
Proof.
  split; [vm_compute; reflexivity |].
  apply (syncAddress_successful_calls (H := stub.host) id_order
           (fun l => reflexivity l) wg0 scenario_C drifted_stub).
  vm_compute. reflexivity.
Defined.

(** ** The text of a key: newlines and foreign characters *)

Section key_text.

Lemma newline_no_sextet (c : ascii) :
  base64.is_newline c = true -> base64.decodeMap c = None.
Proof.
  unfold base64.is_newline. intros Hc. apply orb_true_iff in Hc.
  destruct Hc as [Hc | Hc]; apply Ascii.eqb_eq in Hc; subst c; reflexivity.
Qed.

Lemma decodeQuantum_done (s : string) (si : Z) (dbuf : list Z) :
  (4 <=? length dbuf)%nat = true ->
  base64.decodeQuantum s si dbuf = (s, si, base64.assemble dbuf 4, None).
Proof.
  intros Hlen. destruct s; cbn [base64.decodeQuantum]; rewrite Hlen;
    reflexivity.
Qed.

Lemma skip_newlines_kept (s : string) :
  forall si,
    without_newlines (fst (base64.skip_newlines s si)) = without_newlines s /\
    (fst (base64.skip_newlines s si) = ""
     \/ exists c s3, fst (base64.skip_newlines s si) = String c s3
                     /\ base64.is_newline c = false).
Proof.
  induction s as [| c s IH]; intros si; cbn [base64.skip_newlines].
  - split; [reflexivity | left; reflexivity].
  - destruct (base64.is_newline c) eqn:Hc.
    + destruct (IH (si + 1)) as [Hw Hs]. split; [| exact Hs].
      rewrite Hw. cbn [without_newlines]. rewrite Hc. reflexivity.
    + split; [reflexivity |]. right. exists c, s. auto.
Qed.

Lemma skip_newlines_without (s : string) (ti : Z) :
  base64.skip_newlines (without_newlines s) ti = (without_newlines s, ti).
Proof.
  induction s as [| c s IH]; [reflexivity |].
  cbn [without_newlines]. destruct (base64.is_newline c) eqn:Hc;
    [exact IH |].
  cbn [base64.skip_newlines]. rewrite Hc. reflexivity.
Qed.

Lemma skip_newlines_length (s : string) :
  forall si,
    (String.length (fst (base64.skip_newlines s si)) <= String.length s)%nat.
Proof.
  induction s as [| c s IH]; intros si; cbn [base64.skip_newlines];
    [reflexivity |].
  destruct (base64.is_newline c); cbn [fst String.length];
    [specialize (IH (si + 1)); lia | lia].
Qed.

Ltac ends :=
  unfold left_over, written, failure; cbn [fst snd without_newlines].

(** A quantum reads a text and the text without its newlines alike: the
    same bytes, an error for both or for neither, and what is left of
    the one is, without its newlines, what is left of the other. *)
Lemma decodeQuantum_without_newlines (s : string) :
  forall (si ti : Z) (dbuf : list Z),
    without_newlines (left_over (base64.decodeQuantum s si dbuf))
    = left_over (base64.decodeQuantum (without_newlines s) ti dbuf) /\
    written (base64.decodeQuantum s si dbuf)
    = written (base64.decodeQuantum (without_newlines s) ti dbuf) /\
    (failure (base64.decodeQuantum s si dbuf) = None
     <-> failure (base64.decodeQuantum (without_newlines s) ti dbuf) = None).
Proof.
  induction s as [| c s IH]; intros si ti dbuf.
  - cbn [base64.decodeQuantum without_newlines].
    destruct (4 <=? length dbuf)%nat; [ends; tauto |].
    destruct (length dbuf =? 0)%nat; ends; intuition discriminate.
  - destruct (4 <=? length dbuf)%nat eqn:Hfull.
    + rewrite !decodeQuantum_done by exact Hfull.
      ends. tauto.
    + cbn [without_newlines]. destruct (base64.is_newline c) eqn:Hnl.
      * cbn [base64.decodeQuantum].
        rewrite Hfull, (newline_no_sextet c Hnl), Hnl. apply IH.
      * cbn [base64.decodeQuantum]. rewrite Hfull.
        destruct (base64.decodeMap c) eqn:Hmap; [apply IH |].
        rewrite Hnl.
        destruct (negb (Ascii.eqb c base64.padChar));
          [ends; intuition discriminate |].
        destruct (length dbuf <? 2)%nat; [ends; intuition discriminate |].
        destruct (length dbuf =? 2)%nat.
        -- pose proof (skip_newlines_kept s (si + 1)) as [Hw Hs].
           rewrite (skip_newlines_without s (ti + 1)).
           destruct (base64.skip_newlines s (si + 1)) as [s2 si2].
           cbn [fst] in Hw, Hs.
           destruct Hs as [-> | (c2 & s3 & -> & Hc2)].
           ++ cbn [without_newlines] in Hw. rewrite <- Hw. ends. intuition discriminate.
           ++ cbn [without_newlines] in Hw. rewrite Hc2 in Hw. rewrite <- Hw.
              destruct (negb (Ascii.eqb c2 base64.padChar)).
              ** ends. rewrite Hc2. intuition discriminate.
              ** pose proof (skip_newlines_kept s3 (si2 + 1)) as [Hw' Hs'].
                 rewrite (skip_newlines_without s3 (ti + 1 + 1)).
                 destruct (base64.skip_newlines s3 (si2 + 1)) as [s4 si4].
                 cbn [fst] in Hw', Hs'.
                 destruct Hs' as [-> | (c4 & s5 & -> & Hc4)].
                 --- cbn [without_newlines] in Hw'. rewrite <- Hw'. ends. tauto.
                 --- cbn [without_newlines] in Hw'. rewrite Hc4 in Hw'.
                     rewrite <- Hw'. ends. rewrite Hc4. intuition discriminate.
        -- pose proof (skip_newlines_kept s (si + 1)) as [Hw' Hs'].
           rewrite (skip_newlines_without s (ti + 1)).
           destruct (base64.skip_newlines s (si + 1)) as [s4 si4].
           cbn [fst] in Hw', Hs'.
           destruct Hs' as [-> | (c4 & s5 & -> & Hc4)].
           ++ cbn [without_newlines] in Hw'. rewrite <- Hw'. ends. tauto.
           ++ cbn [without_newlines] in Hw'. rewrite Hc4 in Hw'.
              rewrite <- Hw'. ends. rewrite Hc4. intuition discriminate.
Qed.

(** A quantum leaves no more than it found, and less when it starts on
    a text that has a character. *)
Lemma decodeQuantum_length (s : string) :
  forall (si : Z) (dbuf : list Z),
    (String.length (left_over (base64.decodeQuantum s si dbuf))
     <= String.length s)%nat.
Proof.
  induction s as [| c s IH]; intros si dbuf; cbn [base64.decodeQuantum].
  - destruct (4 <=? length dbuf)%nat; [ends; lia |].
    destruct (length dbuf =? 0)%nat; ends; lia.
  - destruct (4 <=? length dbuf)%nat; [ends; lia |].
    cbn [String.length].
    destruct (base64.decodeMap c);
      [specialize (IH (si + 1) (dbuf ++ [z])); lia |].
    destruct (base64.is_newline c);
      [specialize (IH (si + 1) dbuf); lia |].
    destruct (negb (Ascii.eqb c base64.padChar)); [ends; lia |].
    destruct (length dbuf <? 2)%nat; [ends; lia |].
    destruct (length dbuf =? 2)%nat.
    + pose proof (skip_newlines_length s (si + 1)) as Hs.
      destruct (base64.skip_newlines s (si + 1)) as [s2 si2].
      cbn [fst] in Hs. destruct s2 as [| c2 s3]; [ends; lia |].
      cbn [String.length] in Hs.
      destruct (negb (Ascii.eqb c2 base64.padChar));
        [ends; cbn [String.length]; lia |].
      pose proof (skip_newlines_length s3 (si2 + 1)) as Hs'.
      destruct (base64.skip_newlines s3 (si2 + 1)) as [s4 si4].
      cbn [fst] in Hs'. ends. lia.
    + pose proof (skip_newlines_length s (si + 1)) as Hs'.
      destruct (base64.skip_newlines s (si + 1)) as [s4 si4].
      cbn [fst] in Hs'. ends. lia.
Qed.

Lemma decodeQuantum_consumes (c : ascii) (s : string) (si : Z) :
  (String.length (left_over (base64.decodeQuantum (String c s) si []))
   <= String.length s)%nat.
Proof.
  cbn [base64.decodeQuantum length Nat.leb Nat.ltb Nat.eqb].
  destruct (base64.decodeMap c); [apply decodeQuantum_length |].
  destruct (base64.is_newline c); [apply decodeQuantum_length |].
  destruct (negb (Ascii.eqb c base64.padChar)); ends; lia.
Qed.

(** The loop of [Decode] reads a text and the text without its newlines
    alike. *)
Lemma Decode_loop_without_newlines (fuel1 : nat) :
  forall (s : string) (fuel2 : nat) (si ti : Z) (dst : list Z),
    (String.length s < fuel1)%nat ->
    (String.length (without_newlines s) < fuel2)%nat ->
    fst (base64.Decode_loop fuel1 s si dst)
    = fst (base64.Decode_loop fuel2 (without_newlines s) ti dst) /\
    (snd (base64.Decode_loop fuel1 s si dst) = None
     <-> snd (base64.Decode_loop fuel2 (without_newlines s) ti dst) = None).
Proof.
  induction fuel1 as [| f IH]; intros s fuel2 si ti dst Hf1 Hf2; [lia |].
  destruct s as [| c s0].
  - cbn [without_newlines]. destruct fuel2; cbn; tauto.
  - rewrite Decode_loop_nonempty by discriminate.
    destruct (decodeQuantum_without_newlines (String c s0) si ti [])
      as (Hleft & Hout & Herr).
    pose proof (decodeQuantum_consumes c s0 si) as Hlen.
    destruct (base64.decodeQuantum (String c s0) si [])
      as [[[s' si'] out] err].
    unfold left_over, written, failure in Hleft, Hout, Herr, Hlen.
    cbn [fst snd] in Hleft, Hout, Herr, Hlen.
    cbn [String.length] in Hf1.
    destruct (without_newlines (String c s0)) as [| c' t0] eqn:Hwn.
    + cbn in Hleft, Hout, Herr.
      assert (err = None) as -> by (apply Herr; reflexivity).
      subst out. rewrite app_nil_r.
      destruct (IH s' 1%nat si' ti dst) as [Hfst Hsnd];
        [lia | rewrite Hleft; cbn; lia |].
      rewrite Hleft in Hfst, Hsnd. cbn in Hfst, Hsnd.
      destruct fuel2; cbn; tauto.
    + destruct fuel2 as [| f2]; [lia |].
      rewrite (Decode_loop_nonempty f2 (String c' t0)) by discriminate.
      pose proof (decodeQuantum_consumes c' t0 ti) as Hlen'.
      destruct (base64.decodeQuantum (String c' t0) ti [])
        as [[[t' ti'] out'] err'].
      unfold left_over in Hlen'. cbn [fst snd] in Hleft, Hout, Herr, Hlen'.
      cbn [String.length] in Hf2. subst out' t'.
      destruct err as [e |], err' as [e' |]; cbn [fst snd].
      * intuition discriminate.
      * exfalso. destruct Herr as [_ Herr]. specialize (Herr eq_refl).
        discriminate.
      * exfalso. destruct Herr as [Herr _]. specialize (Herr eq_refl).
        discriminate.
      * apply IH; lia.
Qed.

Lemma DecodeString_without_newlines (s : string) :
  fst (base64.DecodeString s) = fst (base64.DecodeString (without_newlines s))
  /\ (snd (base64.DecodeString s) = None
      <-> snd (base64.DecodeString (without_newlines s)) = None).
Proof. unfold base64.DecodeString. apply Decode_loop_without_newlines; lia. Qed.

(** X11: [ParseKey] does not see carriage returns and line feeds: a text
    and the text without them give the same key, and an error for both
    or for neither.  A key file that ends in a newline is read as the
    key. *)
Theorem ParseKey_ignores_newlines (s : string) :
  fst (ParseKey s) = fst (ParseKey (without_newlines s)) /\
  (snd (ParseKey s) = None <-> snd (ParseKey (without_newlines s)) = None).
Proof.
  unfold ParseKey.
  destruct (DecodeString_without_newlines s) as [Hfst Hsnd].
  destruct (base64.DecodeString s) as [b [e |]],
    (base64.DecodeString (without_newlines s)) as [b' [e' |]];
    cbn [fst snd] in *.
  - intuition discriminate.
  - exfalso. destruct Hsnd as [_ Hsnd]. specialize (Hsnd eq_refl).
    discriminate.
  - exfalso. destruct Hsnd as [Hsnd _]. specialize (Hsnd eq_refl).
    discriminate.
  - subst b'. tauto.
Qed.

(** X12: a text that is, without its carriage returns and line feeds,
    what [serializeKey] gives for a 32-byte key parses to that key,
    with no error. *)
Theorem ParseKey_serializeKey_newlines (k : list Z) (s : string) :
  wgtypes.is_Key k ->
  without_newlines s = serializeKey k ->
  ParseKey s = (k, None).
Proof.
  intros [Hlen Hbytes] Hs. unfold ParseKey.
  destruct (DecodeString_without_newlines s) as [Hfst Hsnd].
  rewrite Hs in Hfst, Hsnd. unfold serializeKey in Hfst, Hsnd.
  rewrite DecodeString_EncodeToString in Hfst, Hsnd by exact Hbytes.
  cbn [fst snd] in Hfst, Hsnd.
  destruct (base64.DecodeString s) as [b err]. cbn [fst snd] in Hfst, Hsnd.
  subst b. assert (err = None) as -> by (apply Hsnd; reflexivity).
  rewrite copy_exact; [reflexivity |]. rewrite Hlen. reflexivity.
Qed.

Lemma newline_not_foreign (c : ascii) :
  base64.is_newline c = true -> foreign c = false.
Proof.
  intros Hc. unfold foreign. rewrite (newline_no_sextet c Hc), Hc.
  reflexivity.
Qed.

Lemma has_foreign_cons (c : ascii) (s : string) :
  has_foreign (String c s) = foreign c || has_foreign s.
Proof. reflexivity. Qed.

Lemma sextet_not_foreign (c : ascii) (v : Z) :
  base64.decodeMap c = Some v -> foreign c = false.
Proof. intros Hc. unfold foreign. rewrite Hc. reflexivity. Qed.

Lemma padChar_not_foreign (c : ascii) :
  negb (Ascii.eqb c base64.padChar) = false -> foreign c = false.
Proof.
  intros Hc. unfold foreign. apply negb_false_iff in Hc. rewrite Hc.
  destruct (base64.decodeMap c); [reflexivity |]. apply andb_false_r.
Qed.

Lemma skip_newlines_foreign (s : string) :
  forall si, has_foreign (fst (base64.skip_newlines s si)) = has_foreign s.
Proof.
  induction s as [| c s IH]; intros si; cbn [base64.skip_newlines];
    [reflexivity |].
  destruct (base64.is_newline c) eqn:Hc; [| reflexivity].
  rewrite IH. cbn [has_foreign]. rewrite (newline_not_foreign c Hc).
  reflexivity.
Qed.

(** A quantum that starts before a foreign character fails with a
    [CorruptInputError], or ends before it. *)
Lemma decodeQuantum_foreign (s : string) :
  forall (si : Z) (dbuf : list Z),
    has_foreign s = true ->
    (exists i, failure (base64.decodeQuantum s si dbuf)
               = Some (CorruptInputError i))
    \/ (failure (base64.decodeQuantum s si dbuf) = None
        /\ has_foreign (left_over (base64.decodeQuantum s si dbuf)) = true).
Proof.
  induction s as [| c s IH]; intros si dbuf Hf; [discriminate Hf |].
  remember (base64.decodeQuantum (String c s) si dbuf) as r eqn:Hr.
  cbn [base64.decodeQuantum] in Hr. revert Hr.
  destruct (4 <=? length dbuf)%nat;
    [intros ->; right; ends; split; [reflexivity | exact Hf] |].
  rewrite has_foreign_cons in Hf.
  destruct (base64.decodeMap c) eqn:Hmap.
  { intros ->. apply IH. rewrite (sextet_not_foreign c _ Hmap) in Hf.
    exact Hf. }
  destruct (base64.is_newline c) eqn:Hnl.
  { intros ->. apply IH. rewrite (newline_not_foreign c Hnl) in Hf.
    exact Hf. }
  destruct (negb (Ascii.eqb c base64.padChar)) eqn:Hpad;
    [intros ->; left; ends; eexists; reflexivity |].
  rewrite (padChar_not_foreign c Hpad) in Hf. cbn [orb] in Hf.
  destruct (length dbuf <? 2)%nat;
    [intros ->; left; ends; eexists; reflexivity |].
  destruct (length dbuf =? 2)%nat.
  - pose proof (skip_newlines_foreign s (si + 1)) as Hs.
    destruct (base64.skip_newlines s (si + 1)) as [s2 si2].
    cbn [fst] in Hs. rewrite Hf in Hs.
    destruct s2 as [| c2 s3]; [discriminate Hs |].
    destruct (negb (Ascii.eqb c2 base64.padChar)) eqn:Hpad2;
      [intros ->; left; ends; eexists; reflexivity |].
    rewrite has_foreign_cons, (padChar_not_foreign c2 Hpad2) in Hs.
    cbn [orb] in Hs.
    pose proof (skip_newlines_foreign s3 (si2 + 1)) as Hs'.
    destruct (base64.skip_newlines s3 (si2 + 1)) as [s4 si4].
    cbn [fst] in Hs'. rewrite Hs in Hs'.
    destruct s4; [discriminate Hs' |].
    intros ->. left. ends. eexists. reflexivity.
  - pose proof (skip_newlines_foreign s (si + 1)) as Hs'.
    destruct (base64.skip_newlines s (si + 1)) as [s4 si4].
    cbn [fst] in Hs'. rewrite Hf in Hs'.
    destruct s4; [discriminate Hs' |].
    intros ->. left. ends. eexists. reflexivity.
Qed.

Lemma Decode_loop_foreign (fuel : nat) :
  forall (s : string) (si : Z) (dst : list Z),
    (String.length s < fuel)%nat ->
    has_foreign s = true ->
    exists i, snd (base64.Decode_loop fuel s si dst)
              = Some (CorruptInputError i).
Proof.
  induction fuel as [| f IH]; intros s si dst Hfuel Hf; [lia |].
  destruct s as [| c s0]; [discriminate Hf |].
  rewrite Decode_loop_nonempty by discriminate.
  destruct (decodeQuantum_foreign (String c s0) si [] Hf)
    as [[i Herr] | [Herr Hleft]];
    pose proof (decodeQuantum_consumes c s0 si) as Hlen;
    destruct (base64.decodeQuantum (String c s0) si [])
      as [[[s' si'] out] err];
    unfold left_over, failure in *; cbn [fst snd] in *; subst err.
  - exists i. reflexivity.
  - apply IH; [cbn [String.length] in Hfuel; lia | exact Hleft].
Qed.

(** X13: [ParseKey] refuses every text with a character that is no
    base64 digit, no [=] and no newline, wherever the character is: it
    returns the zero key and a [CorruptInputError]. *)
Theorem ParseKey_foreign_character (s : string) :
  has_foreign s = true ->
  exists i, ParseKey s = (wgtypes.zeroKey, Some (CorruptInputError i)).
Proof.
  intros Hf. unfold ParseKey.
  destruct (Decode_loop_foreign (S (String.length s)) s 0 [] (Nat.lt_succ_diag_r _) Hf)
    as [i Hi].
  fold (base64.DecodeString s) in Hi.
  destruct (base64.DecodeString s) as [b err]. cbn [snd] in Hi. subst err.
  exists i. reflexivity.
Qed.

End key_text.

(** ** The text of a key, at a key file and at a text with an asterisk *)

Lemma ParseKey_serializeKey_newlines_witness :
  wgtypes.is_Key (seqZ 100 32) /\
  without_newlines (key_file (seqZ 100 32)) = serializeKey (seqZ 100 32) /\
  ParseKey (key_file (seqZ 100 32)) = (seqZ 100 32, None).
Proof.
  assert (H : wgtypes.is_Key (seqZ 100 32)).
  { split; [reflexivity |]. apply Forall_forall. intros b Hb.
    apply elem_of_seqZ in Hb. lia. }
  assert (Hs : without_newlines (key_file (seqZ 100 32))
               = serializeKey (seqZ 100 32))
    by (vm_compute; reflexivity).
  split; [exact H |]. split; [exact Hs |].
  exact (ParseKey_serializeKey_newlines (seqZ 100 32)
           (key_file (seqZ 100 32)) H Hs).
Defined.

Lemma ParseKey_foreign_character_witness :
  has_foreign "AQ*D" = true /\
  exists i, ParseKey "AQ*D" = (wgtypes.zeroKey, Some (CorruptInputError i)).
Proof.
  split; [reflexivity |].
  exact (ParseKey_foreign_character "AQ*D" eq_refl).
Defined.

(** ** The text [serializeKey] writes *)

Section key_written.

Lemma sextet_plain (val k : Z) :
  0 <= k ->
  foreign (base64.sextet val k) = false /\
  base64.is_newline (base64.sextet val k) = false.
Proof.
  intros Hk. pose proof (sextet_decodes val k Hk) as Hd. split.
  - exact (sextet_not_foreign _ _ Hd).
  - destruct (base64.is_newline (base64.sextet val k)) eqn:Hnl;
      [| reflexivity].
    apply newline_no_sextet in Hnl. congruence.
Qed.

Lemma without_newlines_cons (c : ascii) (s : string) :
  base64.is_newline c = false ->
  without_newlines (String c s) = String c (without_newlines s).
Proof. intros Hc. cbn [without_newlines]. rewrite Hc. reflexivity. Qed.

Lemma has_foreign_sextet (val k : Z) (s : string) :
  0 <= k ->
  has_foreign (String (base64.sextet val k) s) = has_foreign s.
Proof.
  intros Hk. rewrite has_foreign_cons.
  destruct (sextet_plain val k Hk) as [-> _]. reflexivity.
Qed.

Lemma without_newlines_sextet (val k : Z) (s : string) :
  0 <= k ->
  without_newlines (String (base64.sextet val k) s)
  = String (base64.sextet val k) (without_newlines s).
Proof. intros Hk. apply without_newlines_cons, sextet_plain, Hk. Qed.

Lemma has_foreign_padChar (s : string) :
  has_foreign (String base64.padChar s) = has_foreign s.
Proof. rewrite has_foreign_cons. reflexivity. Qed.

Lemma without_newlines_padChar (s : string) :
  without_newlines (String base64.padChar s)
  = String base64.padChar (without_newlines s).
Proof. apply without_newlines_cons. reflexivity. Qed.

(** What [EncodeToString] writes has base64 digits and padding only. *)
Lemma EncodeToString_plain (l : list Z) :
  has_foreign (base64.EncodeToString l) = false /\
  without_newlines (base64.EncodeToString l) = base64.EncodeToString l.
Proof.
  induction l as [| a | a b | a b c l [IHf IHw]] using triples_ind;
    cbn [base64.EncodeToString].
  - split; reflexivity.
  - rewrite !has_foreign_sextet, !has_foreign_padChar by lia.
    rewrite !without_newlines_sextet, !without_newlines_padChar by lia.
    split; reflexivity.
  - rewrite !has_foreign_sextet, !has_foreign_padChar by lia.
    rewrite !without_newlines_sextet, !without_newlines_padChar by lia.
    split; reflexivity.
  - rewrite !has_foreign_sextet by lia.
    rewrite !without_newlines_sextet by lia.
    rewrite IHw. split; [exact IHf | reflexivity].
Qed.

(** X14: the text [serializeKey] writes for a 32-byte key has 44
    characters, each a base64 digit or [=]: no newline and no other
    character. *)
Theorem serializeKey_text (k : list Z) :
  wgtypes.is_Key k ->
  String.length (serializeKey k) = 44%nat /\
  has_foreign (serializeKey k) = false /\
  without_newlines (serializeKey k) = serializeKey k.
Proof.
  intros [Hlen _]. unfold serializeKey. split.
  - rewrite EncodeToString_length, Hlen. reflexivity.
  - apply EncodeToString_plain.
Qed.

End key_written.

Lemma serializeKey_text_witness :
  wgtypes.is_Key (seqZ 100 32) /\
  String.length (serializeKey (seqZ 100 32)) = 44%nat /\
  has_foreign (serializeKey (seqZ 100 32)) = false /\
  without_newlines (serializeKey (seqZ 100 32)) = serializeKey (seqZ 100 32).
Proof.
  assert (H : wgtypes.is_Key (seqZ 100 32)).
  { split; [reflexivity |]. apply Forall_forall. intros b Hb.
    apply elem_of_seqZ in Hb. lia. }
  split; [exact H | exact (serializeKey_text (seqZ 100 32) H)].
Defined.
